(** * Echo Sports: the partial-JSON recoverer of the streaming report

    A shallow embedding of [tryParsePartialJSON] and of [handleSportsSearch]
    (AIComponent.tsx), together with the two platform services they call:
    [JSON.parse] (ECMA-404 grammar, ECMAScript value construction) and the
    backtracking regular-expression matcher behind [String.prototype.match]
    and [String.prototype.replace].  Two more parts of the component
    follow: the [handleSportsSearch] of its version without streaming
    (module [Batch]) and the order in which it lays out the event cards
    (module [Display]).

    - JavaScript strings are sequences of 16-bit code units; they are
      modelled as lists of [N], one number per code unit.
    - JavaScript values are one inductive type, [value]; an object is the
      list of its own properties.
    - Exceptions are explicit: a computation that can throw returns a
      [completion], and [try]/[catch] is [try_catch].
    - The component state is a record, the setters are record updates, and
      the text stream is the list of its chunks.

    Limits of the engine (call-stack depth, backtracking budgets) are not
    modelled.

    The file has three parts: the program, the vocabulary of its
    properties, and the properties: the claims C1 to C10, then the further
    properties X1 to X19. *)

From Stdlib Require Import String Ascii.
From Stdlib Require Import List NArith ZArith Bool Lia.
Import ListNotations.

Set Implicit Arguments.

(* ================================================================== *)
(** ** Strings as lists of code units *)

Module Str.

Definition code_unit := N.
Definition jsstring := list code_unit.

(** Code unit of an ASCII character. *)
Definition cu (a : ascii) : code_unit := N_of_ascii a.

(** The double quote, U+0022, and the backslash, U+005C. *)
Definition dquote : code_unit := 34%N.
Definition backslash : code_unit := 92%N.

Fixpoint js (s : string) : jsstring :=
  match s with
  | EmptyString => []
  | String a r => cu a :: js r
  end.

(** Text literals with double quotes inside are written with an apostrophe
    in place of every double quote: [jsq "{'a': 1}"] is the text {"a": 1}. *)
Fixpoint jsq (s : string) : jsstring :=
  match s with
  | EmptyString => []
  | String a r => (if Ascii.eqb a "'" then dquote else cu a) :: jsq r
  end.

Definition quoted (s : jsstring) : jsstring := dquote :: s ++ [dquote].

Fixpoint eqb (a b : jsstring) : bool :=
  match a, b with
  | [], [] => true
  | x :: a', y :: b' => N.eqb x y && eqb a' b'
  | _, _ => false
  end.

(** [starts_with p s]: the text [s] begins with [p]. *)
Fixpoint starts_with (p s : jsstring) : bool :=
  match p, s with
  | [], _ => true
  | x :: p', y :: s' => N.eqb x y && starts_with p' s'
  | _ :: _, [] => false
  end.

(** [String.prototype.includes]. *)
Fixpoint includes (s p : jsstring) : bool :=
  starts_with p s ||
  match s with
  | [] => false
  | _ :: s' => includes s' p
  end.

(** [String.prototype.slice start end], with relative (negative) indices. *)
Definition rel_index (len i : Z) : Z :=
  if (i <? 0)%Z then Z.max (len + i) 0 else Z.min i len.

Definition slice (s : jsstring) (from to : Z) : jsstring :=
  let len := Z.of_nat (length s) in
  let a := rel_index len from in
  let b := rel_index len to in
  firstn (Z.to_nat (b - a)) (skipn (Z.to_nat a) s).

End Str.
Import Str.

(* ================================================================== *)
(** ** JavaScript values and completions *)

(** A number read by [JSON.parse] is kept as the decimal it was written as,
    [(-1)^neg * mant * 10^exp]; the rounding to a double is not modelled,
    except for the one observation the program makes of a number, whether it
    is zero (see [num_is_zero]). *)
#[warnings="-register-all"]
Inductive value : Type :=
| VUndef
| VNull
| VBool (b : bool)
| VNum (neg : bool) (mant : N) (exp : Z)
| VStr (s : jsstring)
| VArr (elems : list value)
| VObj (props : list (jsstring * value)).

Inductive exn : Type :=
| SyntaxError
| TypeError
| Error (message : jsstring).

Inductive completion (A : Type) : Type :=
| Ok (a : A)
| Throw (e : exn).
Arguments Ok {A} a.
Arguments Throw {A} e.

Definition bind {A B} (c : completion A) (f : A -> completion B) : completion B :=
  match c with
  | Ok a => f a
  | Throw e => Throw e
  end.

(** [try { c } catch { h }] *)
Definition try_catch {A} (c : completion A) (h : exn -> completion A) : completion A :=
  match c with
  | Ok a => Ok a
  | Throw e => h e
  end.

Notation "x <- c ;; k" := (bind c (fun x => k))
  (at level 61, c at next level, right associativity).

Fixpoint mapM {A B} (f : A -> completion B) (l : list A) : completion (list B) :=
  match l with
  | [] => Ok []
  | a :: l' => b <- f a ;; bs <- mapM f l' ;; Ok (b :: bs)
  end.

Fixpoint filterM {A} (p : A -> completion bool) (l : list A) : completion (list A) :=
  match l with
  | [] => Ok []
  | a :: l' => keep <- p a ;; rest <- filterM p l' ;; Ok (if keep then a :: rest else rest)
  end.

(** Own properties of an object, in insertion order. *)
Fixpoint lookup (k : jsstring) (props : list (jsstring * value)) : option value :=
  match props with
  | [] => None
  | (k', v) :: ps => if Str.eqb k k' then Some v else lookup k ps
  end.

(** Defining a property: an existing key keeps its place and takes the new
    value, a new key goes last.  (The engine lists integer-like keys before
    the others; the program never looks at the order of keys.) *)
Fixpoint obj_set (props : list (jsstring * value)) (k : jsstring) (v : value)
  : list (jsstring * value) :=
  match props with
  | [] => [(k, v)]
  | (k', v') :: ps => if Str.eqb k k' then (k', v) :: ps else (k', v') :: obj_set ps k v
  end.

(** Property read [v.k], for the keys this program reads ([summary],
    [events], [barTalk], [headline]): none of them is defined on a built-in
    prototype, so the read gives the own property of an object and
    [undefined] on anything else, and throws on [null] and [undefined]. *)
Definition get_prop (v : value) (k : jsstring) : completion value :=
  match v with
  | VUndef | VNull => Throw TypeError
  | VObj props =>
      match lookup k props with
      | Some x => Ok x
      | None => Ok VUndef
      end
  | _ => Ok VUndef
  end.

(** A decimal [mant * 10^exp] rounds to the double 0 exactly when it is at
    most 2^-1075 in magnitude (round to nearest, ties to even). *)
Definition num_is_zero (mant : N) (exp : Z) : bool :=
  (mant =? 0)%N ||
  ((exp <? 0)%Z && (Z.of_N mant * 2 ^ 1075 <=? 10 ^ (- exp))%Z).

(** ToBoolean. *)
Definition truthy (v : value) : bool :=
  match v with
  | VUndef | VNull => false
  | VBool b => b
  | VNum _ m e => negb (num_is_zero m e)
  | VStr s => match s with [] => false | _ => true end
  | VArr _ | VObj _ => true
  end.

(** [a !== b] where [b] is a string. *)
Definition strict_neq_str (a : value) (b : jsstring) : bool :=
  match a with
  | VStr s => negb (Str.eqb s b)
  | _ => true
  end.

(** [a || b] on values. *)
Definition or_else (a b : value) : value := if truthy a then a else b.

(* ================================================================== *)
(** ** JSON.parse *)

Module JSON.

(** JSON white space: space, tab, line feed, carriage return. *)
Definition is_ws (c : code_unit) : bool :=
  ((c =? 32) || (c =? 9) || (c =? 10) || (c =? 13))%N.

Fixpoint skip_ws (s : jsstring) : jsstring :=
  match s with
  | c :: r => if is_ws c then skip_ws r else s
  | [] => []
  end.

Definition is_digit (c : code_unit) : bool := ((48 <=? c) && (c <=? 57))%N.

Definition hex_val (c : code_unit) : option N :=
  if ((48 <=? c) && (c <=? 57))%N then Some (c - 48)%N
  else if ((65 <=? c) && (c <=? 70))%N then Some (c - 55)%N
  else if ((97 <=? c) && (c <=? 102))%N then Some (c - 87)%N
  else None.

(** The character after a backslash in a string, other than [u]. *)
Definition simple_escape (c : code_unit) : option code_unit :=
  if (c =? dquote)%N then Some dquote
  else if (c =? backslash)%N then Some backslash
  else if (c =? cu "/")%N then Some (cu "/")
  else if (c =? cu "b")%N then Some 8%N
  else if (c =? cu "f")%N then Some 12%N
  else if (c =? cu "n")%N then Some 10%N
  else if (c =? cu "r")%N then Some 13%N
  else if (c =? cu "t")%N then Some 9%N
  else None.

(** The characters of a string after its opening quote, up to and including
    the closing quote: the decoded string and the text after it. *)
Fixpoint parse_chars (s : jsstring) : option (jsstring * jsstring) :=
  match s with
  | [] => None
  | c :: r =>
      if (c =? dquote)%N then Some ([], r)
      else if (c =? backslash)%N then
        match r with
        | [] => None
        | e :: r1 =>
            match simple_escape e with
            | Some x =>
                match parse_chars r1 with
                | Some (str, rest) => Some (x :: str, rest)
                | None => None
                end
            | None =>
                if (e =? cu "u")%N then
                  match r1 with
                  | h1 :: h2 :: h3 :: h4 :: r2 =>
                      match hex_val h1, hex_val h2, hex_val h3, hex_val h4 with
                      | Some a, Some b, Some c', Some d =>
                          match parse_chars r2 with
                          | Some (str, rest) =>
                              Some ((a * 4096 + b * 256 + c' * 16 + d)%N :: str, rest)
                          | None => None
                          end
                      | _, _, _, _ => None
                      end
                  | _ => None
                  end
                else None
            end
        end
      else if (c <? 32)%N then None
      else
        match parse_chars r with
        | Some (str, rest) => Some (c :: str, rest)
        | None => None
        end
  end.

(** A maximal run of decimal digits. *)
Fixpoint take_digits (s : jsstring) : jsstring * jsstring :=
  match s with
  | c :: r =>
      if is_digit c then let (ds, rest) := take_digits r in (c :: ds, rest)
      else ([], s)
  | [] => ([], [])
  end.

Definition digits_val (ds : jsstring) : N :=
  fold_left (fun acc d => (acc * 10 + (d - 48))%N) ds 0%N.

(** integer part: [0] alone, or a digit 1-9 and more digits *)
Definition parse_int_part (s : jsstring) : option (jsstring * jsstring) :=
  match s with
  | c :: r =>
      if (c =? 48)%N then Some ([c], r)
      else if is_digit c then let (ds, rest) := take_digits r in Some (c :: ds, rest)
      else None
  | [] => None
  end.

(** fraction: nothing, or a dot and at least one digit *)
Definition parse_frac_part (s : jsstring) : option (jsstring * jsstring) :=
  match s with
  | c :: r =>
      if (c =? cu ".")%N then
        match take_digits r with
        | ([], _) => None
        | (ds, rest) => Some (ds, rest)
        end
      else Some ([], s)
  | [] => Some ([], [])
  end.

(** the digits of an exponent, at least one *)
Definition exp_digits (negative : bool) (s : jsstring) : option (Z * jsstring) :=
  match take_digits s with
  | ([], _) => None
  | (ds, rest) =>
      let e := Z.of_N (digits_val ds) in
      Some (if negative then (- e)%Z else e, rest)
  end.

(** exponent: nothing, or e/E, an optional sign and at least one digit *)
Definition parse_exp_part (s : jsstring) : option (Z * jsstring) :=
  match s with
  | c :: r =>
      if ((c =? cu "e") || (c =? cu "E"))%N then
        match r with
        | c1 :: r' =>
            if (c1 =? cu "-")%N then exp_digits true r'
            else if (c1 =? cu "+")%N then exp_digits false r'
            else exp_digits false r
        | [] => None
        end
      else Some (0%Z, s)
  | [] => Some (0%Z, [])
  end.

(** a number after its sign *)
Definition parse_unsigned (neg : bool) (s1 : jsstring) : option (value * jsstring) :=
  match parse_int_part s1 with
  | None => None
  | Some (ip, s2) =>
      match parse_frac_part s2 with
      | None => None
      | Some (fp, s3) =>
          match parse_exp_part s3 with
          | None => None
          | Some (e, s4) =>
              Some (VNum neg (digits_val (ip ++ fp)) (e - Z.of_nat (length fp)), s4)
          end
      end
  end.

Definition parse_number (s : jsstring) : option (value * jsstring) :=
  match s with
  | c :: r => if (c =? cu "-")%N then parse_unsigned true r else parse_unsigned false s
  | [] => None
  end.

(** A keyword [true], [false] or [null]. *)
Definition parse_keyword (kw : jsstring) (v : value) (s : jsstring)
  : option (value * jsstring) :=
  if starts_with kw s then Some (v, skipn (length kw) s) else None.

(** Outcome of the recursive-descent parser: a value and the text after it,
    a syntax error, or recursion budget exhausted (shown below not to
    happen at the budget [JSON_parse] gives). *)
Inductive pres (A : Type) : Type :=
| Parsed (a : A)
| Fail
| OutOfFuel.
Arguments Parsed {A} a.
Arguments Fail {A}.
Arguments OutOfFuel {A}.

Definition of_option {A} (o : option A) : pres A :=
  match o with
  | Some a => Parsed a
  | None => Fail
  end.

(** [parse_value] reads one value at the head of [s] (no leading white
    space); [parse_elements] the elements of an array after [[] and white
    space, [parse_members] the members of an object after [{] and white
    space, both up to and including the closing bracket. *)
Fixpoint parse_value (fuel : nat) (s : jsstring) {struct fuel}
  : pres (value * jsstring) :=
  match fuel with
  | O => OutOfFuel
  | S f =>
      match s with
      | [] => Fail
      | c :: r =>
          if (c =? cu "{")%N then
            match skip_ws r with
            | [] => Fail
            | c1 :: r1 =>
                if (c1 =? cu "}")%N then Parsed (VObj [], r1)
                else parse_members f (c1 :: r1) []
            end
          else if (c =? cu "[")%N then
            match skip_ws r with
            | [] => Fail
            | c1 :: r1 =>
                if (c1 =? cu "]")%N then Parsed (VArr [], r1)
                else parse_elements f (c1 :: r1) []
            end
          else if (c =? dquote)%N then
            match parse_chars r with
            | Some (str, rest) => Parsed (VStr str, rest)
            | None => Fail
            end
          else if (c =? cu "t")%N then of_option (parse_keyword (js "true") (VBool true) s)
          else if (c =? cu "f")%N then of_option (parse_keyword (js "false") (VBool false) s)
          else if (c =? cu "n")%N then of_option (parse_keyword (js "null") VNull s)
          else of_option (parse_number s)
      end
  end
with parse_elements (fuel : nat) (s : jsstring) (acc : list value) {struct fuel}
  : pres (value * jsstring) :=
  match fuel with
  | O => OutOfFuel
  | S f =>
      match parse_value f s with
      | Parsed (v, r) =>
          match skip_ws r with
          | [] => Fail
          | c :: r1 =>
              if (c =? cu ",")%N then parse_elements f (skip_ws r1) (acc ++ [v])
              else if (c =? cu "]")%N then Parsed (VArr (acc ++ [v]), r1)
              else Fail
          end
      | Fail => Fail
      | OutOfFuel => OutOfFuel
      end
  end
with parse_members (fuel : nat) (s : jsstring) (acc : list (jsstring * value))
  {struct fuel} : pres (value * jsstring) :=
  match fuel with
  | O => OutOfFuel
  | S f =>
      match s with
      | [] => Fail
      | c :: r =>
          if (c =? dquote)%N then
            match parse_chars r with
            | None => Fail
            | Some (k, r1) =>
                match skip_ws r1 with
                | [] => Fail
                | c1 :: r2 =>
                    if (c1 =? cu ":")%N then
                      match parse_value f (skip_ws r2) with
                      | Parsed (v, r3) =>
                          match skip_ws r3 with
                          | [] => Fail
                          | c3 :: r4 =>
                              if (c3 =? cu ",")%N
                              then parse_members f (skip_ws r4) (obj_set acc k v)
                              else if (c3 =? cu "}")%N
                              then Parsed (VObj (obj_set acc k v), r4)
                              else Fail
                          end
                      | Fail => Fail
                      | OutOfFuel => OutOfFuel
                      end
                    else Fail
                end
            end
          else Fail
      end
  end.

(** [JSON.parse text]: one value with white space around it and nothing
    else; anything else is a SyntaxError. *)
Definition JSON_parse (text : jsstring) : completion value :=
  match parse_value (2 * length text + 1) (skip_ws text) with
  | Parsed (v, rest) =>
      match skip_ws rest with
      | [] => Ok v
      | _ :: _ => Throw SyntaxError
      end
  | Fail | OutOfFuel => Throw SyntaxError
  end.

End JSON.
Import JSON.

(* ================================================================== *)
(** ** Regular expressions: the backtracking matcher *)

Module Regex.

(** The constructs the program's patterns use.  [Star true r] is the greedy
    [r*], [Star false r] the lazy [r*?]; [Group i r] is the [i]-th capturing
    group; [Eos] is [$] without the multiline flag. *)
Inductive regex : Type :=
| Empty
| Chr (p : code_unit -> bool)
| Seq (r1 r2 : regex)
| Alt (r1 r2 : regex)
| Star (greedy : bool) (r : regex)
| Group (i : nat) (r : regex)
| Eos.

(** Character classes. *)
Definition is_chr (a : code_unit) : code_unit -> bool := fun c => (c =? a)%N.
Definition not_chr (a : code_unit) : code_unit -> bool := fun c => negb (c =? a)%N.
Definition any_chr : code_unit -> bool := fun _ => true.

Definition is_line_terminator (c : code_unit) : bool :=
  ((c =? 10) || (c =? 13) || (c =? 8232) || (c =? 8233))%N.

(** [.] without the dotAll flag *)
Definition dot : code_unit -> bool := fun c => negb (is_line_terminator c).

(** [\s]: WhiteSpace and LineTerminator code points *)
Definition is_space (c : code_unit) : bool :=
  ((c =? 9) || (c =? 10) || (c =? 11) || (c =? 12) || (c =? 13) || (c =? 32)
   || (c =? 160) || (c =? 5760) || ((8192 <=? c) && (c <=? 8202))
   || (c =? 8232) || (c =? 8233) || (c =? 8239) || (c =? 8287)
   || (c =? 12288) || (c =? 65279))%N.

(** A literal text. *)
Fixpoint lit (s : jsstring) : regex :=
  match s with
  | [] => Empty
  | c :: r => Seq (Chr (is_chr c)) (lit r)
  end.

Fixpoint seq (rs : list regex) : regex :=
  match rs with
  | [] => Empty
  | [r] => r
  | r :: rs' => Seq r (seq rs')
  end.

(** Matcher state: the text still to read and the captures made so far
    (most recent first). *)
Record mstate : Type := MState { rest : jsstring; caps : list (nat * jsstring) }.

Definition consumed (before after : jsstring) : jsstring :=
  firstn (length before - length after) before.

(** The iterations of a star, [n] bounding their number: each must read at
    least one code unit (an iteration that reads nothing is rejected), so
    the length of the text left is bound enough.  [step] matches the body
    once. *)
Fixpoint star_loop (step : mstate -> (mstate -> option mstate) -> option mstate)
    (greedy : bool) (k : mstate -> option mstate) (n : nat) (st : mstate)
    {struct n} : option mstate :=
  match n with
  | O => k st
  | S n' =>
      let again (_ : unit) :=
        step st (fun st' =>
          if length (rest st') <? length (rest st)
          then star_loop step greedy k n' st' else None) in
      if greedy then
        match again tt with
        | Some res => Some res
        | None => k st
        end
      else
        match k st with
        | Some res => Some res
        | None => again tt
        end
  end.

(** [m r st k]: match [r] at [st] and go on with [k]; alternatives are tried
    in priority order and the first overall success is the answer. *)
Fixpoint m (r : regex) (st : mstate) (k : mstate -> option mstate) {struct r}
  : option mstate :=
  match r with
  | Empty => k st
  | Chr p =>
      match rest st with
      | c :: t => if p c then k (MState t (caps st)) else None
      | [] => None
      end
  | Seq r1 r2 => m r1 st (fun st1 => m r2 st1 k)
  | Alt r1 r2 =>
      match m r1 st k with
      | Some res => Some res
      | None => m r2 st k
      end
  | Star greedy r1 => star_loop (m r1) greedy k (length (rest st)) st
  | Group i r1 =>
      m r1 st (fun st' =>
        k (MState (rest st') ((i, consumed (rest st) (rest st')) :: caps st')))
  | Eos =>
      match rest st with
      | [] => k st
      | _ :: _ => None
      end
  end.

(** One successful match: the text before it, the matched text, the
    captures and the text after it. *)
Record found : Type :=
  Found { before : jsstring; matched : jsstring;
          groups : list (nat * jsstring); after : jsstring }.

Definition match_here (r : regex) (s : jsstring) : option found :=
  match m r (MState s []) Some with
  | Some st => Some (Found [] (consumed s (rest st)) (caps st) (rest st))
  | None => None
  end.

(** Leftmost match: every start position in turn, the end of the text
    included. *)
Fixpoint search (r : regex) (s : jsstring) : option found :=
  match match_here r s with
  | Some f => Some f
  | None =>
      match s with
      | [] => None
      | c :: t =>
          match search r t with
          | Some f => Some (Found (c :: before f) (matched f) (groups f) (after f))
          | None => None
          end
      end
  end.

Fixpoint group (i : nat) (gs : list (nat * jsstring)) : option jsstring :=
  match gs with
  | [] => None
  | (j, w) :: gs' => if Nat.eqb i j then Some w else group i gs'
  end.

(** [text.match(re)] for a pattern without the [g] flag: the captures of
    the leftmost match, or [null]. *)
Definition str_match (r : regex) (text : jsstring) : option found := search r text.

(** The successive matches of a pattern with the [g] flag; after an empty
    match the search resumes one code unit further. *)
Fixpoint matches_from (fuel : nat) (r : regex) (s : jsstring) : list found :=
  match fuel with
  | O => []
  | S f =>
      match search r s with
      | None => []
      | Some fd =>
          fd ::
          match matched fd, after fd with
          | [], [] => []
          | [], _ :: t => matches_from f r t
          | _ :: _, a => matches_from f r a
          end
      end
  end.

(** [text.match(re)] for a pattern with the [g] flag: the matched texts in
    order, or [null] when there is none. *)
Definition str_match_all (r : regex) (text : jsstring) : option (list jsstring) :=
  match matches_from (S (length text)) r text with
  | [] => None
  | fs => Some (map matched fs)
  end.

(** [text.replace(re, by)] for a pattern with the [g] flag and a
    replacement text without [$]. *)
Fixpoint replace_from (fuel : nat) (r : regex) (by_ : jsstring) (s : jsstring)
  : jsstring :=
  match fuel with
  | O => s
  | S f =>
      match search r s with
      | None => s
      | Some fd =>
          before fd ++ by_ ++
          match matched fd, after fd with
          | [], [] => []
          | [], c :: t => c :: replace_from f r by_ t
          | _ :: _, a => replace_from f r by_ a
          end
      end
  end.

Definition str_replace_all (r : regex) (by_ : jsstring) (text : jsstring) : jsstring :=
  replace_from (S (length text)) r by_ text.

End Regex.
Import Regex.

(* ================================================================== *)
(** ** The recoverer *)

(** The patterns of [tryParsePartialJSON], in source order.  In these
    comments, as in [jsq], an apostrophe stands for the double quote, and
    a star is kept apart from a closing parenthesis that follows it. *)

(** ['key'\s*:\s*'([^']*(?:\\.[^']* )* )'], the pattern of the [summary],
    [headline] and [description] fields *)
Definition re_escaped_field (key : jsstring) : regex :=
  seq [lit (quoted key); Star true (Chr is_space); Chr (is_chr (cu ":"));
       Star true (Chr is_space); Chr (is_chr dquote);
       Group 1 (Seq (Star true (Chr (not_chr dquote)))
                    (Star true (seq [Chr (is_chr backslash); Chr dot;
                                     Star true (Chr (not_chr dquote))])));
       Chr (is_chr dquote)].

(** ['key'\s*:\s*'([^']* )'], the pattern of [category] and [significance] *)
Definition re_plain_field (key : jsstring) : regex :=
  seq [lit (quoted key); Star true (Chr is_space); Chr (is_chr (cu ":"));
       Star true (Chr is_space); Chr (is_chr dquote);
       Group 1 (Star true (Chr (not_chr dquote)));
       Chr (is_chr dquote)].

(** ['key'\s*:\s*\[([\s\S]*?)(?:\]|$)], the pattern of the [events] and
    [barTalk] arrays *)
Definition re_array (key : jsstring) : regex :=
  seq [lit (quoted key); Star true (Chr is_space); Chr (is_chr (cu ":"));
       Star true (Chr is_space); Chr (is_chr (cu "["));
       Group 1 (Star false (Chr any_chr));
       Alt (Chr (is_chr (cu "]"))) Eos].

Definition re_summary : regex := re_escaped_field (js "summary").
Definition re_events : regex := re_array (js "events").
(** [\{[^}]*'headline'[^}]*\}], with the [g] flag *)
Definition re_event_object : regex :=
  seq [Chr (is_chr (cu "{")); Star true (Chr (not_chr (cu "}")));
       lit (quoted (js "headline")); Star true (Chr (not_chr (cu "}")));
       Chr (is_chr (cu "}"))].
Definition re_category : regex := re_plain_field (js "category").
Definition re_headline : regex := re_escaped_field (js "headline").
Definition re_description : regex := re_escaped_field (js "description").
Definition re_significance : regex := re_plain_field (js "significance").
Definition re_barTalk : regex := re_array (js "barTalk").
(** ['([^']*(?:\\.[^']* )* )'], with the [g] flag *)
Definition re_quoted_string : regex :=
  seq [Chr (is_chr dquote);
       Group 1 (Seq (Star true (Chr (not_chr dquote)))
                    (Star true (seq [Chr (is_chr backslash); Chr dot;
                                     Star true (Chr (not_chr dquote))])));
       Chr (is_chr dquote)].
(** [\\'], with the [g] flag *)
Definition re_escaped_quote : regex := lit [backslash; dquote].

(** [s.replace(/\\'/g, dquote)] *)
Definition unescape_quotes (s : jsstring) : jsstring :=
  str_replace_all re_escaped_quote [dquote] s.

Definition Loading : jsstring := js "Loading...".

(** [m[1]] of a match array, as a value. *)
Definition group_value (fd : found) (i : nat) : value :=
  match group i (groups fd) with
  | Some w => VStr w
  | None => VUndef
  end.

(** [v.replace(/\\'/g, dquote)]: a method call on [undefined] throws. *)
Definition replace_quotes (v : value) : completion value :=
  match v with
  | VStr w => Ok (VStr (unescape_quotes w))
  | _ => Throw TypeError
  end.

(** The [catch] branch of the callback given to [eventMatches.map]:
    the four fields read one by one, with their defaults. *)
Definition extract_fields (eventStr : jsstring) : completion value :=
  let categoryMatch := str_match re_category eventStr in
  let headlineMatch := str_match re_headline eventStr in
  let descriptionMatch := str_match re_description eventStr in
  let significanceMatch := str_match re_significance eventStr in
  let category :=
    or_else (match categoryMatch with Some fd => group_value fd 1 | None => VUndef end)
            (VStr (js "Other")) in
  h <- match headlineMatch with
       | Some fd => replace_quotes (group_value fd 1)
       | None => Ok VUndef
       end ;;
  let headline := or_else h (VStr Loading) in
  d <- match descriptionMatch with
       | Some fd => replace_quotes (group_value fd 1)
       | None => Ok VUndef
       end ;;
  let description := or_else d (VStr Loading) in
  let significance :=
    or_else (match significanceMatch with Some fd => group_value fd 1 | None => VUndef end)
            (VStr (js "Medium")) in
  Ok (VObj [(js "category", category); (js "headline", headline);
            (js "description", description); (js "significance", significance)]).

(** The callback given to [eventMatches.map]. *)
Definition event_of_span (eventStr : jsstring) : completion value :=
  try_catch (JSON_parse eventStr) (fun _ => extract_fields eventStr).

(** The callback given to [filter]: [event.headline !== 'Loading...']. *)
Definition has_real_headline (event : value) : completion bool :=
  h <- get_prop event (js "headline") ;;
  Ok (strict_neq_str h Loading).

(** [m[1]] of a match array where a string is needed. *)
Definition group_string (fd : found) (i : nat) : completion jsstring :=
  match group_value fd i with
  | VStr w => Ok w
  | _ => Throw TypeError
  end.

(** The three steps of the inner [try] block, in source order: the
    summary, the events array, the barTalk array. *)
Definition extract_summary (text : jsstring) : completion value :=
  let summaryMatch := str_match re_summary text in
  match summaryMatch with
  | Some fd => replace_quotes (group_value fd 1)
  | None => Ok VUndef
  end.

Definition extract_events (text : jsstring) : completion (list value) :=
  let eventsMatch := str_match re_events text in
  match eventsMatch with
  | Some fd =>
      eventsStr <- group_string fd 1 ;;
      let eventMatches :=
        match str_match_all re_event_object eventsStr with
        | Some l => l
        | None => []
        end in
      mapped <- mapM event_of_span eventMatches ;;
      filterM has_real_headline mapped
  | None => Ok []
  end.

Definition extract_barTalk (text : jsstring) : completion (list jsstring) :=
  let barTalkMatch := str_match re_barTalk text in
  match barTalkMatch with
  | Some fd =>
      barTalkStr <- group_string fd 1 ;;
      let talkMatches :=
        match str_match_all re_quoted_string barTalkStr with
        | Some l => l
        | None => []
        end in
      Ok (map (fun mt => unescape_quotes (slice mt 1 (-1))) talkMatches)
  | None => Ok []
  end.

(** The object literal [{ summary, events, barTalk }]. *)
Definition response (summary : value) (events : list value) (barTalk : list jsstring)
  : value :=
  VObj [(js "summary", summary); (js "events", VArr events);
        (js "barTalk", VArr (map VStr barTalk))].

(** The inner [try] block: the structural salvage. *)
Definition salvage (text : jsstring) : completion value :=
  summary <- extract_summary text ;;
  events <- extract_events text ;;
  barTalk <- extract_barTalk text ;;
  Ok (response summary events barTalk).

Definition tryParsePartialJSON (text : jsstring) : completion value :=
  try_catch (JSON_parse text)
    (fun _ => try_catch (salvage text) (fun _ => Ok VNull)).

(* ================================================================== *)
(** ** The caller: [handleSportsSearch] *)

Module Handler.

(** The four [useState] cells of the component. *)
Record ui_state : Type :=
  UI { sportsNews : value; partialData : value; loading : bool; error : value }.

Definition setSportsNews (v : value) (st : ui_state) : ui_state :=
  UI v (partialData st) (loading st) (error st).
Definition setPartialData (v : value) (st : ui_state) : ui_state :=
  UI (sportsNews st) v (loading st) (error st).
Definition setLoading (b : bool) (st : ui_state) : ui_state :=
  UI (sportsNews st) (partialData st) b (error st).
Definition setError (v : value) (st : ui_state) : ui_state :=
  UI (sportsNews st) (partialData st) (loading st) v.

(** What the text stream delivers: its chunks, then either its end or a
    transport failure carrying an [Error]. *)
Record stream : Type := Stream { chunks : list jsstring; failure : option jsstring }.

Definition failed_to_parse : jsstring :=
  js "Failed to parse complete structured response".

(** The message of a caught exception.  The text of the engine's own
    SyntaxError and TypeError objects is not modelled: none reaches the
    handler, [tryParsePartialJSON] throws nothing. *)
Definition message_of (e : exn) : jsstring :=
  match e with
  | Error msg => msg
  | SyntaxError | TypeError => []
  end.

(** The [for await] loop: the accumulated text and the state after each
    chunk. *)
Fixpoint consume (cs : list jsstring) (accumulatedText : jsstring) (st : ui_state)
  : completion jsstring * ui_state :=
  match cs with
  | [] => (Ok accumulatedText, st)
  | chunk :: cs' =>
      let accumulatedText := accumulatedText ++ chunk in
      match tryParsePartialJSON accumulatedText with
      | Ok partialParsed =>
          consume cs' accumulatedText
            (if truthy partialParsed then setPartialData partialParsed st else st)
      | Throw e => (Throw e, st)
      end
  end.

(** [finalParsed && finalParsed.summary && finalParsed.events &&
    finalParsed.barTalk], as a condition. *)
Definition is_complete (finalParsed : value) : completion bool :=
  if truthy finalParsed then
    summary <- get_prop finalParsed (js "summary") ;;
    if truthy summary then
      events <- get_prop finalParsed (js "events") ;;
      if truthy events then
        barTalk <- get_prop finalParsed (js "barTalk") ;;
        Ok (truthy barTalk)
      else Ok false
    else Ok false
  else Ok false.

(** The final parsing attempt, after the loop. *)
Definition finish (accumulatedText : jsstring) (st : ui_state)
  : completion unit * ui_state :=
  match tryParsePartialJSON accumulatedText with
  | Throw e => (Throw e, st)
  | Ok finalParsed =>
      match is_complete finalParsed with
      | Throw e => (Throw e, st)
      | Ok true => (Ok tt, setPartialData VNull (setSportsNews finalParsed st))
      | Ok false => (Throw (Error failed_to_parse), st)
      end
  end.

(** The body of the [try] block, from the stream on. *)
Definition try_body (str : stream) (st : ui_state) : completion unit * ui_state :=
  match consume (chunks str) [] st with
  | (Throw e, st1) => (Throw e, st1)
  | (Ok accumulatedText, st1) =>
      match failure str with
      | Some msg => (Throw (Error msg), st1)
      | None => finish accumulatedText st1
      end
  end.

(** The [catch] block. *)
Definition on_error (e : exn) (st : ui_state) : ui_state :=
  if includes (message_of e) (js "Web search failed")
  then setError (VStr (js "Web search error: " ++ message_of e)) st
  else setError (VStr (js "Error fetching sports news: " ++ message_of e)) st.

Definition handleSportsSearch (str : stream) (st : ui_state) : ui_state :=
  let st := setPartialData VNull (setSportsNews VNull (setError VNull (setLoading true st))) in
  let st :=
    match try_body str st with
    | (Ok _, st1) => st1
    | (Throw e, st1) => on_error e st1
    end in
  setLoading false st.

End Handler.
Import Handler.

(* ================================================================== *)
(** ** The component before streaming: [handleSportsSearch] over
       [generateText] *)

Module Batch.

(** The three [useState] cells of the component. *)
Record ui_state : Type :=
  UI { sportsNews : value; loading : bool; error : value }.

Definition setSportsNews (v : value) (st : ui_state) : ui_state :=
  UI v (loading st) (error st).
Definition setLoading (b : bool) (st : ui_state) : ui_state :=
  UI (sportsNews st) b (error st).
Definition setError (v : value) (st : ui_state) : ui_state :=
  UI (sportsNews st) (loading st) v.

(** What [generateText] settles to: the text of the answer, or a failure
    carrying an [Error]. *)
Inductive generated : Type :=
| Text (text : jsstring)
| Rejected (message : jsstring).

(** [/\{[\s\S]*\}/] *)
Definition re_braces : regex :=
  seq [Chr (is_chr (cu "{")); Star true (Chr any_chr); Chr (is_chr (cu "}"))].

Definition failed_to_parse : jsstring := js "Failed to parse structured response".

Section Engine.

(** The message of the SyntaxError that [JSON.parse] throws on a text is
    the engine's own. *)
Variable syntax_message : jsstring -> jsstring.

(** [JSON.parse] with the message of its exception. *)
Definition parse (text : jsstring) : completion value :=
  try_catch (JSON_parse text) (fun _ => Throw (Error (syntax_message text))).

(** The inner [try] and its [catch]. *)
Definition parse_response (text : jsstring) (st : ui_state)
  : completion unit * ui_state :=
  match parse text with
  | Ok parsedData => (Ok tt, setSportsNews parsedData st)
  | Throw _ =>
      let jsonMatch := str_match re_braces text in
      match jsonMatch with
      | Some fd =>
          match parse (matched fd) with
          | Ok parsedData => (Ok tt, setSportsNews parsedData st)
          | Throw e => (Throw e, st)
          end
      | None => (Throw (Error failed_to_parse), st)
      end
  end.

(** The body of the outer [try] block, from the answer on. *)
Definition try_body (g : generated) (st : ui_state) : completion unit * ui_state :=
  match g with
  | Rejected msg => (Throw (Error msg), st)
  | Text text => parse_response text st
  end.

(** The outer [catch] block. *)
Definition on_error (e : exn) (st : ui_state) : ui_state :=
  if includes (message_of e) (js "Web search failed")
  then setError (VStr (js "Web search error: " ++ message_of e)) st
  else setError (VStr (js "Error fetching sports news: " ++ message_of e)) st.

Definition handleSportsSearch (g : generated) (st : ui_state) : ui_state :=
  let st := setSportsNews VNull (setError VNull (setLoading true st)) in
  let st :=
    match try_body g st with
    | (Ok _, st1) => st1
    | (Throw e, st1) => on_error e st1
    end in
  setLoading false st.

End Engine.

End Batch.

(* ================================================================== *)
(** ** The order of the event cards *)

Module Display.

(** [significanceOrder[k]] for a string [k], as an operand of the
    subtraction: 3, 2 or 1, and NaN, written [None], for every other
    name, which is undefined or inherited from [Object.prototype] and
    in neither case a number. *)
Definition significanceOrder (k : jsstring) : option Z :=
  if Str.eqb k (js "High") then Some 3%Z
  else if Str.eqb k (js "Medium") then Some 2%Z
  else if Str.eqb k (js "Low") then Some 1%Z
  else None.

(** The conversion of a decoded value to a property key throws for an
    object with a [toString] property of its own, which is no function,
    and for an array that holds such an object. *)
Fixpoint key_throws (v : value) : bool :=
  match v with
  | VObj props =>
      match lookup (js "toString") props with
      | Some _ => true
      | None => false
      end
  | VArr elems => existsb key_throws elems
  | _ => false
  end.

(** The entry of the table for the key of a value: a string is its own
    key, an array of one element has the key of that element, and the key
    of every other value is outside the table. *)
Fixpoint entry (v : value) : option Z :=
  match v with
  | VStr k => significanceOrder k
  | VArr [x] => entry x
  | _ => None
  end.

(** [significanceOrder[v]] *)
Definition significanceOrder_at (v : value) : completion (option Z) :=
  if key_throws v then Throw TypeError else Ok (entry v).

(** Subtraction of numbers, NaN included. *)
Definition minus (x y : option Z) : option Z :=
  match x, y with
  | Some a, Some b => Some (a - b)%Z
  | _, _ => None
  end.

(** The comparator given to [sort]. *)
Definition by_significance (a b : value) : completion (option Z) :=
  sb <- get_prop b (js "significance") ;;
  rb <- significanceOrder_at sb ;;
  sa <- get_prop a (js "significance") ;;
  ra <- significanceOrder_at sa ;;
  Ok (minus rb ra).

Section Sort.

Variable comparefn : value -> value -> completion (option Z).

(** The comparison [Array.prototype.sort] makes of two elements: the
    comparator's answer, NaN counting as zero. *)
Definition sort_compare (x y : value) : completion Z :=
  v <- comparefn x y ;;
  Ok match v with
     | Some z => z
     | None => 0%Z
     end.

Fixpoint insert (x : value) (sorted : list value) : completion (list value) :=
  match sorted with
  | [] => Ok [x]
  | y :: rest =>
      c <- sort_compare x y ;;
      if (c <=? 0)%Z then Ok (x :: sorted)
      else (r <- insert x rest ;; Ok (y :: r))
  end.

(** [Array.prototype.sort] with a comparator.  For a comparator that
    orders the elements consistently the standard fixes the result: the
    sorted rearrangement that keeps equal elements in their order; it is
    computed here by insertion.  For any other comparator the order is
    the engine's own. *)
Fixpoint sort (elems : list value) : completion (list value) :=
  match elems with
  | [] => Ok []
  | x :: rest => sorted <- sort rest ;; insert x sorted
  end.

End Sort.

(** The cards, in the order of the grid. *)
Definition sort_events (events : list value) : completion (list value) :=
  sort by_significance events.

End Display.

(* ================================================================== *)
(** ** Vocabulary of the properties *)

Definition is_object (v : value) : Prop := exists props, v = VObj props.

Definition is_number (v : value) : Prop := exists n m e, v = VNum n m e.

(** [path r a b]: reading [r] can lead from state [a] to state [b]. *)
Inductive path : regex -> mstate -> mstate -> Prop :=
| path_empty st : path Empty st st
| path_chr p c t cs : p c = true -> path (Chr p) (MState (c :: t) cs) (MState t cs)
| path_seq r1 r2 a b c : path r1 a b -> path r2 b c -> path (Seq r1 r2) a c
| path_alt_l r1 r2 a b : path r1 a b -> path (Alt r1 r2) a b
| path_alt_r r1 r2 a b : path r2 a b -> path (Alt r1 r2) a b
| path_star_stop g r a : path (Star g r) a a
| path_star_more g r a b c :
    path r a b -> length (rest b) < length (rest a) ->
    path (Star g r) b c -> path (Star g r) a c
| path_group i r a b :
    path r a b ->
    path (Group i r) a (MState (rest b) ((i, consumed (rest a) (rest b)) :: caps b))
| path_eos cs : path Eos (MState [] cs) (MState [] cs).

(** [captures i r]: every path through [r] sets group [i]. *)
Fixpoint captures (i : nat) (r : regex) : bool :=
  match r with
  | Group j r' => Nat.eqb i j || captures i r'
  | Seq r1 r2 => captures i r1 || captures i r2
  | Alt r1 r2 => captures i r1 && captures i r2
  | _ => false
  end.

Definition spaces (ws : jsstring) : Prop := Forall (fun c => is_space c = true) ws.

(** The common frame of the field patterns: the quoted key, white space, a
    colon, white space, and a group between double quotes. *)
Definition field_re (key : jsstring) (body : regex) : regex :=
  seq [lit (quoted key); Star true (Chr is_space); Chr (is_chr (cu ":"));
       Star true (Chr is_space); Chr (is_chr dquote);
       Group 1 body; Chr (is_chr dquote)].


(** [has_event_span text]: somewhere in the text an opening brace, the
    quoted word headline and a closing brace follow one another, with no
    other closing brace in between. *)
Definition has_event_span (text : jsstring) : Prop :=
  exists pre x y post,
    text = pre ++ cu "{" :: x ++ quoted (js "headline") ++ y ++ cu "}" :: post /\
    Forall (fun c => c <> cu "}") x /\ Forall (fun c => c <> cu "}") y.

(** A field is present when reading it gives something other than
    [undefined] and [null]. *)
Definition present (v : value) : Prop := v <> VUndef /\ v <> VNull.

Definition field_present (R : value) (k : jsstring) : Prop :=
  exists v, get_prop R k = Ok v /\ present v.

Definition all_present (R : value) : Prop :=
  field_present R (js "summary") /\ field_present R (js "events") /\
  field_present R (js "barTalk").

(** What the handler shows when the final attempt fails. *)
Definition error_shown : value :=
  VStr (js "Error fetching sports news: Failed to parse complete structured response").

(** The record built field by field. *)
Definition event_record (c h d g : jsstring) : value :=
  VObj [(js "category", VStr c); (js "headline", VStr h);
        (js "description", VStr d); (js "significance", VStr g)].

(** No event of the result carries the placeholder headline. *)
Definition no_placeholder_events (R : value) : Prop :=
  forall events e,
    get_prop R (js "events") = Ok (VArr events) -> In e events ->
    get_prop e (js "headline") <> Ok (VStr Loading).

(** Texts used as examples. *)
Module Scenarios.

(** A complete response. *)
Definition complete : jsstring :=
  jsq "{'summary': 'NFL week wraps up', 'events': [{'headline':'Team A wins','category':'NFL','description':'desc','significance':'High'}], 'barTalk': ['Wow']}".

Definition complete_document : value :=
  VObj [(js "summary", VStr (js "NFL week wraps up"));
        (js "events",
         VArr [VObj [(js "headline", VStr (js "Team A wins"));
                     (js "category", VStr (js "NFL"));
                     (js "description", VStr (js "desc"));
                     (js "significance", VStr (js "High"))]]);
        (js "barTalk", VArr [VStr (js "Wow")])].

(** The same text cut in the middle of its first event. *)
Definition truncated : jsstring :=
  jsq "{'summary': 'NFL week wraps up', 'events': [{'headline':'Team A wins','category':'NFL'".

(** The complete document arriving in two chunks. *)
Definition complete_in_two : list jsstring :=
  [truncated;
   jsq ",'description':'desc','significance':'High'}], 'barTalk': ['Wow']}"].

(** A complete document one of whose headlines is the placeholder text. *)
Definition placeholder_headline : jsstring :=
  jsq "{'summary': 'x', 'events': [{'headline':'Loading...','category':'NFL','description':'d','significance':'Low'}], 'barTalk': []}".

(** A cut text with a placeholder headline and a real one. *)
Definition placeholder_cut : jsstring :=
  jsq "{'summary': 'x', 'events': [{'headline':'Loading...'}, {'headline':'A'}".

(** A complete document without the barTalk key. *)
Definition no_barTalk : jsstring := jsq "{'summary': 'x', 'events': []}".


(** A buffer cut inside its first event, after a description that holds
    a pair of braces. *)
Definition cut_after_inner_braces : jsstring :=
  jsq "{'summary': 's', 'events': [{'headline': 'A', 'description': 'see {x} here".

End Scenarios.

Module Escapes.

(** A complete document whose summary has a line feed in it, written as
    JSON writes it, and the text cut after the summary field. *)
Definition document : jsstring := jsq "{'summary':'a\nb','events':[],'barTalk':[]}".
Definition cut : jsstring := jsq "{'summary':'a\nb','events':[".
Definition summary_decoded : jsstring := [97; 10; 98]%N.
Definition summary_written : jsstring := js "a\nb".

(** A cut text whose bar talk has a quotation in it, and the same text
    completed. *)
Definition talk_cut : jsstring := jsq "{'barTalk': ['say \'hi\''".
Definition talk_complete : jsstring := jsq "{'barTalk': ['say \'hi\'']}".
Definition talk_decoded : jsstring := jsq "say 'hi'".

End Escapes.

(** [first_at l pre]: the text [l], put after [pre], is its first
    occurrence there: none begins inside [pre]. *)
Definition first_at (l pre : jsstring) : Prop :=
  forall i, i < length pre -> starts_with l (skipn i (pre ++ l)) = false.

(** The text up to and including the opening bracket of an array field. *)
Definition array_head (key pre ws1 ws2 : jsstring) : jsstring :=
  pre ++ quoted key ++ ws1 ++ cu ":" :: ws2 ++ [cu "["].

(** The closing of the window: a closing bracket, or the end of the
    text. *)
Inductive window_end : jsstring -> jsstring -> Prop :=
| window_cut : window_end [] []
| window_closed post : window_end (cu "]" :: post) post.

(** [has_significance k event]: the event is an object whose
    significance is the string [k]. *)
Definition has_significance (k : jsstring) (event : value) : bool :=
  match get_prop event (js "significance") with
  | Ok (VStr s) => Str.eqb s k
  | _ => false
  end.

(** An event with one of the three significances of the table. *)
Definition graded (event : value) : Prop :=
  has_significance (js "High") event = true \/
  has_significance (js "Medium") event = true \/
  has_significance (js "Low") event = true.

(** The rank of a graded event in the table. *)
Definition grade (event : value) : Z :=
  if has_significance (js "High") event then 3%Z
  else if has_significance (js "Medium") event then 2%Z
  else 1%Z.

(** [flat_events body vs]: the text [body] is a run of objects without
    inner closing brace, each naming a headline and decoding to the next
    value of [vs], with no opening brace between them, and after the last
    one a rest without closing brace. *)
Inductive flat_events : jsstring -> list value -> Prop :=
| flat_rest tail : ~ In (cu "}") tail -> flat_events tail []
| flat_event gap x rest v vs :
    ~ In (cu "{") gap -> ~ In (cu "}") x ->
    includes x (quoted (js "headline")) = true ->
    JSON_parse (cu "{" :: x ++ [cu "}"]) = Ok v ->
    flat_events rest vs ->
    flat_events (gap ++ cu "{" :: x ++ cu "}" :: rest) (v :: vs).

(** [plain_lines body ls]: the text [body] is a run of quoted texts, the
    lines [ls], with no double quote inside or between them, and after
    the last one a rest with at most one double quote. *)
Inductive plain_lines : jsstring -> list jsstring -> Prop :=
| lines_rest tail : ~ In dquote tail -> plain_lines tail []
| lines_open gap tail :
    ~ In dquote gap -> ~ In dquote tail -> plain_lines (gap ++ dquote :: tail) []
| lines_line gap v rest ls :
    ~ In dquote gap -> ~ In dquote v -> plain_lines rest ls ->
    plain_lines (gap ++ quoted v ++ rest) (v :: ls).

(** [closes depth s]: read with [depth] braces open, the text [s] closes
    the last of them with its last character and not before. *)
Fixpoint closes (depth : nat) (s : jsstring) : bool :=
  match s with
  | [] => false
  | c :: t =>
      if (c =? cu "{")%N then closes (S depth) t
      else if (c =? cu "}")%N then
        match depth with
        | 0 => false
        | 1 => match t with [] => true | _ :: _ => false end
        | S d => closes d t
        end
      else closes depth t
  end.

(** A balanced span: from an opening brace to the closing brace that
    matches it, counting braces. *)
Definition balanced (span : jsstring) : bool :=
  match span with
  | c :: t => (c =? cu "{")%N && closes 1 t
  | [] => false
  end.

(** The parts of a text: what stands between two of its positions. *)
Definition parts (text : jsstring) : list jsstring :=
  flat_map (fun i => map (fun n => firstn n (skipn i text)) (List.seq 0 (S (length text))))
           (List.seq 0 (S (length text))).

(* ================================================================== *)
(** * Properties *)

Arguments parse_number : simpl never.
Arguments parse_keyword : simpl never.

(** ** Strings *)

Lemma str_eqb_spec (a b : jsstring) : Str.eqb a b = true <-> a = b.
Proof.
  revert b; induction a as [|x a IH]; intros [|y b]; simpl; split; try easy.
  - rewrite andb_true_iff, N.eqb_eq, IH. now intros [-> ->].
  - intros [= -> ->]. rewrite N.eqb_refl. simpl. now apply IH.
Qed.

Lemma str_eqb_refl (a : jsstring) : Str.eqb a a = true.
Proof. now apply str_eqb_spec. Qed.

Lemma starts_with_app (p t : jsstring) : starts_with p (p ++ t) = true.
Proof. induction p as [|x p IH]; simpl; [easy|]. now rewrite N.eqb_refl. Qed.

Lemma starts_with_split (p s : jsstring) :
  starts_with p s = true -> s = p ++ skipn (length p) s.
Proof.
  revert s; induction p as [|x p IH]; intros [|y s]; simpl; try easy.
  rewrite andb_true_iff, N.eqb_eq. intros [-> H]. f_equal. now apply IH.
Qed.

(* ------------------------------------------------------------------ *)
(** ** The JSON parser: budget and shape of results *)

Section ParserFacts.

Lemma skip_ws_length (s : jsstring) : length (skip_ws s) <= length s.
Proof.
  induction s as [|c s IH]; simpl; [lia|].
  destruct (is_ws c); simpl; lia.
Qed.

Lemma parse_chars_shorter (s str r : jsstring) :
  parse_chars s = Some (str, r) -> length r < length s.
Proof.
  remember (length s) as n eqn:Hn.
  revert s str r Hn.
  induction n as [n IH] using lt_wf_ind.
  intros [|c s] str r Hn; simpl; [discriminate|].
  destruct (c =? _)%N.
  { intros [= <- <-]. simpl in Hn. lia. }
  destruct (c =? _)%N.
  - destruct s as [|e s1]; [discriminate|].
    destruct (simple_escape e).
    + destruct (parse_chars s1) as [[str' r']|] eqn:E; [|discriminate].
      intros [= <- <-]. simpl in Hn.
      specialize (IH (length s1) ltac:(lia) s1 str' r' eq_refl E). lia.
    + destruct (e =? _)%N; [|discriminate].
      destruct s1 as [|h1 [|h2 [|h3 [|h4 s2]]]]; try discriminate.
      destruct (hex_val h1), (hex_val h2), (hex_val h3), (hex_val h4); try discriminate.
      destruct (parse_chars s2) as [[str' r']|] eqn:E; [|discriminate].
      intros [= <- <-]. simpl in Hn.
      specialize (IH (length s2) ltac:(lia) s2 str' r' eq_refl E). lia.
  - destruct (c <? 32)%N; [discriminate|].
    destruct (parse_chars s) as [[str' r']|] eqn:E; [|discriminate].
    intros [= <- <-]. simpl in Hn.
    specialize (IH (length s) ltac:(lia) s str' r' eq_refl E). lia.
Qed.

Lemma take_digits_length (s : jsstring) :
  length (snd (take_digits s)) <= length s.
Proof.
  induction s as [|c s IH]; simpl; [lia|].
  destruct (is_digit c); simpl; [|lia].
  destruct (take_digits s); simpl in *. lia.
Qed.

Lemma parse_int_part_shorter (s ip r : jsstring) :
  parse_int_part s = Some (ip, r) -> length r < length s.
Proof.
  destruct s as [|c s]; simpl; [discriminate|].
  destruct (c =? _)%N; [intros [= <- <-]; lia|].
  destruct (is_digit c); [|discriminate].
  pose proof (take_digits_length s) as H.
  destruct (take_digits s); simpl in *. intros [= <- <-]. lia.
Qed.

Lemma parse_frac_part_length (s fp r : jsstring) :
  parse_frac_part s = Some (fp, r) -> length r <= length s.
Proof.
  destruct s as [|c s]; simpl; [intros [= <- <-]; simpl; lia|].
  destruct (c =? _)%N; [|intros [= <- <-]; simpl; lia].
  pose proof (take_digits_length s) as H.
  destruct (take_digits s) as [[|d ds] r']; simpl in *; [discriminate|].
  intros [= <- <-]. lia.
Qed.

Lemma exp_digits_length (sg : bool) (s r : jsstring) (e : Z) :
  exp_digits sg s = Some (e, r) -> length r <= length s.
Proof.
  unfold exp_digits. pose proof (take_digits_length s) as H.
  destruct (take_digits s) as [[|d ds] r']; simpl in *; [discriminate|].
  intros [= <- <-]. lia.
Qed.

Lemma parse_exp_part_length (s r : jsstring) (e : Z) :
  parse_exp_part s = Some (e, r) -> length r <= length s.
Proof.
  destruct s as [|c s]; simpl; [intros [= <- <-]; simpl; lia|].
  destruct (_ || _)%bool; [|intros [= <- <-]; simpl; lia].
  destruct s as [|c1 s']; [discriminate|].
  destruct (c1 =? _)%N; [intros H; apply exp_digits_length in H; simpl; lia|].
  destruct (c1 =? _)%N; intros H; apply exp_digits_length in H; simpl in *; lia.
Qed.

Lemma parse_unsigned_shorter (neg : bool) (s r : jsstring) (v : value) :
  parse_unsigned neg s = Some (v, r) -> length r < length s.
Proof.
  unfold parse_unsigned.
  destruct (parse_int_part s) as [[ip s2]|] eqn:E1; [|discriminate].
  destruct (parse_frac_part s2) as [[fp s3]|] eqn:E2; [|discriminate].
  destruct (parse_exp_part s3) as [[e s4]|] eqn:E3; [|discriminate].
  intros [= <- <-].
  apply parse_int_part_shorter in E1. apply parse_frac_part_length in E2.
  apply parse_exp_part_length in E3. lia.
Qed.

Lemma parse_number_shorter (s r : jsstring) (v : value) :
  parse_number s = Some (v, r) -> length r < length s.
Proof.
  unfold parse_number. destruct s as [|c s']; [discriminate|].
  destruct (c =? _)%N; intros H; apply parse_unsigned_shorter in H; simpl in *; lia.
Qed.

Lemma parse_keyword_shorter (kw s r : jsstring) (v v' : value) :
  kw <> [] -> parse_keyword kw v s = Some (v', r) -> length r < length s.
Proof.
  unfold parse_keyword. intros Hkw.
  destruct (starts_with kw s) eqn:E; [|discriminate].
  intros [= <- <-]. apply starts_with_split in E.
  rewrite E at 2. rewrite length_app.
  destruct kw; [easy|simpl; lia].
Qed.

(** With a budget of twice the length of the text and one, the parser never
    runs out, and what it reads is not empty. *)
Lemma parser_budget (f : nat) :
  (forall s, 2 * length s + 1 <= f ->
     parse_value f s <> OutOfFuel /\
     forall v r, parse_value f s = Parsed (v, r) -> length r < length s) /\
  (forall s acc, 2 * length s + 2 <= f ->
     parse_elements f s acc <> OutOfFuel /\
     forall v r, parse_elements f s acc = Parsed (v, r) -> length r < length s) /\
  (forall s acc, 2 * length s + 2 <= f ->
     parse_members f s acc <> OutOfFuel /\
     forall v r, parse_members f s acc = Parsed (v, r) -> length r < length s).
Proof.
  induction f as [|f (IHv & IHe & IHm)].
  { repeat split; intros; lia. }
  split; [|split].
  - intros [|c s] Hf; simpl; [split; [discriminate|discriminate]|].
    simpl in Hf.
    destruct (c =? _)%N.
    { pose proof (skip_ws_length s) as Hw.
      destruct (skip_ws s) as [|c1 r1]; [split; discriminate|].
      destruct (c1 =? _)%N.
      - split; [discriminate|]. intros v r [= <- <-]. simpl in Hw. lia.
      - destruct (IHm (c1 :: r1) [] ltac:(simpl in *; lia)) as [H1 H2].
        split; [exact H1|]. intros v r E. apply H2 in E. simpl in *. lia. }
    destruct (c =? _)%N.
    { pose proof (skip_ws_length s) as Hw.
      destruct (skip_ws s) as [|c1 r1]; [split; discriminate|].
      destruct (c1 =? _)%N.
      - split; [discriminate|]. intros v r [= <- <-]. simpl in Hw. lia.
      - destruct (IHe (c1 :: r1) [] ltac:(simpl in *; lia)) as [H1 H2].
        split; [exact H1|]. intros v r E. apply H2 in E. simpl in *. lia. }
    destruct (c =? _)%N.
    { destruct (parse_chars s) as [[str rest]|] eqn:E; [|split; discriminate].
      split; [discriminate|]. intros v r [= <- <-].
      apply parse_chars_shorter in E. lia. }
    assert (Hkw : forall kw v0, kw <> [] ->
              of_option (parse_keyword kw v0 (c :: s)) <> OutOfFuel /\
              forall v r, of_option (parse_keyword kw v0 (c :: s)) = Parsed (v, r) ->
                          length r < length (c :: s)).
    { intros kw v0 Hkw.
      destruct (parse_keyword kw v0 (c :: s)) as [[v1 r1]|] eqn:E; simpl;
        [|split; discriminate].
      split; [discriminate|]. intros v r [= <- <-].
      now apply parse_keyword_shorter in E. }
    destruct (c =? _)%N; [apply Hkw; discriminate|].
    destruct (c =? _)%N; [apply Hkw; discriminate|].
    destruct (c =? _)%N; [apply Hkw; discriminate|].
    destruct (parse_number (c :: s)) as [[v1 r1]|] eqn:E; simpl; [|split; discriminate].
    split; [discriminate|]. intros v r [= <- <-].
    now apply parse_number_shorter in E.
  - intros s acc Hf. simpl.
    destruct (IHv s ltac:(lia)) as [H1 H2].
    destruct (parse_value f s) as [[v r]| |] eqn:E; [|split; discriminate|easy].
    specialize (H2 v r eq_refl).
    pose proof (skip_ws_length r) as Hw.
    destruct (skip_ws r) as [|c r1]; [split; discriminate|].
    destruct (c =? _)%N.
    { pose proof (skip_ws_length r1) as Hw1.
      destruct (IHe (skip_ws r1) (acc ++ [v]) ltac:(simpl in *; lia)) as [H3 H4].
      split; [exact H3|]. intros v' r' E'. apply H4 in E'. simpl in *. lia. }
    destruct (c =? _)%N; [|split; discriminate].
    split; [discriminate|]. intros v' r' [= <- <-]. simpl in *. lia.
  - intros [|c s] acc Hf; simpl; [split; discriminate|].
    simpl in Hf.
    destruct (c =? _)%N; [|split; discriminate].
    destruct (parse_chars s) as [[k r1]|] eqn:E; [|split; discriminate].
    apply parse_chars_shorter in E.
    pose proof (skip_ws_length r1) as Hw1.
    destruct (skip_ws r1) as [|c1 r2]; [split; discriminate|].
    destruct (c1 =? _)%N; [|split; discriminate].
    pose proof (skip_ws_length r2) as Hw2.
    destruct (IHv (skip_ws r2) ltac:(simpl in *; lia)) as [H1 H2].
    destruct (parse_value f (skip_ws r2)) as [[v r3]| |] eqn:E2;
      [|split; discriminate|easy].
    specialize (H2 v r3 eq_refl).
    pose proof (skip_ws_length r3) as Hw3.
    destruct (skip_ws r3) as [|c3 r4]; [split; discriminate|].
    destruct (c3 =? _)%N.
    { pose proof (skip_ws_length r4) as Hw4.
      destruct (IHm (skip_ws r4) (obj_set acc k v) ltac:(simpl in *; lia)) as [H3 H4].
      split; [exact H3|]. intros v' r' E'. apply H4 in E'. simpl in *. lia. }
    destruct (c3 =? _)%N; [|split; discriminate].
    split; [discriminate|]. intros v' r' [= <- <-]. simpl in *. lia.
Qed.

(** [JSON_parse] throws only on a syntax error of the text. *)
Lemma JSON_parse_budget (text : jsstring) :
  parse_value (2 * length text + 1) (skip_ws text) <> OutOfFuel.
Proof.
  pose proof (skip_ws_length text) as Hw.
  apply (parser_budget (2 * length text + 1)). lia.
Qed.

(** What [parse_members] returns is an object. *)
Lemma parse_members_object (f : nat) :
  forall s acc v r, parse_members f s acc = Parsed (v, r) -> exists props, v = VObj props.
Proof.
  induction f as [|f IH]; intros s acc v r; simpl; [discriminate|].
  destruct s as [|c s]; [discriminate|].
  destruct (c =? _)%N; [|discriminate].
  destruct (parse_chars s) as [[k r1]|]; [|discriminate].
  destruct (skip_ws r1) as [|c1 r2]; [discriminate|].
  destruct (c1 =? _)%N; [|discriminate].
  destruct (parse_value f (skip_ws r2)) as [[v0 r3]| |]; try discriminate.
  destruct (skip_ws r3) as [|c3 r4]; [discriminate|].
  destruct (c3 =? _)%N; [apply IH|].
  destruct (c3 =? _)%N; [|discriminate].
  intros [= <- <-]. eauto.
Qed.

(** A text that begins with an opening brace decodes, if at all, to an
    object. *)
Lemma JSON_parse_brace (s : jsstring) (v : value) :
  JSON_parse (cu "{" :: s) = Ok v -> exists props, v = VObj props.
Proof.
  unfold JSON_parse.
  change (skip_ws (cu "{" :: s)) with (cu "{" :: s).
  destruct (2 * length (cu "{" :: s) + 1) as [|f]; simpl; [discriminate|].
  destruct (skip_ws s) as [|c1 r1]; [discriminate|].
  destruct (c1 =? _)%N.
  { destruct (skip_ws r1); [|discriminate]. intros [= <-]. eauto. }
  destruct (parse_members f (c1 :: r1) []) as [[v' r']| |] eqn:E; try discriminate.
  apply parse_members_object in E. destruct E as [props ->].
  destruct (skip_ws r'); [|discriminate]. intros [= <-]. eauto.
Qed.

End ParserFacts.

(* ------------------------------------------------------------------ *)
(** ** The JSON parser reads a prefix: text added after what it read
    changes nothing *)

Section ParserPrefix.

Lemma skip_ws_app (s t : jsstring) :
  skip_ws s <> [] -> skip_ws (s ++ t) = skip_ws s ++ t.
Proof.
  induction s as [|c s IH]; simpl; [easy|].
  destruct (is_ws c); [exact IH|reflexivity].
Qed.

Lemma parse_chars_app (t : jsstring) (s str r : jsstring) :
  parse_chars s = Some (str, r) -> parse_chars (s ++ t) = Some (str, r ++ t).
Proof.
  remember (length s) as n eqn:Hn.
  revert s str r Hn.
  induction n as [n IH] using lt_wf_ind.
  intros [|c s] str r Hn; simpl; [discriminate|].
  destruct (c =? _)%N; [now intros [= <- <-]|].
  destruct (c =? _)%N.
  - destruct s as [|e s1]; [discriminate|]. simpl.
    destruct (simple_escape e).
    + destruct (parse_chars s1) as [[str' r']|] eqn:E; [|discriminate].
      intros [= <- <-]. simpl in Hn.
      now rewrite (IH (length s1) ltac:(lia) s1 str' r' eq_refl E).
    + destruct (e =? _)%N; [|discriminate].
      destruct s1 as [|h1 [|h2 [|h3 [|h4 s2]]]]; try discriminate. simpl.
      destruct (hex_val h1), (hex_val h2), (hex_val h3), (hex_val h4); try discriminate.
      destruct (parse_chars s2) as [[str' r']|] eqn:E; [|discriminate].
      intros [= <- <-]. simpl in Hn.
      now rewrite (IH (length s2) ltac:(lia) s2 str' r' eq_refl E).
  - destruct (c <? 32)%N; [discriminate|].
    destruct (parse_chars s) as [[str' r']|] eqn:E; [|discriminate].
    intros [= <- <-]. simpl in Hn.
    now rewrite (IH (length s) ltac:(lia) s str' r' eq_refl E).
Qed.

Lemma take_digits_app (t : jsstring) :
  forall s ds r, take_digits s = (ds, r) -> r <> [] ->
    take_digits (s ++ t) = (ds, r ++ t).
Proof.
  induction s as [|c s IH]; intros ds r; simpl.
  - intros [= <- <-]. easy.
  - destruct (is_digit c).
    + destruct (take_digits s) as [ds' r'] eqn:E. intros [= <- <-] Hr.
      now rewrite (IH ds' r' eq_refl Hr).
    + now intros [= <- <-] _.
Qed.

Lemma parse_int_part_app (t s ip r : jsstring) :
  parse_int_part s = Some (ip, r) -> r <> [] ->
  parse_int_part (s ++ t) = Some (ip, r ++ t).
Proof.
  destruct s as [|c s]; simpl; [discriminate|].
  destruct (c =? _)%N; [now intros [= <- <-]|].
  destruct (is_digit c); [|discriminate].
  destruct (take_digits s) as [ds r'] eqn:E. intros [= <- <-] Hr.
  now rewrite (take_digits_app t _ E Hr).
Qed.

Lemma parse_frac_part_app (t s fp r : jsstring) :
  parse_frac_part s = Some (fp, r) -> r <> [] ->
  parse_frac_part (s ++ t) = Some (fp, r ++ t).
Proof.
  destruct s as [|c s]; simpl; [now intros [= <- <-]|].
  destruct (c =? _)%N; [|now intros [= <- <-]].
  destruct (take_digits s) as [[|d ds] r'] eqn:E; [discriminate|].
  intros [= <- <-] Hr. now rewrite (take_digits_app t _ E Hr).
Qed.

Lemma exp_digits_app (t : jsstring) (sg : bool) (s r : jsstring) (e : Z) :
  exp_digits sg s = Some (e, r) -> r <> [] ->
  exp_digits sg (s ++ t) = Some (e, r ++ t).
Proof.
  unfold exp_digits.
  destruct (take_digits s) as [[|d ds] r'] eqn:E; [discriminate|].
  intros [= <- <-] Hr. now rewrite (take_digits_app t _ E Hr).
Qed.

Lemma parse_exp_part_app (t s r : jsstring) (e : Z) :
  parse_exp_part s = Some (e, r) -> r <> [] ->
  parse_exp_part (s ++ t) = Some (e, r ++ t).
Proof.
  destruct s as [|c s]; simpl; [now intros [= <- <-]|].
  destruct (_ || _)%bool; [|now intros [= <- <-]].
  destruct s as [|c1 s']; [discriminate|]. simpl.
  destruct (c1 =? _)%N; [apply exp_digits_app|].
  destruct (c1 =? _)%N; [apply exp_digits_app|].
  apply (exp_digits_app t false (c1 :: s')).
Qed.

Lemma nonempty_longer (r s : jsstring) : r <> [] -> length r <= length s -> s <> [].
Proof. destruct r, s; simpl; easy. Qed.

Lemma parse_unsigned_app (t : jsstring) (neg : bool) (s r : jsstring) (v : value) :
  parse_unsigned neg s = Some (v, r) -> r <> [] ->
  parse_unsigned neg (s ++ t) = Some (v, r ++ t).
Proof.
  unfold parse_unsigned.
  destruct (parse_int_part s) as [[ip s2]|] eqn:E1; [|discriminate].
  destruct (parse_frac_part s2) as [[fp s3]|] eqn:E2; [|discriminate].
  destruct (parse_exp_part s3) as [[e s4]|] eqn:E3; [|discriminate].
  intros [= <- <-] Hr.
  assert (H3 : s3 <> []).
  { eapply nonempty_longer; [exact Hr|]. eapply parse_exp_part_length; eauto. }
  assert (H2 : s2 <> []).
  { eapply nonempty_longer; [exact H3|]. eapply parse_frac_part_length; eauto. }
  rewrite (parse_int_part_app t _ E1 H2), (parse_frac_part_app t _ E2 H3),
          (parse_exp_part_app t _ E3 Hr). reflexivity.
Qed.

Lemma parse_number_app (t s r : jsstring) (v : value) :
  parse_number s = Some (v, r) -> r <> [] ->
  parse_number (s ++ t) = Some (v, r ++ t).
Proof.
  unfold parse_number. destruct s as [|c s]; [discriminate|]. simpl.
  destruct (c =? _)%N; [apply parse_unsigned_app|].
  apply (parse_unsigned_app t false (c :: s)).
Qed.

Lemma parse_number_is_number (s r : jsstring) (v : value) :
  parse_number s = Some (v, r) -> is_number v.
Proof.
  assert (H : forall neg s1, parse_unsigned neg s1 = Some (v, r) -> is_number v).
  { intros neg s1. unfold parse_unsigned.
    destruct (parse_int_part s1) as [[ip s2]|]; [|discriminate].
    destruct (parse_frac_part s2) as [[fp s3]|]; [|discriminate].
    destruct (parse_exp_part s3) as [[e s4]|]; [|discriminate].
    intros [= <- <-]. red. eauto. }
  unfold parse_number. destruct s as [|c s]; [discriminate|].
  destruct (c =? _)%N; apply H.
Qed.

Lemma starts_with_more (kw s t : jsstring) :
  starts_with kw s = true -> starts_with kw (s ++ t) = true.
Proof.
  revert s; induction kw as [|x kw IH]; intros [|y s]; simpl; try easy.
  rewrite !andb_true_iff. intros [-> H]. split; [reflexivity|now apply IH].
Qed.

Lemma skipn_more (n : nat) (s t : jsstring) :
  n <= length s -> skipn n (s ++ t) = skipn n s ++ t.
Proof.
  revert s; induction n as [|n IH]; intros [|y s]; simpl; try easy; try lia.
  intros H. apply IH. lia.
Qed.

Lemma starts_with_length (kw s : jsstring) :
  starts_with kw s = true -> length kw <= length s.
Proof.
  revert s; induction kw as [|x kw IH]; intros [|y s]; simpl; try easy; try lia.
  rewrite andb_true_iff. intros [_ H]. apply IH in H. lia.
Qed.

Lemma parse_keyword_app (t kw s r : jsstring) (v0 v : value) :
  parse_keyword kw v0 s = Some (v, r) ->
  parse_keyword kw v0 (s ++ t) = Some (v, r ++ t).
Proof.
  unfold parse_keyword. destruct (starts_with kw s) eqn:E; [|discriminate].
  intros [= <- <-]. rewrite (starts_with_more _ _ t E).
  rewrite skipn_more; [reflexivity|now apply starts_with_length].
Qed.

Lemma of_option_parsed {A} (o : option A) (a : A) :
  of_option o = Parsed a -> o = Some a.
Proof. destruct o; simpl; congruence. Qed.

Lemma parse_value_app (t : jsstring) (f : nat) :
  (forall s v r, parse_value f s = Parsed (v, r) -> r <> [] \/ ~ is_number v ->
     parse_value f (s ++ t) = Parsed (v, r ++ t)) /\
  (forall s acc v r, parse_elements f s acc = Parsed (v, r) ->
     parse_elements f (s ++ t) acc = Parsed (v, r ++ t)) /\
  (forall s acc v r, parse_members f s acc = Parsed (v, r) ->
     parse_members f (s ++ t) acc = Parsed (v, r ++ t)).
Proof.
  induction f as [|f (IHv & IHe & IHm)].
  { repeat split; intros; discriminate. }
  split; [|split].
  - intros [|c s] v r; simpl; [discriminate|].
    destruct (c =? _)%N.
    { destruct (skip_ws s) as [|c1 r1] eqn:Ew; [discriminate|].
      rewrite skip_ws_app, Ew by (rewrite Ew; discriminate). simpl.
      destruct (c1 =? _)%N; [now intros [= <- <-]|].
      intros H _. now apply (IHm (c1 :: r1)). }
    destruct (c =? _)%N.
    { destruct (skip_ws s) as [|c1 r1] eqn:Ew; [discriminate|].
      rewrite skip_ws_app, Ew by (rewrite Ew; discriminate). simpl.
      destruct (c1 =? _)%N; [now intros [= <- <-]|].
      intros H _. now apply (IHe (c1 :: r1)). }
    destruct (c =? _)%N.
    { destruct (parse_chars s) as [[str rest]|] eqn:E; [|discriminate].
      intros [= <- <-] _. now rewrite (parse_chars_app t _ E). }
    assert (Hkw : forall kw v0,
              of_option (parse_keyword kw v0 (c :: s)) = Parsed (v, r) ->
              of_option (parse_keyword kw v0 (c :: s ++ t)) = Parsed (v, r ++ t)).
    { intros kw v0 H. apply of_option_parsed in H.
      apply (@parse_keyword_app t kw (c :: s)) in H. simpl in H. now rewrite H. }
    destruct (c =? _)%N; [intros H _; now apply Hkw|].
    destruct (c =? _)%N; [intros H _; now apply Hkw|].
    destruct (c =? _)%N; [intros H _; now apply Hkw|].
    intros H Hr. apply of_option_parsed in H.
    destruct Hr as [Hr|Hr]; [|now apply parse_number_is_number in H].
    apply (@parse_number_app t (c :: s)) in H; [|exact Hr]. simpl in H. now rewrite H.
  - intros s acc v r. simpl.
    destruct (parse_value f s) as [[v0 r0]| |] eqn:E; try discriminate.
    destruct (skip_ws r0) as [|c r1] eqn:Ew; [discriminate|].
    assert (Hr0 : r0 <> []) by (intros ->; discriminate Ew).
    rewrite (IHv s v0 r0 E (or_introl Hr0)).
    rewrite skip_ws_app, Ew by (rewrite Ew; discriminate). simpl.
    destruct (c =? _)%N.
    { intros H.
      assert (Hw : skip_ws r1 <> []).
      { intros Hw. rewrite Hw in H. destruct f as [|[|f']]; simpl in H; discriminate H. }
      rewrite (skip_ws_app _ t Hw). now apply IHe. }
    destruct (c =? _)%N; [now intros [= <- <-]|discriminate].
  - intros [|c s] acc v r; simpl; [discriminate|].
    destruct (c =? _)%N; [|discriminate].
    destruct (parse_chars s) as [[k r1]|] eqn:E; [|discriminate].
    rewrite (parse_chars_app t _ E).
    destruct (skip_ws r1) as [|c1 r2] eqn:Ew1; [discriminate|].
    rewrite skip_ws_app, Ew1 by (rewrite Ew1; discriminate). simpl.
    destruct (c1 =? _)%N; [|discriminate].
    destruct (parse_value f (skip_ws r2)) as [[v0 r3]| |] eqn:E2; try discriminate.
    assert (Hw2 : skip_ws r2 <> []).
    { intros Hw. rewrite Hw in E2. destruct f; simpl in E2; discriminate E2. }
    destruct (skip_ws r3) as [|c3 r4] eqn:Ew3; [discriminate|].
    assert (Hr3 : r3 <> []) by (intros ->; discriminate Ew3).
    rewrite (skip_ws_app _ t Hw2), (IHv _ v0 r3 E2 (or_introl Hr3)).
    rewrite skip_ws_app, Ew3 by (rewrite Ew3; discriminate). simpl.
    destruct (c3 =? _)%N.
    { intros H.
      assert (Hw : skip_ws r4 <> []).
      { intros Hw. rewrite Hw in H. destruct f; simpl in H; discriminate H. }
      rewrite (skip_ws_app _ t Hw). now apply IHm. }
    destruct (c3 =? _)%N; [now intros [= <- <-]|discriminate].
Qed.

End ParserPrefix.

(* ------------------------------------------------------------------ *)
(** ** Documents that extend one another *)

Section ParserDocuments.

(** More budget changes no result. *)
Lemma parse_fuel_mono (f : nat) :
  (forall s x f', parse_value f s = Parsed x -> f <= f' ->
     parse_value f' s = Parsed x) /\
  (forall s acc x f', parse_elements f s acc = Parsed x -> f <= f' ->
     parse_elements f' s acc = Parsed x) /\
  (forall s acc x f', parse_members f s acc = Parsed x -> f <= f' ->
     parse_members f' s acc = Parsed x).
Proof.
  induction f as [|f (IHv & IHe & IHm)].
  { repeat split; intros; discriminate. }
  split; [|split].
  - intros [|c s] x [|f'] H Hle; try lia; simpl in *; [discriminate|].
    assert (Hf : f <= f') by lia.
    destruct (c =? _)%N.
    { destruct (skip_ws s) as [|c1 r1]; [discriminate|].
      destruct (c1 =? _)%N; [exact H|now apply IHm]. }
    destruct (c =? _)%N.
    { destruct (skip_ws s) as [|c1 r1]; [discriminate|].
      destruct (c1 =? _)%N; [exact H|now apply IHe]. }
    exact H.
  - intros s acc x [|f'] H Hle; try lia; simpl in *.
    assert (Hf : f <= f') by lia.
    destruct (parse_value f s) as [[v r]| |] eqn:E; try discriminate.
    rewrite (IHv _ _ _ E Hf).
    destruct (skip_ws r) as [|c r1]; [discriminate|].
    destruct (c =? _)%N; [now apply IHe|exact H].
  - intros [|c s] acc x [|f'] H Hle; try lia; simpl in *; [discriminate|].
    assert (Hf : f <= f') by lia.
    destruct (c =? _)%N; [|discriminate].
    destruct (parse_chars s) as [[k r1]|]; [|discriminate].
    destruct (skip_ws r1) as [|c1 r2]; [discriminate|].
    destruct (c1 =? _)%N; [|discriminate].
    destruct (parse_value f (skip_ws r2)) as [[v r3]| |] eqn:E; try discriminate.
    rewrite (IHv _ _ _ E Hf).
    destruct (skip_ws r3) as [|c3 r4]; [discriminate|].
    destruct (c3 =? _)%N; [now apply IHm|exact H].
Qed.

Lemma parse_elements_array (f : nat) :
  forall s acc v r, parse_elements f s acc = Parsed (v, r) -> exists l, v = VArr l.
Proof.
  induction f as [|f IH]; intros s acc v r; simpl; [discriminate|].
  destruct (parse_value f s) as [[v0 r0]| |]; try discriminate.
  destruct (skip_ws r0) as [|c r1]; [discriminate|].
  destruct (c =? _)%N; [apply IH|].
  destruct (c =? _)%N; [|discriminate].
  intros [= <- <-]. eauto.
Qed.

(** An object, and nothing else, begins with an opening brace. *)
Lemma parse_value_brace (f : nat) (c : code_unit) (s r : jsstring) (v : value) :
  parse_value f (c :: s) = Parsed (v, r) -> (c = cu "{" <-> is_object v).
Proof.
  destruct f as [|f]; simpl; [discriminate|].
  destruct (c =? _)%N eqn:Ec.
  { apply N.eqb_eq in Ec. intros H. split; [intros _|easy].
    destruct (skip_ws s) as [|c1 r1]; [discriminate H|].
    destruct (c1 =? _)%N; [injection H as <- _; red; eauto|].
    now apply parse_members_object in H. }
  apply N.eqb_neq in Ec. intros H. split; [easy|]. intros [props ->]. exfalso.
  destruct (c =? _)%N.
  { destruct (skip_ws s) as [|c1 r1]; [discriminate H|].
    destruct (c1 =? _)%N; [discriminate H|].
    apply parse_elements_array in H. now destruct H. }
  destruct (c =? _)%N.
  { destruct (parse_chars s) as [[str rest]|]; discriminate H. }
  assert (Hkw : forall kw v0 x, v0 <> VObj props ->
            of_option (parse_keyword kw v0 (c :: s)) = Parsed (VObj props, x) -> False).
  { intros kw v0 x Hv0 H0. apply of_option_parsed in H0. unfold parse_keyword in H0.
    destruct (starts_with kw (c :: s)); [|discriminate]. congruence. }
  destruct (c =? _)%N; [now apply Hkw in H|].
  destruct (c =? _)%N; [now apply Hkw in H|].
  destruct (c =? _)%N; [now apply Hkw in H|].
  apply of_option_parsed in H. apply parse_number_is_number in H.
  now destruct H as (n & m & e & H).
Qed.

(** If a text and a longer text both decode, and the short one to an
    object, they decode to the same document. *)
Lemma JSON_parse_prefix (P tail : jsstring) (D' D : value) :
  JSON_parse P = Ok D' -> is_object D' -> JSON_parse (P ++ tail) = Ok D -> D' = D.
Proof.
  unfold JSON_parse. intros HP Hobj.
  destruct (parse_value (2 * length P + 1) (skip_ws P)) as [[v r]| |] eqn:E;
    try discriminate.
  destruct (skip_ws r) eqn:Er; [|discriminate]. injection HP as ->.
  assert (Hw : skip_ws P <> []).
  { intros Hw. rewrite Hw in E. rewrite Nat.add_1_r in E. discriminate E. }
  rewrite (skip_ws_app _ tail Hw).
  destruct (parse_value_app tail (2 * length P + 1)) as (Happ & _ & _).
  assert (Hnum : ~ is_number D').
  { destruct Hobj as [props ->]. now intros (n & m & e & H). }
  pose proof (Happ _ _ _ E (or_intror Hnum)) as Hext.
  destruct (parse_fuel_mono (2 * length P + 1)) as (Hmono & _ & _).
  rewrite (Hmono _ _ (2 * length (P ++ tail) + 1) Hext)
    by (rewrite length_app; lia).
  destruct (skip_ws (r ++ tail)); [|discriminate]. now intros [= <-].
Qed.

(** The first code unit that is not white space decides whether a decoded
    text is an object: a text and a longer one agree on it. *)
Lemma JSON_parse_object_prefix (P tail : jsstring) (D' D : value) :
  JSON_parse P = Ok D' -> JSON_parse (P ++ tail) = Ok D ->
  is_object D -> is_object D'.
Proof.
  unfold JSON_parse. intros HP HT Hobj.
  destruct (parse_value (2 * length P + 1) (skip_ws P)) as [[v r]| |] eqn:E;
    try discriminate.
  destruct (skip_ws r) eqn:Er; [|discriminate]. injection HP as ->.
  assert (Hw : skip_ws P <> []).
  { intros Hw. rewrite Hw in E. rewrite Nat.add_1_r in E. discriminate E. }
  rewrite (skip_ws_app _ tail Hw) in HT.
  destruct (skip_ws P) as [|c s]; [easy|]. simpl in HT.
  destruct (parse_value _ (c :: s ++ tail)) as [[v' r']| |] eqn:E'; try discriminate.
  destruct (skip_ws r'); [|discriminate]. injection HT as ->.
  apply parse_value_brace in E. apply parse_value_brace in E'.
  apply E. now apply E'.
Qed.

End ParserDocuments.

(* ------------------------------------------------------------------ *)
(** ** The matcher: every answer is a path through the pattern *)

Section MatcherFacts.

Lemma star_loop_sound (r : regex) (g : bool) (k : mstate -> option mstate) :
  (forall st k' res, m r st k' = Some res ->
     exists st', path r st st' /\ k' st' = Some res) ->
  forall n st res, star_loop (m r) g k n st = Some res ->
    exists st', path (Star g r) st st' /\ k st' = Some res.
Proof.
  intros Hr. induction n as [|n IH]; intros st res; simpl.
  - intros H. exists st. split; [constructor|exact H].
  - assert (Hagain :
      m r st (fun st' => if length (rest st') <? length (rest st)
                         then star_loop (m r) g k n st' else None) = Some res ->
      exists st', path (Star g r) st st' /\ k st' = Some res).
    { intros H. apply Hr in H. destruct H as (st1 & Hp & H).
      destruct (length (rest st1) <? length (rest st)) eqn:Hlt; [|discriminate].
      apply Nat.ltb_lt in Hlt. apply IH in H. destruct H as (st2 & Hp2 & H).
      exists st2. split; [|exact H]. eapply path_star_more; eauto. }
    destruct g.
    + destruct (m r st _) as [res0|] eqn:E.
      * intros [= <-]. apply Hagain. reflexivity.
      * intros H. exists st. split; [constructor|exact H].
    + destruct (k st) as [res0|] eqn:E.
      * intros [= <-]. exists st. split; [constructor|exact E].
      * apply Hagain.
Qed.

Lemma m_sound (r : regex) :
  forall st k res, m r st k = Some res ->
    exists st', path r st st' /\ k st' = Some res.
Proof.
  induction r as [|p|r1 IH1 r2 IH2|r1 IH1 r2 IH2|g r1 IH1|i r1 IH1|];
    intros st k res; simpl.
  - intros H. exists st. split; [constructor|exact H].
  - destruct st as [[|c t] cs]; simpl; [discriminate|].
    destruct (p c) eqn:E; [|discriminate].
    intros H. eexists. split; [constructor; exact E|exact H].
  - intros H. apply IH1 in H. destruct H as (st1 & Hp1 & H).
    apply IH2 in H. destruct H as (st2 & Hp2 & H).
    exists st2. split; [econstructor; eauto|exact H].
  - destruct (m r1 st k) as [res0|] eqn:E.
    + intros [= <-]. apply IH1 in E. destruct E as (st1 & Hp & H).
      exists st1. split; [now apply path_alt_l|exact H].
    + intros H. apply IH2 in H. destruct H as (st1 & Hp & H).
      exists st1. split; [now apply path_alt_r|exact H].
  - apply star_loop_sound. exact IH1.
  - intros H. apply IH1 in H. destruct H as (st1 & Hp & H).
    eexists. split; [apply path_group; exact Hp|exact H].
  - destruct st as [[|c t] cs]; simpl; [|discriminate].
    intros H. eexists. split; [constructor|exact H].
Qed.

(** A path reads a prefix of the text. *)
Lemma path_reads (r : regex) (a b : mstate) :
  path r a b -> exists w, rest a = w ++ rest b.
Proof.
  induction 1 as [st|p c t cs Hp|r1 r2 a b c _ [w1 H1] _ [w2 H2]|r1 r2 a b _ IH
                 |r1 r2 a b _ IH|g r a|g r a b c _ [w1 H1] _ _ [w2 H2]
                 |i r a b _ [w H]|cs]; simpl.
  - now exists [].
  - now exists [c].
  - exists (w1 ++ w2). now rewrite H1, H2, app_assoc.
  - exact IH.
  - exact IH.
  - now exists [].
  - exists (w1 ++ w2). now rewrite H1, H2, app_assoc.
  - now exists w.
  - now exists [].
Qed.

Lemma consumed_app (w t : jsstring) : consumed (w ++ t) t = w.
Proof.
  unfold consumed. rewrite length_app.
  replace (length w + length t - length t) with (length w) by lia.
  rewrite firstn_app, firstn_all, Nat.sub_diag. simpl. now rewrite app_nil_r.
Qed.

(** A capture once made is never lost. *)
Lemma path_keeps_group (i : nat) (r : regex) (a b : mstate) :
  path r a b -> group i (caps a) <> None -> group i (caps b) <> None.
Proof.
  induction 1; simpl; auto.
  intros H0. destruct (Nat.eqb i i0); [discriminate|auto].
Qed.

(** Inversion of paths, pattern by pattern. *)
Lemma path_chr_inv (p : code_unit -> bool) (a b : mstate) :
  path (Chr p) a b ->
  exists c, p c = true /\ rest a = c :: rest b /\ caps b = caps a.
Proof. inversion 1; subst; simpl; eauto. Qed.

Lemma path_lit_inv (l : jsstring) :
  forall a b, path (lit l) a b -> rest a = l ++ rest b /\ caps b = caps a.
Proof.
  induction l as [|x l IH]; simpl; intros a b H.
  - inversion H; subst. easy.
  - inversion H as [| |? ? ? mid ? H1 H2| | | | | |]; subst.
    apply path_chr_inv in H1. destruct H1 as (c & Hc & Hr & Hcs).
    apply IH in H2. destruct H2 as [Hr2 Hcs2].
    unfold is_chr in Hc. apply N.eqb_eq in Hc. subst c.
    rewrite Hr, Hr2. split; [reflexivity|congruence].
Qed.

Lemma path_star_chr_inv (g : bool) (p : code_unit -> bool) (a b : mstate) :
  path (Star g (Chr p)) a b ->
  exists w, Forall (fun c => p c = true) w /\ rest a = w ++ rest b /\ caps b = caps a.
Proof.
  remember (Star g (Chr p)) as r eqn:Hr.
  induction 1 as [| | | | |g' r' a|g' r' a b c H1 _ Hlt H2 IH| |]; try discriminate.
  - exists []. easy.
  - injection Hr as -> ->.
    apply path_chr_inv in H1. destruct H1 as (x & Hx & Hra & Hca).
    destruct (IH eq_refl) as (w & Hw & Hrb & Hcb).
    exists (x :: w). split; [now constructor|].
    rewrite Hra, Hrb. split; [reflexivity|congruence].
Qed.

(** What [search] finds is a path from where the match begins, and the three
    parts of its answer make up the text. *)
Lemma match_here_sound (r : regex) (s : jsstring) (fd : found) :
  match_here r s = Some fd ->
  before fd = [] /\ s = matched fd ++ after fd /\
  path r (MState s []) (MState (after fd) (groups fd)).
Proof.
  unfold match_here. destruct (m r (MState s []) Some) as [st|] eqn:E; [|discriminate].
  intros [= <-]. simpl.
  apply m_sound in E. destruct E as (st' & Hp & [= ->]).
  destruct (path_reads Hp) as [w Hw]. simpl in Hw.
  split; [reflexivity|]. split.
  - rewrite Hw at 1 2. now rewrite consumed_app.
  - now destruct st.
Qed.

Lemma search_sound (r : regex) :
  forall s fd, search r s = Some fd ->
    s = before fd ++ matched fd ++ after fd /\
    path r (MState (matched fd ++ after fd) []) (MState (after fd) (groups fd)).
Proof.
  induction s as [|c s IH]; intros fd; simpl.
  - destruct (match_here r []) as [f|] eqn:E; [|discriminate].
    intros [= <-]. apply match_here_sound in E. destruct E as (Hb & Hs & Hp).
    rewrite Hb. simpl. rewrite <- Hs. easy.
  - destruct (match_here r (c :: s)) as [f|] eqn:E.
    + intros [= <-]. apply match_here_sound in E. destruct E as (Hb & Hs & Hp).
      rewrite Hb. simpl. rewrite <- Hs. easy.
    + destruct (search r s) as [f|] eqn:E'; [|discriminate].
      intros [= <-]. simpl. destruct (IH f eq_refl) as [Hs Hp].
      split; [now f_equal|exact Hp].
Qed.

Lemma matches_from_sound (r : regex) (f : nat) :
  forall s fd, In fd (matches_from f r s) ->
    (exists pre, s = pre ++ matched fd ++ after fd) /\
    path r (MState (matched fd ++ after fd) []) (MState (after fd) (groups fd)).
Proof.
  induction f as [|f IH]; intros s fd; simpl; [easy|].
  destruct (search r s) as [fd0|] eqn:E; [|easy].
  apply search_sound in E. destruct E as [Hs Hp].
  intros [<-|Hin]; [split; [eauto|exact Hp]|].
  assert (Hsub : forall a pre0, s = pre0 ++ a -> In fd (matches_from f r a) ->
            (exists pre, s = pre ++ matched fd ++ after fd) /\
            path r (MState (matched fd ++ after fd) []) (MState (after fd) (groups fd))).
  { intros a pre0 Ha Hin'. apply IH in Hin'. destruct Hin' as [[pre Hpre] Hp'].
    split; [|exact Hp']. exists (pre0 ++ pre). now rewrite Ha, Hpre, app_assoc. }
  destruct (matched fd0) as [|x w] eqn:Em; destruct (after fd0) as [|y t] eqn:Ea;
    try easy.
  - apply (Hsub t (before fd0 ++ [y])); [|exact Hin].
    rewrite Hs. simpl. now rewrite <- app_assoc.
  - apply (Hsub [] (before fd0 ++ x :: w)); [|exact Hin].
    rewrite Hs. now rewrite <- !app_assoc.
  - apply (Hsub (y :: t) (before fd0 ++ x :: w)); [|exact Hin].
    rewrite Hs. now rewrite <- !app_assoc.
Qed.

End MatcherFacts.

(* ------------------------------------------------------------------ *)
(** ** The matcher: its bounds never cut a match short *)

Section MatcherBudget.

(** The matcher calls its continuation only on what is left of the text:
    continuations that agree there give the same answer. *)
Lemma star_loop_ext (r : regex) (g : bool) :
  (forall st k1 k2,
     (forall st', length (rest st') <= length (rest st) -> k1 st' = k2 st') ->
     m r st k1 = m r st k2) ->
  forall n st k1 k2,
    (forall st', length (rest st') <= length (rest st) -> k1 st' = k2 st') ->
    star_loop (m r) g k1 n st = star_loop (m r) g k2 n st.
Proof.
  intros Hr. induction n as [|n IH]; intros st k1 k2 Hk; simpl.
  - apply Hk. lia.
  - rewrite (Hk st) by lia.
    replace (m r st (fun st' => if length (rest st') <? length (rest st)
                                then star_loop (m r) g k1 n st' else None))
      with (m r st (fun st' => if length (rest st') <? length (rest st)
                               then star_loop (m r) g k2 n st' else None)).
    { reflexivity. }
    apply Hr. intros st' Hst'.
    destruct (length (rest st') <? length (rest st)) eqn:E; [|reflexivity].
    symmetry. apply IH. intros st'' Hst''. apply Hk. lia.
Qed.

Lemma m_ext (r : regex) :
  forall st k1 k2,
    (forall st', length (rest st') <= length (rest st) -> k1 st' = k2 st') ->
    m r st k1 = m r st k2.
Proof.
  induction r as [|p|r1 IH1 r2 IH2|r1 IH1 r2 IH2|g r1 IH1|i r1 IH1|];
    intros st k1 k2 Hk; simpl.
  - apply Hk. lia.
  - destruct st as [[|c t] cs]; simpl; [reflexivity|].
    destruct (p c); [|reflexivity]. apply Hk. simpl. lia.
  - apply IH1. intros st1 H1. apply IH2. intros st2 H2. apply Hk. lia.
  - rewrite (IH1 st k1 k2 Hk), (IH2 st k1 k2 Hk). reflexivity.
  - apply star_loop_ext; assumption.
  - apply IH1. intros st1 H1. apply Hk. simpl. lia.
  - destruct st as [[|c t] cs]; simpl; [|reflexivity]. apply Hk. simpl. lia.
Qed.

(** A continuation that always fails makes the match fail. *)
Lemma m_none (r : regex) (st : mstate) (k : mstate -> option mstate) :
  (forall st', k st' = None) -> m r st k = None.
Proof.
  intros Hk. destruct (m r st k) as [res|] eqn:E; [|reflexivity].
  apply m_sound in E. destruct E as (st' & _ & E). now rewrite Hk in E.
Qed.

(** Any bound at least the length of the text left gives the same
    iterations of a star. *)
Lemma star_loop_budget (r : regex) (g : bool) (k : mstate -> option mstate) :
  forall n1 n2 st,
    length (rest st) <= n1 -> length (rest st) <= n2 ->
    star_loop (m r) g k n1 st = star_loop (m r) g k n2 st.
Proof.
  assert (Hzero : forall n st, length (rest st) = 0 ->
            star_loop (m r) g k n st = k st).
  { intros [|n] st Hst; simpl; [reflexivity|].
    rewrite m_none.
    - destruct g; [reflexivity|]. now destruct (k st).
    - intros st'. rewrite Hst. reflexivity. }
  induction n1 as [|n1 IH]; intros n2 st H1 H2.
  - rewrite !Hzero by lia. reflexivity.
  - destruct n2 as [|n2]; [rewrite !Hzero by lia; reflexivity|].
    simpl.
    replace (m r st (fun st' => if length (rest st') <? length (rest st)
                                then star_loop (m r) g k n1 st' else None))
      with (m r st (fun st' => if length (rest st') <? length (rest st)
                               then star_loop (m r) g k n2 st' else None)).
    { reflexivity. }
    apply m_ext. intros st' Hst'.
    destruct (length (rest st') <? length (rest st)) eqn:E; [|reflexivity].
    apply Nat.ltb_lt in E. symmetry. apply IH; lia.
Qed.

Lemma search_lengths (r : regex) (s : jsstring) (fd : found) :
  search r s = Some fd ->
  length s = length (before fd) + length (matched fd) + length (after fd).
Proof.
  intros H. apply search_sound in H. destruct H as [H _].
  rewrite H at 1. rewrite !length_app. lia.
Qed.

(** The successive matches and the replacement stop for want of matches,
    not of budget. *)
Lemma matches_from_budget (r : regex) :
  forall f1 f2 s, length s < f1 -> length s < f2 ->
    matches_from f1 r s = matches_from f2 r s.
Proof.
  induction f1 as [|f1 IH]; intros f2 s H1 H2; [lia|].
  destruct f2 as [|f2]; [lia|]. simpl.
  destruct (search r s) as [fd|] eqn:E; [|reflexivity].
  apply search_lengths in E. f_equal.
  destruct (matched fd) as [|x w], (after fd) as [|y t]; try reflexivity;
    apply IH; simpl in *; lia.
Qed.

Lemma replace_from_budget (r : regex) (by_ : jsstring) :
  forall f1 f2 s, length s < f1 -> length s < f2 ->
    replace_from f1 r by_ s = replace_from f2 r by_ s.
Proof.
  induction f1 as [|f1 IH]; intros f2 s H1 H2; [lia|].
  destruct f2 as [|f2]; [lia|]. simpl.
  destruct (search r s) as [fd|] eqn:E; [|reflexivity].
  apply search_lengths in E. do 2 f_equal.
  destruct (matched fd) as [|x w], (after fd) as [|y t]; try reflexivity;
    [f_equal| |]; apply IH; simpl in *; lia.
Qed.

End MatcherBudget.


(* ------------------------------------------------------------------ *)
(** ** The patterns of the recoverer *)

Section PatternFacts.

Lemma path_captures (i : nat) (r : regex) (a b : mstate) :
  path r a b -> captures i r = true -> group i (caps b) <> None.
Proof.
  induction 1 as [st|p c t cs Hp|r1 r2 a b c H1 IH1 H2 IH2|r1 r2 a b _ IH
                 |r1 r2 a b _ IH|g r a|g r a b c _ _ _ _ _
                 |j r a b _ IH|cs]; simpl; try discriminate.
  - rewrite orb_true_iff. intros [Hc|Hc]; [|now apply IH2].
    eapply path_keeps_group; [exact H2|now apply IH1].
  - rewrite andb_true_iff. intros [Hc _]. now apply IH.
  - rewrite andb_true_iff. intros [_ Hc]. now apply IH.
  - destruct (Nat.eqb i j); [discriminate|]. simpl. exact IH.
Qed.

Lemma search_group (r : regex) (s : jsstring) (fd : found) :
  captures 1 r = true -> search r s = Some fd ->
  exists w, group_value fd 1 = VStr w.
Proof.
  intros Hc Hs. apply search_sound in Hs. destruct Hs as [_ Hp].
  apply (path_captures 1) in Hp; [|exact Hc]. simpl in Hp.
  unfold group_value. destruct (group 1 (groups fd)) as [w|]; [eauto|easy].
Qed.

Lemma includes_app (l : jsstring) :
  forall pre post, includes (pre ++ l ++ post) l = true.
Proof.
  induction pre as [|c pre IH]; intros post.
  - simpl. destruct (l ++ post) eqn:E; simpl; rewrite <- ?E, starts_with_app; reflexivity.
  - simpl. rewrite IH. now rewrite orb_true_r.
Qed.

(** A pattern that begins with a literal matches only in a text that
    includes the literal. *)
Lemma search_includes (l : jsstring) (r : regex) (s : jsstring) (fd : found) :
  search (Seq (lit l) r) s = Some fd -> includes s l = true.
Proof.
  intros Hs. apply search_sound in Hs. destruct Hs as [Hs Hp].
  inversion Hp as [| |? ? ? mid ? H1 H2| | | | | |]; subst.
  apply path_lit_inv in H1. destruct H1 as [H1 _]. simpl in H1.
  destruct (path_reads H2) as [w Hw]. simpl in Hw.
  rewrite H1, Hw. apply includes_app.
Qed.

End PatternFacts.

(* ------------------------------------------------------------------ *)
(** ** The salvage steps never throw *)

Section SalvageFacts.

Lemma mapM_ok {A B} (f : A -> completion B) (P : A -> Prop) (Q : B -> Prop) :
  (forall a, P a -> exists b, f a = Ok b /\ Q b) ->
  forall l, Forall P l -> exists l', mapM f l = Ok l' /\ Forall Q l'.
Proof.
  intros Hf. induction 1 as [|a l Ha _ (l' & IH & HQ)]; simpl.
  - exists []. easy.
  - destruct (Hf a Ha) as (b & -> & Hb). simpl. rewrite IH. simpl.
    exists (b :: l'). split; [reflexivity|now constructor].
Qed.

Lemma filterM_ok {A} (p : A -> completion bool) (P : A -> Prop) :
  (forall a, P a -> exists b, p a = Ok b) ->
  forall l, Forall P l ->
    exists l', filterM p l = Ok l' /\ Forall (fun a => p a = Ok true) l'.
Proof.
  intros Hp. induction 1 as [|a l Ha _ (l' & IH & HQ)]; simpl.
  - exists []. easy.
  - destruct (Hp a Ha) as (b & Hb). rewrite Hb. simpl. rewrite IH. simpl.
    destruct b; eexists; (split; [reflexivity|]); [now constructor|exact HQ].
Qed.

(** The shape of an event span: an opening brace, text without closing
    brace around the quoted word headline, a closing brace. *)
Lemma event_object_shape (a b : mstate) :
  path re_event_object a b ->
  exists x y,
    rest a = cu "{" :: x ++ quoted (js "headline") ++ y ++ cu "}" :: rest b /\
    Forall (fun c => c <> cu "}") x /\ Forall (fun c => c <> cu "}") y.
Proof.
  unfold re_event_object. cbn [seq]. intros H.
  inversion H as [| |? ? ? m1 ? H1 H2| | | | | |]; subst; clear H.
  inversion H2 as [| |? ? ? m2 ? H3 H4| | | | | |]; subst; clear H2.
  inversion H4 as [| |? ? ? m3 ? H5 H6| | | | | |]; subst; clear H4.
  inversion H6 as [| |? ? ? m4 ? H7 H8| | | | | |]; subst; clear H6.
  apply path_chr_inv in H1. destruct H1 as (c1 & Hc1 & E1 & _).
  apply path_star_chr_inv in H3. destruct H3 as (x & Hx & E3 & _).
  apply (path_lit_inv (quoted (js "headline"))) in H5. destruct H5 as (E5 & _).
  apply path_star_chr_inv in H7. destruct H7 as (y & Hy & E7 & _).
  apply path_chr_inv in H8. destruct H8 as (c2 & Hc2 & E8 & _).
  apply N.eqb_eq in Hc1. apply N.eqb_eq in Hc2. subst c1 c2.
  exists x, y. rewrite E1, E3, E5, E7, E8.
  assert (Hnb : forall w, Forall (fun c => not_chr (cu "}") c = true) w ->
                          Forall (fun c => c <> cu "}") w).
  { intros w. apply Forall_impl. intros c. unfold not_chr.
    rewrite negb_true_iff. apply N.eqb_neq. }
  split; [reflexivity|]. split; now apply Hnb.
Qed.

Lemma event_span_brace (f : nat) (s : jsstring) (fd : found) :
  In fd (matches_from f re_event_object s) ->
  exists x, matched fd = cu "{" :: x.
Proof.
  intros Hin. apply matches_from_sound in Hin. destruct Hin as [_ Hp].
  destruct (path_reads Hp) as [w Hw]. simpl in Hw. apply app_inv_tail in Hw.
  apply event_object_shape in Hp. destruct Hp as (x & y & E & _). simpl in E.
  rewrite Hw in *. destruct w as [|c w]; [|injection E as -> _; eauto].
  exfalso. simpl in E. apply (f_equal (@length _)) in E.
  simpl in E. rewrite !length_app in E. simpl in E. rewrite !length_app in E. simpl in E. lia.
Qed.

(** Each field extraction gives a string: the captured one or the
    default. *)
Lemma or_else_string (v : value) (d : jsstring) :
  (v = VUndef \/ exists w, v = VStr w) ->
  exists w, or_else v (VStr d) = VStr w /\ (v = VUndef -> w = d).
Proof.
  intros [->|[w ->]]; [exists d; easy|].
  destruct w as [|c w]; [exists d|exists (c :: w)]; easy.
Qed.

Lemma replace_quotes_ok (r : regex) (s : jsstring) :
  captures 1 r = true ->
  exists v,
    match str_match r s with
    | Some fd => replace_quotes (group_value fd 1)
    | None => Ok VUndef
    end = Ok v /\
    (v = VUndef \/ exists w, v = VStr w) /\
    (str_match r s = None -> v = VUndef).
Proof.
  intros Hc. unfold str_match. destruct (search r s) as [fd|] eqn:E.
  - destruct (@search_group r _ _ Hc E) as [w ->]. simpl.
    eexists. split; [reflexivity|]. split; [right; eauto|discriminate].
  - exists VUndef. auto.
Qed.

Lemma plain_group_ok (r : regex) (s : jsstring) :
  captures 1 r = true ->
  let v := match str_match r s with
           | Some fd => group_value fd 1
           | None => VUndef
           end in
  (v = VUndef \/ exists w, v = VStr w) /\ (str_match r s = None -> v = VUndef).
Proof.
  intros Hc. unfold str_match. destruct (search r s) as [fd|] eqn:E; simpl.
  - destruct (@search_group r _ _ Hc E) as [w ->]. split; [right; eauto|discriminate].
  - auto.
Qed.

(** The field-wise extraction always gives a record of four strings, the
    default standing for every field whose pattern finds nothing. *)
Lemma extract_fields_ok (eventStr : jsstring) :
  exists c h d g,
    extract_fields eventStr =
      Ok (VObj [(js "category", VStr c); (js "headline", VStr h);
                (js "description", VStr d); (js "significance", VStr g)]) /\
    (str_match re_category eventStr = None -> c = js "Other") /\
    (str_match re_headline eventStr = None -> h = Loading) /\
    (str_match re_description eventStr = None -> d = Loading) /\
    (str_match re_significance eventStr = None -> g = js "Medium").
Proof.
  unfold extract_fields.
  destruct (@plain_group_ok re_category eventStr eq_refl) as [Hc Hc0].
  destruct (@plain_group_ok re_significance eventStr eq_refl) as [Hg Hg0].
  destruct (@replace_quotes_ok re_headline eventStr eq_refl) as (h & -> & Hh & Hh0).
  destruct (@replace_quotes_ok re_description eventStr eq_refl) as (d & -> & Hd & Hd0).
  cbv zeta in Hc, Hc0, Hg, Hg0. cbv zeta. unfold bind.
  destruct (or_else_string (js "Other") Hc) as (c' & -> & Hc').
  destruct (or_else_string (js "Medium") Hg) as (g' & -> & Hg').
  destruct (or_else_string Loading Hh) as (h' & -> & Hh').
  destruct (or_else_string Loading Hd) as (d' & -> & Hd').
  exists c', h', d', g'. split; [reflexivity|]. auto 6.
Qed.

Lemma event_of_span_object (x : jsstring) :
  exists v, event_of_span (cu "{" :: x) = Ok v /\ is_object v.
Proof.
  unfold event_of_span.
  destruct (JSON_parse (cu "{" :: x)) as [v|e] eqn:E; cbn [try_catch].
  - exists v. split; [reflexivity|]. now apply JSON_parse_brace in E.
  - destruct (extract_fields_ok (cu "{" :: x)) as (c & h & d & g & -> & _).
    eexists. split; [reflexivity|]. red. eauto.
Qed.

Lemma has_real_headline_object (v : value) :
  is_object v -> exists b, has_real_headline v = Ok b.
Proof.
  intros [props ->]. unfold has_real_headline, get_prop.
  destruct (lookup (js "headline") props); cbn [bind]; eauto.
Qed.

Lemma str_match_all_spans (r : regex) (s : jsstring) (w : jsstring) :
  In w match str_match_all r s with Some l => l | None => [] end ->
  exists fd, In fd (matches_from (S (length s)) r s) /\ matched fd = w.
Proof.
  unfold str_match_all.
  destruct (matches_from (S (length s)) r s) as [|fd0 l] eqn:E; [easy|].
  intros Hin. apply in_map_iff in Hin. destruct Hin as (fd & <- & Hin). eauto.
Qed.

Lemma extract_summary_ok (text : jsstring) :
  exists v, extract_summary text = Ok v /\
            (v = VUndef \/ exists w, v = VStr w) /\
            (str_match re_summary text = None -> v = VUndef).
Proof. apply (@replace_quotes_ok re_summary text eq_refl). Qed.

Lemma extract_events_ok (text : jsstring) :
  exists evs, extract_events text = Ok evs /\
              Forall (fun e => has_real_headline e = Ok true) evs /\
              (str_match re_events text = None -> evs = []).
Proof.
  unfold extract_events, str_match.
  destruct (search re_events text) as [fd|] eqn:E; [|exists []; auto].
  unfold group_string. destruct (@search_group re_events _ _ eq_refl E) as [eventsStr ->]. simpl.
  set (spans := match str_match_all re_event_object eventsStr with
                | Some l => l | None => [] end).
  assert (Hspans : Forall (fun w => exists x, w = cu "{" :: x) spans).
  { apply Forall_forall. intros w Hw. apply str_match_all_spans in Hw.
    destruct Hw as (fd' & Hin & <-). now apply event_span_brace in Hin. }
  assert (Hmap : forall w, (exists x, w = cu "{" :: x) ->
                    exists v, event_of_span w = Ok v /\ is_object v).
  { intros w [x ->]. apply event_of_span_object. }
  destruct (@mapM_ok _ _ event_of_span _ is_object Hmap spans Hspans)
    as (mapped & -> & Hobj).
  cbn [bind].
  destruct (@filterM_ok _ has_real_headline is_object has_real_headline_object
              mapped Hobj) as (evs & -> & Hevs).
  exists evs. split; [reflexivity|]. split; [exact Hevs|discriminate].
Qed.

Lemma extract_barTalk_ok (text : jsstring) :
  exists l, extract_barTalk text = Ok l /\
            (str_match re_barTalk text = None -> l = []).
Proof.
  unfold extract_barTalk, str_match.
  destruct (search re_barTalk text) as [fd|] eqn:E; [|exists []; auto].
  unfold group_string. destruct (@search_group re_barTalk _ _ eq_refl E) as [w ->]. simpl.
  eexists. split; [reflexivity|discriminate].
Qed.

(** The salvage always returns the three-field object. *)
Lemma salvage_ok (text : jsstring) :
  exists summary events barTalk,
    salvage text = Ok (response summary events barTalk) /\
    extract_summary text = Ok summary /\
    extract_events text = Ok events /\
    extract_barTalk text = Ok barTalk.
Proof.
  unfold salvage.
  destruct (extract_summary_ok text) as (s & Hs & _).
  destruct (extract_events_ok text) as (evs & He & _).
  destruct (extract_barTalk_ok text) as (bt & Hb & _).
  exists s, evs, bt. rewrite Hs, He, Hb. simpl. auto.
Qed.

Lemma tryParsePartialJSON_failed (text : jsstring) (e : exn) :
  JSON_parse text = Throw e -> tryParsePartialJSON text = salvage text.
Proof.
  intros H. unfold tryParsePartialJSON. rewrite H. simpl.
  destruct (salvage_ok text) as (s & evs & bt & -> & _). reflexivity.
Qed.

End SalvageFacts.

(* ------------------------------------------------------------------ *)
(** ** Where the patterns can match *)

Section Shapes.

Lemma field_re_shape (key : jsstring) (body : regex) (a b : mstate) :
  path (field_re key body) a b ->
  exists ws1 ws2 G,
    rest a = quoted key ++ ws1 ++ cu ":" :: ws2 ++ dquote :: G ++ dquote :: rest b /\
    spaces ws1 /\ spaces ws2.
Proof.
  unfold field_re. cbn [seq]. intros H.
  inversion H as [| |? ? ? m1 ? H1 H2| | | | | |]; subst; clear H.
  inversion H2 as [| |? ? ? m2 ? H3 H4| | | | | |]; subst; clear H2.
  inversion H4 as [| |? ? ? m3 ? H5 H6| | | | | |]; subst; clear H4.
  inversion H6 as [| |? ? ? m4 ? H7 H8| | | | | |]; subst; clear H6.
  inversion H8 as [| |? ? ? m5 ? H9 H10| | | | | |]; subst; clear H8.
  inversion H10 as [| |? ? ? m6 ? H11 H12| | | | | |]; subst; clear H10.
  apply (path_lit_inv (quoted key)) in H1. destruct H1 as (E1 & _).
  apply path_star_chr_inv in H3. destruct H3 as (ws1 & Hws1 & E3 & _).
  apply path_chr_inv in H5. destruct H5 as (c1 & Hc1 & E5 & _).
  apply path_star_chr_inv in H7. destruct H7 as (ws2 & Hws2 & E7 & _).
  apply path_chr_inv in H9. destruct H9 as (c2 & Hc2 & E9 & _).
  destruct (path_reads H11) as [G E11].
  apply path_chr_inv in H12. destruct H12 as (c3 & Hc3 & E12 & _).
  apply N.eqb_eq in Hc1. apply N.eqb_eq in Hc2. apply N.eqb_eq in Hc3. subst c1 c2 c3.
  exists ws1, ws2, G. rewrite E1, E3, E5, E7, E9, E11, E12.
  easy.
Qed.

(** A text with a double quote in it splits at the first one. *)
Lemma split_at_quote (t : jsstring) :
  In dquote t -> exists v post, t = v ++ dquote :: post /\ ~ In dquote v.
Proof.
  induction t as [|c t IH]; [easy|].
  destruct (N.eq_dec c dquote) as [->|Hc].
  - intros _. exists [], t. easy.
  - intros [Hin|Hin]; [easy|]. destruct (IH Hin) as (v & post & -> & Hv).
    exists (c :: v), post. split; [reflexivity|]. intros [H|H]; auto.
Qed.


(** The frame of the array patterns; the group is the text between the
    bracket and the first closing bracket, or the end of the text. *)
Lemma array_shape (key : jsstring) (a b : mstate) :
  path (re_array key) a b ->
  exists ws1 ws2 body close,
    rest a = quoted key ++ ws1 ++ cu ":" :: ws2 ++ cu "[" :: body ++ close ++ rest b /\
    group 1 (caps b) = Some body.
Proof.
  unfold re_array. cbn [seq]. intros H.
  inversion H as [| |? ? ? m1 ? H1 H2| | | | | |]; subst; clear H.
  inversion H2 as [| |? ? ? m2 ? H3 H4| | | | | |]; subst; clear H2.
  inversion H4 as [| |? ? ? m3 ? H5 H6| | | | | |]; subst; clear H4.
  inversion H6 as [| |? ? ? m4 ? H7 H8| | | | | |]; subst; clear H6.
  inversion H8 as [| |? ? ? m5 ? H9 H10| | | | | |]; subst; clear H8.
  inversion H10 as [| |? ? ? m6 ? H11 H12| | | | | |]; subst; clear H10.
  apply (path_lit_inv (quoted key)) in H1. destruct H1 as (E1 & _).
  apply path_star_chr_inv in H3. destruct H3 as (ws1 & Hws1 & E3 & _).
  apply path_chr_inv in H5. destruct H5 as (c1 & Hc1 & E5 & _).
  apply path_star_chr_inv in H7. destruct H7 as (ws2 & Hws2 & E7 & _).
  apply path_chr_inv in H9. destruct H9 as (c2 & Hc2 & E9 & _).
  apply N.eqb_eq in Hc1. apply N.eqb_eq in Hc2. subst c1 c2.
  inversion H11 as [| | | | | | |? ? ? m7 H13|]; subst; clear H11.
  apply path_star_chr_inv in H13. destruct H13 as (body & _ & E13 & _).
  assert (Hclose : exists close, rest m7 = close ++ rest b /\
                     caps b = (1, consumed (rest m5) (rest m7)) :: caps m7).
  { inversion H12 as [| | |? ? ? ? H14|? ? ? ? H14| | | |]; subst; clear H12.
    - apply path_chr_inv in H14. destruct H14 as (c & _ & E & Hc). simpl in *.
      exists [c]. split; [exact E|exact Hc].
    - inversion H14; subst. exists []. easy. }
  destruct Hclose as (close & E14 & Hcaps).
  exists ws1, ws2, body, close.
  rewrite Hcaps. simpl. rewrite E13, consumed_app.
  rewrite E1, E3, E5, E7, E9, E13, E14.
  easy.
Qed.

Lemma str_match_all_none (r : regex) (s : jsstring) :
  (forall fd, ~ In fd (matches_from (S (length s)) r s)) ->
  match str_match_all r s with Some l => l | None => [] end = [].
Proof.
  unfold str_match_all. intros H.
  destruct (matches_from (S (length s)) r s) as [|fd l]; [reflexivity|].
  exfalso. apply (H fd). now left.
Qed.

Lemma extract_events_none (text : jsstring) :
  ~ has_event_span text -> extract_events text = Ok [].
Proof.
  intros Hno. unfold extract_events, str_match.
  destruct (search re_events text) as [fd|] eqn:E; [|reflexivity].
  apply search_sound in E. destruct E as [Ht Hp].
  apply array_shape in Hp. destruct Hp as (ws1 & ws2 & body & close & E & Hg).
  simpl in E, Hg. unfold group_string, group_value. rewrite Hg. cbn [bind].
  rewrite str_match_all_none; [reflexivity|].
  intros fd' Hin. apply matches_from_sound in Hin. destruct Hin as [[pre Hpre] Hp].
  apply event_object_shape in Hp. destruct Hp as (x & y & Ex & Hx & Hy). simpl in Ex.
  apply Hno.
  exists (before fd ++ quoted (js "events") ++ ws1 ++ cu ":" :: ws2 ++ cu "[" :: pre),
         x, y, (after fd' ++ close ++ after fd).
  split; [|split; assumption].
  rewrite Ht, E, Hpre, Ex. simpl. rewrite <- !app_assoc. simpl.
  repeat (f_equal; try (rewrite <- !app_assoc; simpl)).
Qed.

End Shapes.

(* ------------------------------------------------------------------ *)
(** ** The matcher: what it answers on a text of known shape *)

Section MatcherForward.

Lemma m_lit (l t : jsstring) (cs : list (nat * jsstring)) (k : mstate -> option mstate) :
  m (lit l) (MState (l ++ t) cs) k = k (MState t cs).
Proof.
  revert k. induction l as [|x l IH]; intros k; simpl; [reflexivity|].
  unfold is_chr. rewrite N.eqb_refl. apply IH.
Qed.

(** A greedy star over a character class reads the whole run of the class
    before it tries anything else. *)
Lemma star_class_run (p : code_unit -> bool) (w t : jsstring)
    (cs : list (nat * jsstring)) (k : mstate -> option mstate) (res : mstate) :
  Forall (fun c => p c = true) w ->
  match t with [] => True | c :: _ => p c = false end ->
  k (MState t cs) = Some res ->
  forall n, length w <= n ->
    star_loop (m (Chr p)) true k n (MState (w ++ t) cs) = Some res.
Proof.
  intros Hw Ht Hk. induction Hw as [|x w Hx _ IH]; intros n Hn.
  - simpl app. destruct n as [|n]; simpl; [exact Hk|].
    destruct t as [|c t']; [exact Hk|]. now rewrite Ht.
  - destruct n as [|n]; simpl in Hn; [lia|]. simpl. rewrite Hx.
    replace (length (w ++ t) <? S (length (w ++ t))) with true
      by (symmetry; apply Nat.ltb_lt; lia).
    rewrite IH by lia. reflexivity.
Qed.

Lemma m_star_class (p : code_unit -> bool) (w t : jsstring)
    (cs : list (nat * jsstring)) (k : mstate -> option mstate) (res : mstate) :
  Forall (fun c => p c = true) w ->
  match t with [] => True | c :: _ => p c = false end ->
  k (MState t cs) = Some res ->
  m (Star true (Chr p)) (MState (w ++ t) cs) k = Some res.
Proof.
  intros Hw Ht Hk. simpl. apply star_class_run; auto.
  rewrite length_app. lia.
Qed.

(** A greedy star whose body cannot start here reads nothing. *)
Lemma star_loop_stop (step : mstate -> (mstate -> option mstate) -> option mstate)
    (k : mstate -> option mstate) (n : nat) (st : mstate) :
  (forall k', step st k' = None) -> star_loop step true k n st = k st.
Proof. intros H. destruct n; simpl; [reflexivity|]. now rewrite H. Qed.

Lemma quoted_app (s t : jsstring) : quoted s ++ t = dquote :: s ++ dquote :: t.
Proof. unfold quoted. simpl. now rewrite <- app_assoc. Qed.

Lemma not_quote_run (s : jsstring) :
  ~ In dquote s -> Forall (fun c => not_chr dquote c = true) s.
Proof.
  intros H. apply Forall_forall. intros c Hc. unfold not_chr.
  apply negb_true_iff, N.eqb_neq. intros ->. contradiction.
Qed.

(** On the quoted key, a colon and a quoted value without double quote in
    it, both field patterns capture the value. *)
Lemma escaped_field_here (key ws1 ws2 s post : jsstring) :
  spaces ws1 -> spaces ws2 -> ~ In dquote s ->
  m (re_escaped_field key)
    (MState (quoted key ++ ws1 ++ cu ":" :: ws2 ++ quoted s ++ post) []) Some
  = Some (MState post [(1, s)]).
Proof.
  intros H1 H2 Hs. unfold re_escaped_field. cbn [seq].
  cbn [m]. rewrite m_lit.
  apply m_star_class; [exact H1|reflexivity|]. cbn [m rest caps].
  change (is_chr (cu ":") (cu ":")) with true. cbv iota.
  apply m_star_class; [exact H2| |].
  { rewrite quoted_app. reflexivity. }
  rewrite quoted_app. cbn [m rest caps].
  change (is_chr dquote dquote) with true. cbv iota.
  apply star_class_run; [now apply not_quote_run|reflexivity| |rewrite length_app; lia].
  rewrite star_loop_stop by reflexivity.
  cbn [rest caps]. rewrite consumed_app.
  change (is_chr dquote dquote) with true. reflexivity.
Qed.

(** Where the text does not begin with the literal, a pattern that begins
    with it does not match. *)
Lemma match_here_literal (l : jsstring) (r : regex) (s : jsstring) :
  starts_with l s = false -> match_here (Seq (lit l) r) s = None.
Proof.
  intros H. destruct (match_here (Seq (lit l) r) s) as [fd|] eqn:E; [|reflexivity].
  apply match_here_sound in E. destruct E as (_ & _ & Hp).
  inversion Hp as [| |? ? ? mid ? H1 H2| | | | | |]; subst.
  apply path_lit_inv in H1. destruct H1 as [H1 _]. simpl in H1.
  rewrite H1, starts_with_app in H. discriminate.
Qed.

(** The search passes over a prefix in which no match begins. *)
Lemma search_skip (r : regex) (pre s : jsstring) (fd : found) :
  (forall i, i < length pre -> match_here r (skipn i (pre ++ s)) = None) ->
  match_here r s = Some fd ->
  search r (pre ++ s) = Some (Found (pre ++ before fd) (matched fd) (groups fd) (after fd)).
Proof.
  intros Hpre Hs. induction pre as [|c pre IH].
  - simpl. destruct s; simpl; rewrite Hs; now destruct fd.
  - pose proof (Hpre 0 ltac:(simpl; lia)) as H0. simpl in H0.
    simpl. rewrite H0, IH; [reflexivity|].
    intros i Hi. apply (Hpre (S i)). simpl. lia.
Qed.

(** A text without double quote holds no escaped quote to replace. *)
Lemma unescape_quotes_plain (s : jsstring) : ~ In dquote s -> unescape_quotes s = s.
Proof.
  intros H. unfold unescape_quotes, str_replace_all. simpl.
  destruct (search re_escaped_quote s) as [fd|] eqn:E; [|reflexivity].
  exfalso. apply H. apply search_sound in E. destruct E as [Hs Hp].
  apply (path_lit_inv [backslash; dquote]) in Hp. destruct Hp as [Hp _].
  simpl in Hp. rewrite Hs, Hp. apply in_or_app. right. right. now left.
Qed.

(** The summary step on a text whose first quoted summary key is followed
    by a colon and a quoted value without double quote in it. *)
Lemma extract_summary_plain (pre ws1 ws2 s post : jsstring) :
  let P := pre ++ quoted (js "summary") ++ ws1 ++ cu ":" :: ws2 ++ quoted s ++ post in
  (forall i, i < length pre -> starts_with (quoted (js "summary")) (skipn i P) = false) ->
  spaces ws1 -> spaces ws2 -> ~ In dquote s ->
  extract_summary P = Ok (VStr s).
Proof.
  intros P Hfirst H1 H2 Hs. unfold extract_summary, str_match. subst P.
  set (field := quoted (js "summary") ++ ws1 ++ cu ":" :: ws2 ++ quoted s ++ post) in *.
  assert (Hm : match_here re_summary field
               = Some (Found [] (consumed field post) [(1, s)] post)).
  { unfold match_here, field.
    change re_summary with (re_escaped_field (js "summary")).
    now rewrite escaped_field_here by assumption. }
  assert (Hskip : forall i, i < length pre ->
            match_here re_summary (skipn i (pre ++ field)) = None).
  { intros i Hi. apply (@match_here_literal (quoted (js "summary"))).
    now apply Hfirst. }
  rewrite (@search_skip re_summary pre field _ Hskip Hm).
  unfold group_value. cbn [groups group Nat.eqb replace_quotes].
  now rewrite unescape_quotes_plain.
Qed.

End MatcherForward.

(* ------------------------------------------------------------------ *)
(** ** The quoted-string pattern stops at the first double quote *)

Section QuotedStrings.

Lemma quoted_string_here (v post : jsstring) :
  ~ In dquote v ->
  m re_quoted_string (MState (dquote :: v ++ dquote :: post) []) Some
  = Some (MState post [(1, v)]).
Proof.
  intros Hv. unfold re_quoted_string. cbn [seq]. cbn [m rest caps].
  change (is_chr dquote dquote) with true. cbv iota.
  apply star_class_run; [now apply not_quote_run|reflexivity| |rewrite length_app; lia].
  rewrite star_loop_stop by reflexivity.
  cbn [rest caps]. rewrite consumed_app.
  change (is_chr dquote dquote) with true. reflexivity.
Qed.

Lemma quoted_string_shape (a b : mstate) :
  path re_quoted_string a b -> exists G, rest a = dquote :: G ++ dquote :: rest b.
Proof.
  unfold re_quoted_string. cbn [seq]. intros H.
  inversion H as [| |? ? ? m1 ? H1 H2| | | | | |]; subst; clear H.
  inversion H2 as [| |? ? ? m2 ? H3 H4| | | | | |]; subst; clear H2.
  apply path_chr_inv in H1. destruct H1 as (c1 & Hc1 & E1 & _).
  destruct (path_reads H3) as [G E3].
  apply path_chr_inv in H4. destruct H4 as (c2 & Hc2 & E4 & _).
  apply N.eqb_eq in Hc1. apply N.eqb_eq in Hc2. subst c1 c2.
  exists G. now rewrite E1, E3, E4.
Qed.

(** Whatever the pattern matches is a pair of double quotes around a text
    without double quote: a backslash before a quote does not carry the
    match over it. *)
Lemma quoted_match_plain (s : jsstring) (fd : found) :
  match_here re_quoted_string s = Some fd ->
  exists v, matched fd = quoted v /\ ~ In dquote v.
Proof.
  intros Hm. pose proof (match_here_sound _ _ Hm) as (_ & Hs & Hp).
  apply quoted_string_shape in Hp. destruct Hp as (G & E). simpl in E.
  destruct (@split_at_quote (G ++ dquote :: after fd)) as (v & post & Ev & Hv).
  { apply in_or_app. right. now left. }
  exists v. split; [|exact Hv].
  unfold match_here in Hm. rewrite E, Ev, (@quoted_string_here v post Hv) in Hm.
  injection Hm as <-. simpl.
  change (dquote :: v ++ dquote :: post) with ((dquote :: v) ++ dquote :: post).
  replace ((dquote :: v) ++ dquote :: post) with (quoted v ++ post)
    by apply quoted_app.
  apply consumed_app.
Qed.

Lemma search_matched (r : regex) :
  forall s fd, search r s = Some fd ->
    exists s' fd', match_here r s' = Some fd' /\ matched fd = matched fd'.
Proof.
  induction s as [|c s IH]; intros fd; simpl.
  - destruct (match_here r []) as [f|] eqn:E; [|discriminate].
    intros [= <-]. eauto.
  - destruct (match_here r (c :: s)) as [f|] eqn:E.
    + intros [= <-]. eauto.
    + destruct (search r s) as [f|] eqn:E'; [|discriminate].
      intros [= <-]. simpl. now apply IH.
Qed.

Lemma matches_from_matched (r : regex) (f : nat) :
  forall s fd, In fd (matches_from f r s) ->
    exists s' fd', match_here r s' = Some fd' /\ matched fd = matched fd'.
Proof.
  induction f as [|f IH]; intros s fd; simpl; [easy|].
  destruct (search r s) as [fd0|] eqn:E; [|easy].
  intros [<-|Hin]; [now apply search_matched in E|].
  destruct (matched fd0), (after fd0); try easy; now apply IH in Hin.
Qed.

Lemma slice_quoted (v : jsstring) : slice (quoted v) 1 (-1) = v.
Proof.
  unfold slice, rel_index, quoted. simpl length. rewrite length_app. simpl length.
  replace (1 <? 0)%Z with false by reflexivity.
  replace (-1 <? 0)%Z with true by reflexivity.
  rewrite Z.min_l by lia. rewrite Z.max_l by lia.
  replace (Z.to_nat 1) with 1 by reflexivity. simpl skipn.
  replace (Z.to_nat (Z.of_nat (S (length v + 1)) + -1 - 1)) with (length v) by lia.
  rewrite firstn_app, firstn_all, Nat.sub_diag. simpl. now rewrite app_nil_r.
Qed.

(** No bar-talk line that the salvage returns has a double quote in it. *)
Lemma extract_barTalk_plain (text : jsstring) :
  exists bt, extract_barTalk text = Ok bt /\ Forall (fun w => ~ In dquote w) bt.
Proof.
  unfold extract_barTalk, str_match.
  destruct (search re_barTalk text) as [fd|] eqn:E; [|exists []; auto].
  unfold group_string. destruct (@search_group re_barTalk _ _ eq_refl E) as [w ->].
  cbn [bind]. eexists. split; [reflexivity|].
  apply Forall_forall. intros x Hx. apply in_map_iff in Hx.
  destruct Hx as (mt & <- & Hmt). apply str_match_all_spans in Hmt.
  destruct Hmt as (fd' & Hin & <-). apply matches_from_matched in Hin.
  destruct Hin as (s' & fd'' & Hm & ->). apply quoted_match_plain in Hm.
  destruct Hm as (v & -> & Hv). rewrite slice_quoted.
  now rewrite unescape_quotes_plain.
Qed.

End QuotedStrings.

(* ------------------------------------------------------------------ *)
(** ** The recoverer as a whole *)

Section RecovererFacts.

Lemma tryParsePartialJSON_total (text : jsstring) :
  exists v, tryParsePartialJSON text = Ok v.
Proof.
  unfold tryParsePartialJSON.
  destruct (JSON_parse text) as [v|e]; simpl; [eauto|].
  destruct (salvage text); simpl; eauto.
Qed.

Lemma tryParsePartialJSON_decoded (text : jsstring) (D : value) :
  JSON_parse text = Ok D -> tryParsePartialJSON text = Ok D.
Proof. intros H. unfold tryParsePartialJSON. now rewrite H. Qed.

Lemma get_summary (s : value) (evs : list value) (bt : list jsstring) :
  get_prop (response s evs bt) (js "summary") = Ok s.
Proof. reflexivity. Qed.

Lemma get_events (s : value) (evs : list value) (bt : list jsstring) :
  get_prop (response s evs bt) (js "events") = Ok (VArr evs).
Proof. reflexivity. Qed.

Lemma get_barTalk (s : value) (evs : list value) (bt : list jsstring) :
  get_prop (response s evs bt) (js "barTalk") = Ok (VArr (map VStr bt)).
Proof. reflexivity. Qed.

(** A text without the quoted key has no match of a pattern that begins
    with it. *)
Lemma no_key_no_match (l : jsstring) (r : regex) (text : jsstring) :
  includes text l = false -> str_match (Seq (lit l) r) text = None.
Proof.
  intros H. unfold str_match. destruct (search _ text) as [fd|] eqn:E; [|reflexivity].
  apply search_includes in E. congruence.
Qed.

End RecovererFacts.

(* ------------------------------------------------------------------ *)
(** ** The caller *)

Section HandlerFacts.

Lemma truthy_present (v : value) : truthy v = true -> present v.
Proof. destruct v; simpl; try discriminate; split; discriminate. Qed.

Lemma get_prop_truthy (R : value) (k : jsstring) :
  truthy R = true -> exists v, get_prop R k = Ok v.
Proof.
  destruct R; simpl; try discriminate; eauto.
  intros _. destruct (lookup k props); eauto.
Qed.

Lemma is_complete_total (R : value) : exists b, is_complete R = Ok b.
Proof.
  unfold is_complete. destruct (truthy R) eqn:HR; [|eauto].
  destruct (@get_prop_truthy R (js "summary") HR) as [s ->].
  destruct (@get_prop_truthy R (js "events") HR) as [e ->].
  destruct (@get_prop_truthy R (js "barTalk") HR) as [b ->].
  cbn [bind]. destruct (truthy s); [|eauto]. destruct (truthy e); eauto.
Qed.

Lemma is_complete_true (R : value) : is_complete R = Ok true -> all_present R.
Proof.
  unfold is_complete. destruct (truthy R) eqn:HR; [|discriminate].
  destruct (@get_prop_truthy R (js "summary") HR) as [s Hs].
  destruct (@get_prop_truthy R (js "events") HR) as [e He].
  destruct (@get_prop_truthy R (js "barTalk") HR) as [b Hb].
  rewrite Hs, He, Hb. cbn [bind].
  destruct (truthy s) eqn:Ts; [|discriminate].
  destruct (truthy e) eqn:Te; [|discriminate].
  intros [= Tb].
  repeat split; eexists; (split; [eassumption|]); now apply truthy_present.
Qed.

Lemma consume_ok (cs : list jsstring) :
  forall acc st, exists st',
    consume cs acc st = (Ok (acc ++ concat cs), st') /\
    sportsNews st' = sportsNews st /\ error st' = error st /\
    loading st' = loading st.
Proof.
  induction cs as [|chunk cs IH]; intros acc st; simpl.
  - exists st. now rewrite app_nil_r.
  - destruct (tryParsePartialJSON_total (acc ++ chunk)) as [v ->].
    destruct (IH (acc ++ chunk)
                (if truthy v then setPartialData v st else st)) as (st' & -> & H1 & H2 & H3).
    exists st'. rewrite <- app_assoc. split; [reflexivity|].
    destruct (truthy v); simpl in *; auto.
Qed.

Lemma on_error_failed (st : ui_state) :
  on_error (Error failed_to_parse) st = setError error_shown st.
Proof. reflexivity. Qed.

End HandlerFacts.

(* ------------------------------------------------------------------ *)
(** ** The program on sample texts *)

Section Samples.

Example JSON_parse_values :
  JSON_parse (jsq "[1, -2.50e+3, true, false, null, 'a\nbA\/', {}, [ ], {'a':1,'b':2,'a':3}]")
  = Ok (VArr [VNum false 1 0; VNum true 250 1; VBool true; VBool false; VNull;
              VStr [97; 10; 98; 65; 47]%N; VObj []; VArr [];
              VObj [(js "a", VNum false 3 0); (js "b", VNum false 2 0)]]).
Proof. vm_compute. reflexivity. Qed.

Example JSON_parse_rejects :
  map JSON_parse
      [[]; js "01"; js "1."; js "-"; js ".5"; js "1e"; js "+1"; js "[1,]";
       jsq "{'a':1,}"; jsq "{a:1}"; jsq "'a"; jsq "'\x'"; js "nul"; js "null x";
       jsq "{'a' 1}"; js "[1 2]"; js "{"; js "]"]
  = repeat (Throw SyntaxError) 18.
Proof. vm_compute. reflexivity. Qed.

Example JSON_parse_white_space :
  JSON_parse [32; 9; 10; 13; 110; 117; 108; 108; 32; 10]%N = Ok VNull /\
  JSON_parse [160; 110; 117; 108; 108]%N = Throw SyntaxError.
Proof. split; vm_compute; reflexivity. Qed.

Example truthy_numbers :
  truthy (VNum false 0 5) = false /\ truthy (VNum true 0 0) = false /\
  truthy (VNum false 1 (-400)) = false /\ truthy (VNum false 5 (-324)) = true.
Proof. vm_compute. auto. Qed.

(** The scenario of a text cut in the middle of its first event. *)
Example salvage_truncated :
  tryParsePartialJSON Scenarios.truncated
  = Ok (response (VStr (js "NFL week wraps up")) [] []).
Proof. vm_compute. reflexivity. Qed.

(** White space around the colon, a span cut at the first closing brace and
    read field by field, a span that is JSON, and bar talk cut before its
    third line ends. *)
Example salvage_mixed :
  tryParsePartialJSON
    (jsq "{'events': [ {'significance':'High', 'headline': 'Q', 'x': {'y': 1}}, {'headline':'Z'} ] , 'barTalk' : [ 'one', 'two' , 'th")
  = Ok (response VUndef
          [event_record (js "Other") (js "Q") Loading (js "High");
           VObj [(js "headline", VStr (js "Z"))]]
          [js "one"; js "two"]).
Proof. vm_compute. reflexivity. Qed.

(** The array patterns stop at the first closing bracket, also inside a
    string. *)
Example salvage_bracket_in_string :
  tryParsePartialJSON
    (jsq "{'summary' :  'x y', 'events': [{'headline':'A','teams':['x','y']}], 'barTalk': ['a]b', 'c'")
  = Ok (response (VStr (js "x y")) [] []).
Proof. vm_compute. reflexivity. Qed.

(** A summary with an escaped quote is cut at that quote. *)
Example salvage_escaped_summary :
  tryParsePartialJSON (jsq "{'summary': 'He said \'hi\' ok', 'events': [")
  = Ok (response (VStr (js "He said " ++ [backslash])) [] []).
Proof. vm_compute. reflexivity. Qed.

(** The stream in two chunks: after the first the partial result is shown,
    at the end the document replaces it. *)
Example handle_two_chunks :
  handleSportsSearch (Stream Scenarios.complete_in_two None)
    (UI VNull VNull false VNull)
  = UI Scenarios.complete_document VNull false VNull.
Proof. vm_compute. reflexivity. Qed.

Example handle_transport_failure :
  handleSportsSearch (Stream [Scenarios.truncated] (Some (js "Web search failed: 429")))
    (UI VNull VNull false VNull)
  = UI VNull (response (VStr (js "NFL week wraps up")) [] []) false
       (VStr (js "Web search error: Web search failed: 429")).
Proof. vm_compute. reflexivity. Qed.

End Samples.


(* ================================================================== *)
(** * The claims *)

Section Claims.

(** C1. For every text that strict-decodes as one JSON document, the
    recoverer returns the decoded document itself, with nothing filtered,
    defaulted or changed. *)
Theorem C1_fast_path_verbatim (text : jsstring) (D : value) :
  JSON_parse text = Ok D -> tryParsePartialJSON text = Ok D.
Proof. apply tryParsePartialJSON_decoded. Qed.

Lemma C1_fast_path_verbatim_witness :
  tryParsePartialJSON Scenarios.complete = Ok Scenarios.complete_document.
Proof. apply C1_fast_path_verbatim. vm_compute. reflexivity. Defined.

(** C2, as stated, fails: on a text that strict-decodes, an event whose
    headline is the placeholder text is returned with the rest. *)
Lemma C2_counterexample :
  exists R, tryParsePartialJSON Scenarios.placeholder_headline = Ok R /\
            ~ no_placeholder_events R.
Proof.
  eexists. split; [vm_compute; reflexivity|].
  intros H. eapply H; [vm_compute; reflexivity|left; reflexivity|reflexivity].
Qed.

(** C2, amended. When strict decoding fails, every event of the salvaged
    result has a headline other than the placeholder text. *)
Theorem C2_salvaged_events_have_headlines (text : jsstring) (e : exn) (R : value) :
  JSON_parse text = Throw e -> tryParsePartialJSON text = Ok R ->
  no_placeholder_events R.
Proof.
  intros Hfail HR. rewrite (tryParsePartialJSON_failed _ Hfail) in HR.
  destruct (salvage_ok text) as (s & evs & bt & Hsal & _ & Hev & _).
  rewrite Hsal in HR. injection HR as <-.
  destruct (extract_events_ok text) as (evs' & Hev' & Hreal & _).
  rewrite Hev in Hev'. injection Hev' as <-.
  intros events ev Hget Hin. rewrite get_events in Hget. injection Hget as <-.
  rewrite Forall_forall in Hreal. specialize (Hreal ev Hin).
  unfold has_real_headline in Hreal.
  destruct (get_prop ev (js "headline")) as [h|]; [|discriminate].
  cbn [bind] in Hreal. injection Hreal as Hneq. intros [= ->].
  unfold strict_neq_str in Hneq. now rewrite str_eqb_refl in Hneq.
Qed.

Lemma C2_salvaged_events_have_headlines_witness :
  exists R, tryParsePartialJSON Scenarios.placeholder_cut = Ok R /\
            no_placeholder_events R.
Proof.
  eexists. split; [vm_compute; reflexivity|].
  apply (@C2_salvaged_events_have_headlines Scenarios.placeholder_cut SyntaxError);
    vm_compute; reflexivity.
Defined.

(** C3, as stated, fails: the summary of the document has a line feed, the
    cut text holds the whole summary field, and the recovered summary is
    the text as written, backslash and letter n. *)
Lemma C3_counterexample :
  exists D R tail,
    JSON_parse Escapes.document = Ok D /\
    Escapes.document = Escapes.cut ++ tail /\ tail <> [] /\
    includes Escapes.cut (jsq "'summary':'a\nb'") = true /\
    tryParsePartialJSON Escapes.cut = Ok R /\
    get_prop D (js "summary") = Ok (VStr Escapes.summary_decoded) /\
    get_prop R (js "summary") = Ok (VStr Escapes.summary_written) /\
    Escapes.summary_written <> Escapes.summary_decoded.
Proof.
  do 2 eexists. exists (jsq "],'barTalk':[]}").
  split; [vm_compute; reflexivity|].
  split; [reflexivity|]. split; [discriminate|]. split; [reflexivity|].
  split; [vm_compute; reflexivity|].
  split; [reflexivity|]. split; [reflexivity|discriminate].
Qed.

Lemma get_prop_string_object (D : value) (k s : jsstring) :
  get_prop D k = Ok (VStr s) -> is_object D.
Proof. destruct D; simpl; try discriminate. intros _. red. eauto. Qed.

(** C3, amended. Let a text decode to a document whose summary is [s], and
    let a prefix of it hold the summary field written without escape: the
    quoted key, a colon, and [s] between double quotes, [s] without double
    quote, with no earlier occurrence of the quoted key.  Then the
    recoverer applied to the prefix returns a result whose summary is
    [s]. *)
Theorem C3_plain_summary_recovered
    (T P tail pre ws1 ws2 s post : jsstring) (D : value) :
  JSON_parse T = Ok D -> get_prop D (js "summary") = Ok (VStr s) ->
  T = P ++ tail ->
  P = pre ++ quoted (js "summary") ++ ws1 ++ cu ":" :: ws2 ++ quoted s ++ post ->
  (forall i, i < length pre ->
     starts_with (quoted (js "summary")) (skipn i P) = false) ->
  spaces ws1 -> spaces ws2 -> ~ In dquote s ->
  exists R, tryParsePartialJSON P = Ok R /\
            get_prop R (js "summary") = Ok (VStr s).
Proof.
  intros HT HD -> HPshape Hfirst H1 H2 Hs.
  destruct (JSON_parse P) as [D'|e] eqn:HP.
  - exists D'. split; [now apply tryParsePartialJSON_decoded|].
    assert (Hobj : is_object D').
    { eapply JSON_parse_object_prefix; eauto using get_prop_string_object. }
    now rewrite (@JSON_parse_prefix P tail D' D HP Hobj HT).
  - rewrite (tryParsePartialJSON_failed _ HP).
    destruct (salvage_ok P) as (sm & evs & bt & Hsal & Hsum & _).
    exists (response sm evs bt). split; [exact Hsal|].
    rewrite get_summary. f_equal.
    rewrite HPshape in Hfirst, Hsum.
    pose proof (@extract_summary_plain pre ws1 ws2 s post Hfirst H1 H2 Hs) as Hplain.
    cbv zeta in Hplain. congruence.
Qed.

Lemma C3_plain_summary_recovered_witness :
  exists R, tryParsePartialJSON Scenarios.truncated = Ok R /\
            get_prop R (js "summary") = Ok (VStr (js "NFL week wraps up")).
Proof.
  apply (@C3_plain_summary_recovered Scenarios.complete Scenarios.truncated
           (jsq ",'description':'desc','significance':'High'}], 'barTalk': ['Wow']}")
           (js "{") [] (js " ") (js "NFL week wraps up")
           (jsq ", 'events': [{'headline':'Team A wins','category':'NFL'")
           Scenarios.complete_document).
  - vm_compute. reflexivity.
  - reflexivity.
  - reflexivity.
  - reflexivity.
  - intros i Hi. simpl in Hi. assert (i = 0) as -> by lia. reflexivity.
  - constructor.
  - repeat constructor.
  - vm_compute. intuition discriminate.
Defined.

(** A text without closing brace has no event span. *)
Lemma no_brace_no_span (text : jsstring) :
  forallb (fun c => negb (c =? cu "}")%N) text = true -> ~ has_event_span text.
Proof.
  intros H (pre & x & y & post & -> & _).
  rewrite forallb_forall in H. specialize (H (cu "}")).
  rewrite N.eqb_refl in H. simpl in H.
  assert (Hin : In (cu "}") (pre ++ cu "{" :: x ++ quoted (js "headline") ++ y ++ cu "}" :: post)).
  { apply in_or_app. right. right. apply in_or_app. right.
    apply in_or_app. right. apply in_or_app. right. now left. }
  apply H in Hin. discriminate.
Qed.

Lemma parts_complete (pre span post : jsstring) :
  In span (parts (pre ++ span ++ post)).
Proof.
  unfold parts. apply in_flat_map. exists (length pre). split.
  - apply in_seq. rewrite !length_app. lia.
  - apply in_map_iff. exists (length span). split.
    + rewrite skipn_app, skipn_all, Nat.sub_diag. cbn [skipn app].
      rewrite firstn_app, firstn_all, Nat.sub_diag. cbn [firstn].
      apply app_nil_r.
    + apply in_seq. rewrite !length_app. lia.
Qed.

(** C4, as stated, fails: a buffer cut inside its first event, whose
    description holds a pair of braces, has no complete event object (no
    balanced span of it names a headline, and no part of it decodes to an
    object), yet the closing brace inside the description ends a span for
    the object pattern, and one event is returned. *)
Lemma C4_counterexample :
  JSON_parse Scenarios.cut_after_inner_braces = Throw SyntaxError /\
  includes Scenarios.cut_after_inner_braces (quoted (js "events")) = true /\
  (forall pre span post,
     Scenarios.cut_after_inner_braces = pre ++ span ++ post ->
     balanced span = true -> includes span (quoted (js "headline")) = false) /\
  (forall pre span post,
     Scenarios.cut_after_inner_braces = pre ++ span ++ post ->
     forall props, JSON_parse span <> Ok (VObj props)) /\
  exists R,
    tryParsePartialJSON Scenarios.cut_after_inner_braces = Ok R /\
    get_prop R (js "events")
    = Ok (VArr [event_record (js "Other") (js "A") Loading (js "Medium")]).
Proof.
  split; [vm_compute; reflexivity|]. split; [vm_compute; reflexivity|].
  split; [|split].
  - intros pre span post E Hb.
    assert (H : forallb (fun sp => negb (balanced sp)
                                   || negb (includes sp (quoted (js "headline"))))
                  (parts Scenarios.cut_after_inner_braces) = true)
      by (vm_compute; reflexivity).
    rewrite forallb_forall in H. specialize (H span).
    rewrite E in H at 1. specialize (H (parts_complete pre span post)).
    rewrite Hb in H. cbn [negb orb] in H. now apply negb_true_iff in H.
  - intros pre span post E props Hp.
    assert (H : forallb (fun sp => match JSON_parse sp with
                                   | Ok (VObj _) => false
                                   | _ => true
                                   end)
                  (parts Scenarios.cut_after_inner_braces) = true)
      by (vm_compute; reflexivity).
    rewrite forallb_forall in H. specialize (H span).
    rewrite E in H at 1. specialize (H (parts_complete pre span post)).
    rewrite Hp in H. discriminate H.
  - eexists. split; vm_compute; reflexivity.
Qed.

(** C4, amended. When strict decoding fails and nowhere in the text an
    opening brace, the quoted headline key and a closing brace follow one
    another without another closing brace in between, the result has
    [events] bound to the empty array, whether or not the events key has
    been streamed. *)
Theorem C4_no_event_span_empty_events (text : jsstring) (e : exn) :
  JSON_parse text = Throw e -> ~ has_event_span text ->
  exists R, tryParsePartialJSON text = Ok R /\
            get_prop R (js "events") = Ok (VArr []).
Proof.
  intros Hfail Hno. rewrite (tryParsePartialJSON_failed _ Hfail).
  destruct (salvage_ok text) as (s & evs & bt & Hsal & _ & Hev & _).
  rewrite (extract_events_none Hno) in Hev. injection Hev as <-.
  exists (response s [] bt). split; [exact Hsal|reflexivity].
Qed.

Lemma C4_no_event_span_empty_events_witness :
  exists R, tryParsePartialJSON Scenarios.truncated = Ok R /\
            get_prop R (js "events") = Ok (VArr []).
Proof.
  apply (@C4_no_event_span_empty_events Scenarios.truncated SyntaxError).
  - vm_compute. reflexivity.
  - apply no_brace_no_span. vm_compute. reflexivity.
Defined.

(** C5. At the end of the stream the final attempt either keeps the
    recovered value or throws the error Failed to parse complete structured
    response.  It keeps the value only if summary, events and barTalk are
    all present, and does keep it when the summary is a non-empty string
    and the other two are arrays, empty or not; if a field is missing it
    throws, and the handler shows the error; so it is for a valid JSON
    object without the barTalk key. *)
Theorem C5_completeness_check (cs : list jsstring) (st : ui_state) :
  (fst (finish (concat cs) st) = Ok tt \/
   fst (finish (concat cs) st) = Throw (Error failed_to_parse)) /\
  (forall u st1, finish (concat cs) st = (Ok u, st1) ->
     exists R, tryParsePartialJSON (concat cs) = Ok R /\ all_present R /\
               sportsNews st1 = R) /\
  (forall R c s evs bt, tryParsePartialJSON (concat cs) = Ok R ->
     get_prop R (js "summary") = Ok (VStr (c :: s)) ->
     get_prop R (js "events") = Ok (VArr evs) ->
     get_prop R (js "barTalk") = Ok (VArr bt) ->
     sportsNews (handleSportsSearch (Stream cs None) st) = R /\
     error (handleSportsSearch (Stream cs None) st) = VNull) /\
  (forall R, tryParsePartialJSON (concat cs) = Ok R -> ~ all_present R ->
     fst (finish (concat cs) st) = Throw (Error failed_to_parse) /\
     sportsNews (handleSportsSearch (Stream cs None) st) = VNull /\
     error (handleSportsSearch (Stream cs None) st) = error_shown) /\
  (forall props, JSON_parse (concat cs) = Ok (VObj props) ->
     lookup (js "barTalk") props = None ->
     fst (finish (concat cs) st) = Throw (Error failed_to_parse) /\
     sportsNews (handleSportsSearch (Stream cs None) st) = VNull /\
     error (handleSportsSearch (Stream cs None) st) = error_shown).
Proof.
  set (text := concat cs). set (st' := handleSportsSearch (Stream cs None) st).
  assert (Hrun : exists st1,
            st' = setLoading false
                    (match finish text st1 with
                     | (Ok _, st2) => st2
                     | (Throw e, st2) => on_error e st2
                     end) /\
            sportsNews st1 = VNull /\ error st1 = VNull).
  { subst st'. unfold handleSportsSearch, try_body. cbn [chunks failure].
    destruct (consume_ok cs [] (setPartialData VNull
                (setSportsNews VNull (setError VNull (setLoading true st)))))
      as (st1 & -> & Hn & He & _).
    exists st1. cbn [app]. fold text. split; [|split; assumption].
    now destruct (finish text st1) as [[u|e] st2]. }
  destruct Hrun as (st1 & Hst' & Hn1 & He1).
  assert (Hreject : forall R, tryParsePartialJSON text = Ok R -> ~ all_present R ->
     fst (finish text st) = Throw (Error failed_to_parse) /\
     sportsNews st' = VNull /\ error st' = error_shown).
  { intros R HR Hno.
    assert (Hc : is_complete R = Ok false).
    { destruct (is_complete_total R) as [[|] Hb]; [|exact Hb].
      now apply is_complete_true in Hb. }
    assert (Hfin : forall s0, finish text s0 = (Throw (Error failed_to_parse), s0)).
    { intros s0. unfold finish. now rewrite HR, Hc. }
    split; [now rewrite Hfin|].
    rewrite Hst', Hfin, on_error_failed. simpl. split; [exact Hn1|reflexivity]. }
  split; [|split; [|split; [|split]]].
  - unfold finish. destruct (tryParsePartialJSON_total text) as [R ->].
    destruct (is_complete_total R) as [[|] ->]; simpl; auto.
  - intros u st2. unfold finish.
    destruct (tryParsePartialJSON text) as [R|]; [|discriminate].
    destruct (is_complete R) as [[|]|] eqn:Hc; try discriminate.
    intros [= _ <-]. exists R. split; [reflexivity|].
    split; [now apply is_complete_true|reflexivity].
  - intros R c s evs bt HR Hs He Hb.
    assert (Hc : is_complete R = Ok true).
    { unfold is_complete. destruct R; try discriminate Hs; simpl truthy; cbv iota;
        rewrite Hs, He, Hb; reflexivity. }
    rewrite Hst'. unfold finish. rewrite HR, Hc. simpl. split; [reflexivity|exact He1].
  - exact Hreject.
  - intros props Hp Hno. apply (Hreject (VObj props)).
    + now apply tryParsePartialJSON_decoded.
    + intros (_ & _ & (v & Hv & Hpres)). unfold get_prop in Hv. rewrite Hno in Hv.
      injection Hv as <-. now destruct Hpres.
Qed.

Lemma C5_completeness_check_witness :
  (fst (finish Scenarios.no_barTalk (UI VNull VNull false VNull))
     = Throw (Error failed_to_parse) /\
   sportsNews (handleSportsSearch (Stream [Scenarios.no_barTalk] None)
                 (UI VNull VNull false VNull)) = VNull /\
   error (handleSportsSearch (Stream [Scenarios.no_barTalk] None)
            (UI VNull VNull false VNull)) = error_shown) /\
  (sportsNews (handleSportsSearch (Stream Scenarios.complete_in_two None)
                 (UI VNull VNull false VNull)) = Scenarios.complete_document /\
   error (handleSportsSearch (Stream Scenarios.complete_in_two None)
            (UI VNull VNull false VNull)) = VNull).
Proof.
  split.
  - apply (proj2 (proj2 (proj2 (proj2 (C5_completeness_check [Scenarios.no_barTalk]
                                  (UI VNull VNull false VNull)))))
             [(js "summary", VStr (js "x")); (js "events", VArr [])]);
      vm_compute; reflexivity.
  - apply (proj1 (proj2 (proj2 (C5_completeness_check Scenarios.complete_in_two
                           (UI VNull VNull false VNull))))
             Scenarios.complete_document (cu "N") (js "FL week wraps up")
             [VObj [(js "headline", VStr (js "Team A wins"));
                    (js "category", VStr (js "NFL"));
                    (js "description", VStr (js "desc"));
                    (js "significance", VStr (js "High"))]]
             [VStr (js "Wow")]);
      vm_compute; reflexivity.
Defined.

(** C6. For every text the recoverer returns and never throws: a failed strict
    decode leads to the salvage, and were the salvage to throw the result
    would be [null]. *)
Theorem C6_never_throws (text : jsstring) :
  (exists v, tryParsePartialJSON text = Ok v) /\
  match JSON_parse text with
  | Ok v => tryParsePartialJSON text = Ok v
  | Throw _ =>
      match salvage text with
      | Ok v => tryParsePartialJSON text = Ok v
      | Throw _ => tryParsePartialJSON text = Ok VNull
      end
  end.
Proof.
  split; [apply tryParsePartialJSON_total|].
  unfold tryParsePartialJSON.
  destruct (JSON_parse text); simpl; [reflexivity|].
  destruct (salvage text); reflexivity.
Qed.



(** C8: the code at the failing input.  The text has one bar-talk line,
    say "hi" with its quotes escaped, as the strict decode of the completed
    text shows; the salvage returns two lines, the first cut at the first
    escaped quote with the backslash left in, the second empty.  No line
    the salvage returns ever has a double quote in it. *)
Theorem C8_escaped_quote_splits_line :
  JSON_parse Escapes.talk_complete
    = Ok (VObj [(js "barTalk", VArr [VStr Escapes.talk_decoded])]) /\
  tryParsePartialJSON Escapes.talk_cut
    = Ok (response VUndef [] [js "say " ++ [backslash]; []]) /\
  (forall text, exists bt,
     extract_barTalk text = Ok bt /\ Forall (fun w => ~ In dquote w) bt).
Proof.
  split; [vm_compute; reflexivity|]. split; [vm_compute; reflexivity|].
  apply extract_barTalk_plain.
Qed.

(** C9, as stated, fails: the text null strict-decodes to [null], which the
    recoverer returns. *)
Lemma C9_counterexample : tryParsePartialJSON (js "null") = Ok VNull.
Proof. vm_compute. reflexivity. Qed.

(** C9, amended. For every text the salvage throws nothing and gives an
    object, never [null], with exactly the three fields summary, events
    and barTalk, the last two bound to arrays; that object is what the
    recoverer returns when strict decoding fails (when it succeeds, the
    decoded document is returned, whatever it is).  On the empty text the
    object has no summary, no event and no bar talk. *)
Theorem C9_salvage_returns_object (text : jsstring) :
  (exists R s evs bt,
     salvage text = Ok R /\
     R <> VNull /\
     R = VObj [(js "summary", s); (js "events", VArr evs);
               (js "barTalk", VArr (map VStr bt))] /\
     get_prop R (js "summary") = Ok s /\
     get_prop R (js "events") = Ok (VArr evs) /\
     get_prop R (js "barTalk") = Ok (VArr (map VStr bt)) /\
     match JSON_parse text with
     | Throw _ => tryParsePartialJSON text = Ok R
     | Ok D => tryParsePartialJSON text = Ok D
     end) /\
  (exists R,
     tryParsePartialJSON [] = Ok R /\
     R <> VNull /\
     get_prop R (js "summary") = Ok VUndef /\
     get_prop R (js "events") = Ok (VArr []) /\
     get_prop R (js "barTalk") = Ok (VArr [])).
Proof.
  split.
  - destruct (salvage_ok text) as (s & evs & bt & Hsal & _).
    exists (response s evs bt), s, evs, bt. split; [exact Hsal|].
    split; [discriminate|]. split; [reflexivity|].
    split; [apply get_summary|]. split; [apply get_events|].
    split; [apply get_barTalk|].
    destruct (JSON_parse text) as [D|e] eqn:HP.
    + now apply tryParsePartialJSON_decoded.
    + now rewrite (tryParsePartialJSON_failed _ HP).
  - eexists. split; [vm_compute; reflexivity|].
    split; [discriminate|]. repeat split.
Qed.

(** C10. When strict decoding fails, reading events and barTalk from the
    result gives arrays, empty ones when their keys are nowhere in the
    text; only summary can be [undefined], and is when its key is nowhere
    in the text. *)
Theorem C10_arrays_always_bound (text : jsstring) (e : exn) :
  JSON_parse text = Throw e ->
  exists R summary events barTalk,
    tryParsePartialJSON text = Ok R /\
    get_prop R (js "summary") = Ok summary /\
    get_prop R (js "events") = Ok (VArr events) /\
    get_prop R (js "barTalk") = Ok (VArr (map VStr barTalk)) /\
    (summary = VUndef \/ exists w, summary = VStr w) /\
    (includes text (quoted (js "summary")) = false -> summary = VUndef) /\
    (includes text (quoted (js "events")) = false -> events = []) /\
    (includes text (quoted (js "barTalk")) = false -> barTalk = []).
Proof.
  intros Hfail. rewrite (tryParsePartialJSON_failed _ Hfail).
  destruct (salvage_ok text) as (s & evs & bt & Hsal & Hs & Hev & Hbt).
  destruct (extract_summary_ok text) as (s' & Hs' & Hshape & Hs0).
  destruct (extract_events_ok text) as (evs' & Hev' & _ & Hev0).
  destruct (extract_barTalk_ok text) as (bt' & Hbt' & Hbt0).
  rewrite Hs in Hs'. injection Hs' as <-.
  rewrite Hev in Hev'. injection Hev' as <-.
  rewrite Hbt in Hbt'. injection Hbt' as <-.
  exists (response s evs bt), s, evs, bt. split; [exact Hsal|].
  split; [apply get_summary|]. split; [apply get_events|].
  split; [apply get_barTalk|]. split; [exact Hshape|].
  split; [|split]; intros H.
  - apply Hs0. now apply (@no_key_no_match (quoted (js "summary"))).
  - apply Hev0. now apply (@no_key_no_match (quoted (js "events"))).
  - apply Hbt0. now apply (@no_key_no_match (quoted (js "barTalk"))).
Qed.

Lemma C10_arrays_always_bound_witness :
  exists R,
    tryParsePartialJSON (js "no keys yet") = Ok R /\
    get_prop R (js "summary") = Ok VUndef /\
    get_prop R (js "events") = Ok (VArr []) /\
    get_prop R (js "barTalk") = Ok (VArr []).
Proof.
  destruct (@C10_arrays_always_bound (js "no keys yet") SyntaxError)
    as (R & s & evs & bt & H & Gs & Ge & Gb & _ & Hs & He & Hb);
    [vm_compute; reflexivity|].
  exists R. split; [exact H|].
  rewrite Gs, Ge, Gb.
  rewrite (Hs eq_refl), (He eq_refl), (Hb eq_refl). repeat split.
Defined.

End Claims.
(* ================================================================== *)
(** * Further properties *)

(* ------------------------------------------------------------------ *)
(** ** The streaming handler, from the first chunk to the end *)

Section StreamingHandler.

Lemma consume_snoc (cs : list jsstring) (chunk : jsstring) :
  forall acc st,
    consume (cs ++ [chunk]) acc st =
    match consume cs acc st with
    | (Ok a, st1) =>
        match tryParsePartialJSON (a ++ chunk) with
        | Ok v => (Ok (a ++ chunk), if truthy v then setPartialData v st1 else st1)
        | Throw e => (Throw e, st1)
        end
    | (Throw e, st1) => (Throw e, st1)
    end.
Proof.
  induction cs as [|c cs IH]; intros acc st; simpl.
  - destruct (tryParsePartialJSON (acc ++ chunk)); reflexivity.
  - destruct (tryParsePartialJSON (acc ++ c)) as [v|e]; [apply IH|reflexivity].
Qed.

(** The state in which the [try] block starts. *)
Lemma handle_run (str : stream) (st : ui_state) :
  exists st1,
    consume (chunks str) []
      (setPartialData VNull (setSportsNews VNull (setError VNull (setLoading true st))))
      = (Ok (concat (chunks str)), st1) /\
    sportsNews st1 = VNull /\ error st1 = VNull /\
    handleSportsSearch str st =
      setLoading false
        match failure str with
        | Some msg => on_error (Error msg) st1
        | None =>
            match finish (concat (chunks str)) st1 with
            | (Ok _, st2) => st2
            | (Throw e, st2) => on_error e st2
            end
        end.
Proof.
  destruct (consume_ok (chunks str) [] (setPartialData VNull
              (setSportsNews VNull (setError VNull (setLoading true st)))))
    as (st1 & Hc & Hn & He & _).
  exists st1. split; [exact Hc|]. split; [exact Hn|]. split; [exact He|].
  unfold handleSportsSearch, try_body. rewrite Hc. cbn [app].
  destruct (failure str); [reflexivity|].
  now destruct (finish (concat (chunks str)) st1) as [[u|e] st2].
Qed.

Lemma on_error_fields (e : exn) (st : ui_state) :
  sportsNews (on_error e st) = sportsNews st /\
  partialData (on_error e st) = partialData st /\
  exists msg, error (on_error e st) = VStr msg.
Proof.
  unfold on_error. destruct (includes (message_of e) (js "Web search failed"));
    simpl; eauto.
Qed.

Lemma finish_outcome (text : jsstring) (st : ui_state) :
  (exists R, tryParsePartialJSON text = Ok R /\ is_complete R = Ok true /\
             finish text st = (Ok tt, setPartialData VNull (setSportsNews R st))) \/
  finish text st = (Throw (Error failed_to_parse), st).
Proof.
  unfold finish. destruct (tryParsePartialJSON_total text) as [R ->].
  destruct (is_complete_total R) as [[|] Hc]; rewrite Hc; [left|right; reflexivity].
  exists R. auto.
Qed.

Lemma is_complete_truthy (R : value) : is_complete R = Ok true -> truthy R = true.
Proof. unfold is_complete. destruct (truthy R); [reflexivity|discriminate]. Qed.

(** X1. Whatever the stream delivers and however it ends, the handler leaves
    the component not loading, with either a final report or an error
    message and never both, and with no partial result beside a final
    report. *)
Theorem handler_end_state (str : stream) (st : ui_state) :
  loading (handleSportsSearch str st) = false /\
  (sportsNews (handleSportsSearch str st) = VNull <->
   error (handleSportsSearch str st) <> VNull) /\
  (sportsNews (handleSportsSearch str st) <> VNull ->
   partialData (handleSportsSearch str st) = VNull).
Proof.
  destruct (handle_run str st) as (st1 & _ & Hn & He & ->).
  split; [reflexivity|].
  assert (Herr : forall e,
            sportsNews (setLoading false (on_error e st1)) = VNull /\
            error (setLoading false (on_error e st1)) <> VNull).
  { intros e. destruct (on_error_fields e st1) as (Hs & _ & msg & Hm). simpl.
    rewrite Hs, Hm. split; [exact Hn|discriminate]. }
  destruct (failure str) as [msg|].
  { destruct (Herr (Error msg)) as [H1 H2]. split; [tauto|]. intros H. contradiction. }
  destruct (finish_outcome (concat (chunks str)) st1) as [(R & _ & Hc & ->)| ->].
  - simpl. apply is_complete_truthy in Hc.
    assert (HR : R <> VNull) by (intros ->; discriminate).
    split; [|reflexivity]. rewrite He. tauto.
  - destruct (Herr (Error failed_to_parse)) as [H1 H2]. split; [tauto|].
    intros H. contradiction.
Qed.

(** X2. When the transport fails, no report is kept and the message shown
    is the failure's own, headed Web search error when it mentions a
    failed web search and Error fetching sports news otherwise. *)
Theorem handler_transport_failure (cs : list jsstring) (msg : jsstring) (st : ui_state) :
  sportsNews (handleSportsSearch (Stream cs (Some msg)) st) = VNull /\
  error (handleSportsSearch (Stream cs (Some msg)) st) =
    VStr ((if includes msg (js "Web search failed")
           then js "Web search error: "
           else js "Error fetching sports news: ") ++ msg).
Proof.
  destruct (handle_run (Stream cs (Some msg)) st) as (st1 & _ & Hn & _ & ->).
  cbn [failure]. unfold on_error. cbn [message_of].
  destruct (includes msg (js "Web search failed")); simpl; auto.
Qed.

(** X3. While the stream runs, the partial result on display is the one of
    the whole text received so far, unless that result is falsy (a text
    that strict-decodes to [null], [false], zero or the empty string), in
    which case the display is left as it was. *)
Theorem streaming_shows_latest (cs : list jsstring) (chunk acc : jsstring)
    (st : ui_state) (R : value) :
  tryParsePartialJSON (acc ++ concat (cs ++ [chunk])) = Ok R ->
  partialData (snd (consume (cs ++ [chunk]) acc st)) =
    if truthy R then R else partialData (snd (consume cs acc st)).
Proof.
  intros HR. rewrite consume_snoc.
  destruct (consume_ok cs acc st) as (st1 & Hc & _). rewrite Hc. cbn [snd].
  rewrite concat_app in HR. simpl in HR. rewrite app_nil_r, app_assoc in HR.
  rewrite HR. cbn [snd]. now destruct (truthy R).
Qed.

Lemma streaming_shows_latest_witness :
  partialData (snd (consume ([] ++ [Scenarios.truncated]) []
                      (UI VNull VNull true VNull)))
  = response (VStr (js "NFL week wraps up")) [] [].
Proof.
  rewrite (@streaming_shows_latest [] Scenarios.truncated [] (UI VNull VNull true VNull)
             (response (VStr (js "NFL week wraps up")) [] []));
    vm_compute; reflexivity.
Defined.

(** X4. When the final text does not strict-decode, the final attempt
    keeps the salvaged object exactly when the salvaged summary is a
    non-empty string: the arrays of a salvaged object are always there. *)
Theorem final_salvage_accepted (text : jsstring) (e : exn) (st : ui_state) :
  JSON_parse text = Throw e ->
  (forall c s, extract_summary text = Ok (VStr (c :: s)) ->
     exists R, salvage text = Ok R /\
               finish text st = (Ok tt, setPartialData VNull (setSportsNews R st))) /\
  (extract_summary text = Ok VUndef \/ extract_summary text = Ok (VStr []) ->
   finish text st = (Throw (Error failed_to_parse), st)).
Proof.
  intros Hfail. unfold finish. rewrite (tryParsePartialJSON_failed _ Hfail).
  destruct (salvage_ok text) as (sm & evs & bt & -> & Hs & _).
  split.
  - intros c s Hsum. rewrite Hs in Hsum. injection Hsum as ->.
    eexists. split; reflexivity.
  - intros [H|H]; rewrite Hs in H; injection H as ->; reflexivity.
Qed.

Lemma final_salvage_accepted_witness :
  (forall c s, extract_summary Scenarios.truncated = Ok (VStr (c :: s)) ->
     exists R, salvage Scenarios.truncated = Ok R /\
               finish Scenarios.truncated (UI VNull VNull true VNull)
               = (Ok tt, setPartialData VNull
                           (setSportsNews R (UI VNull VNull true VNull)))) /\
  (extract_summary Scenarios.truncated = Ok VUndef \/
   extract_summary Scenarios.truncated = Ok (VStr []) ->
   finish Scenarios.truncated (UI VNull VNull true VNull)
   = (Throw (Error failed_to_parse), UI VNull VNull true VNull)).
Proof.
  apply (@final_salvage_accepted Scenarios.truncated SyntaxError).
  vm_compute. reflexivity.
Defined.

(** X5. A recovered value whose summary is there but falsy (the empty
    string, zero, [false]) is refused at the end like one without
    summary. *)
Theorem final_falsy_summary_refused (text : jsstring) (R s : value) (st : ui_state) :
  tryParsePartialJSON text = Ok R -> get_prop R (js "summary") = Ok s ->
  truthy s = false ->
  finish text st = (Throw (Error failed_to_parse), st).
Proof.
  intros HR Hs Ht. unfold finish. rewrite HR. unfold is_complete.
  destruct (truthy R); [|reflexivity]. rewrite Hs. cbn [bind]. now rewrite Ht.
Qed.

Lemma final_falsy_summary_refused_witness :
  finish (jsq "{'summary':'','events':[],'barTalk':[]}") (UI VNull VNull true VNull)
  = (Throw (Error failed_to_parse), UI VNull VNull true VNull).
Proof.
  apply (@final_falsy_summary_refused _
           (VObj [(js "summary", VStr []); (js "events", VArr []);
                  (js "barTalk", VArr [])]) (VStr []));
    vm_compute; reflexivity.
Defined.

End StreamingHandler.

(* ------------------------------------------------------------------ *)
(** ** The matcher finds a match whenever there is one *)

Section MatcherComplete.

Lemma m_complete (r : regex) (a b : mstate) :
  path r a b ->
  forall k, k b <> None -> m r a k <> None.
Proof.
  induction 1 as [st|p c t cs Hp|r1 r2 a b c _ IH1 _ IH2|r1 r2 a b _ IH
                 |r1 r2 a b _ IH|g r a|g r a b c _ IH1 Hlt _ IH2
                 |i r a b _ IH|cs]; intros k Hk; simpl.
  - exact Hk.
  - now rewrite Hp.
  - apply IH1. now apply IH2.
  - specialize (IH k Hk). now destruct (m r1 a k).
  - specialize (IH k Hk). destruct (m r1 a k); [discriminate|exact IH].
  - destruct (length (rest a)); simpl; [exact Hk|].
    destruct g.
    + destruct (m r a _); [discriminate|exact Hk].
    + destruct (k a); [discriminate|contradiction].
  - destruct (length (rest a)) as [|n] eqn:En; [lia|]. simpl.
    assert (Hagain :
      m r a (fun st' => if length (rest st') <? length (rest a)
                        then star_loop (m r) g k n st' else None) <> None).
    { apply IH1. replace (length (rest b) <? length (rest a)) with true
        by (symmetry; apply Nat.ltb_lt; rewrite En; exact Hlt).
      rewrite (@star_loop_budget r g k n (length (rest b)) b) by lia.
      apply (IH2 k Hk). }
    destruct g.
    + destruct (m r a (fun st' => if length (rest st') <? length (rest a)
                                  then star_loop (m r) true k n st' else None));
        [discriminate|contradiction].
    + destruct (k a); [discriminate|exact Hagain].
  - apply IH. exact Hk.
  - exact Hk.
Qed.

Lemma match_here_complete (r : regex) (s t : jsstring) (cs : list (nat * jsstring)) :
  path r (MState s []) (MState t cs) -> match_here r s <> None.
Proof.
  intros Hp. unfold match_here.
  pose proof (@m_complete r _ _ Hp Some ltac:(discriminate)) as H.
  destruct (m r (MState s []) Some); [discriminate|contradiction].
Qed.

(** What [search] returns was matched where it begins. *)
Lemma search_here (r : regex) :
  forall s fd, search r s = Some fd ->
    exists fd', match_here r (matched fd ++ after fd) = Some fd' /\
                matched fd' = matched fd /\ groups fd' = groups fd /\
                after fd' = after fd.
Proof.
  induction s as [|c s IH]; intros fd; simpl.
  - destruct (match_here r []) as [f|] eqn:E; [|discriminate].
    intros [= <-]. exists f. destruct (match_here_sound _ _ E) as (_ & <- & _). auto.
  - destruct (match_here r (c :: s)) as [f|] eqn:E.
    + intros [= <-]. exists f. destruct (match_here_sound _ _ E) as (_ & <- & _). auto.
    + destruct (search r s) as [f|] eqn:E'; [|discriminate].
      intros [= <-]. simpl. now apply IH.
Qed.

End MatcherComplete.

(* ------------------------------------------------------------------ *)
(** ** The window of an array field *)

Section ArrayWindow.

Lemma starts_with_app_long (l s t : jsstring) :
  length l <= length s -> starts_with l (s ++ t) = starts_with l s.
Proof.
  revert s; induction l as [|x l IH]; intros [|y s]; simpl; try reflexivity; try lia.
  intros H. rewrite IH by lia. reflexivity.
Qed.

Lemma first_at_skip (l pre t : jsstring) :
  first_at l pre ->
  forall i, i < length pre -> starts_with l (skipn i (pre ++ l ++ t)) = false.
Proof.
  intros H i Hi. rewrite app_assoc, skipn_more by (rewrite length_app; lia).
  rewrite starts_with_app_long; [now apply H|].
  rewrite length_skipn, length_app. lia.
Qed.

(** The lazy star over any character stops at the first place where what
    follows it can match. *)
Lemma lazy_any_run (k : mstate -> option mstate) (t : jsstring)
    (cs : list (nat * jsstring)) (res : mstate) :
  k (MState t cs) = Some res ->
  forall body,
    (forall u c v, body = u ++ c :: v -> k (MState (c :: v ++ t) cs) = None) ->
    forall n, length body <= n ->
      star_loop (m (Chr any_chr)) false k n (MState (body ++ t) cs) = Some res.
Proof.
  intros Hk. induction body as [|c body IH]; intros Hfail n Hn.
  - simpl app. destruct n; simpl; [exact Hk|]. now rewrite Hk.
  - destruct n as [|n]; simpl in Hn; [lia|]. simpl.
    rewrite (Hfail [] c body eq_refl).
    replace (length (body ++ t) <? S (length (body ++ t))) with true
      by (symmetry; apply Nat.ltb_lt; lia).
    apply IH; [|lia]. intros u c' v ->. apply (Hfail (c :: u) c' v). reflexivity.
Qed.

Lemma array_here (key ws1 ws2 body closing post : jsstring) :
  spaces ws1 -> spaces ws2 -> ~ In (cu "]") body -> window_end closing post ->
  m (re_array key)
    (MState (quoted key ++ ws1 ++ cu ":" :: ws2 ++ cu "[" :: body ++ closing) []) Some
  = Some (MState post [(1, body)]).
Proof.
  intros H1 H2 Hb Hend. unfold re_array. cbn [seq]. cbn [m]. rewrite m_lit.
  apply m_star_class; [exact H1|reflexivity|]. cbn [m rest caps].
  change (is_chr (cu ":") (cu ":")) with true. cbv iota.
  apply m_star_class; [exact H2|reflexivity|]. cbn [m rest caps].
  change (is_chr (cu "[") (cu "[")) with true. cbv iota.
  apply lazy_any_run with (body := body); [| |rewrite length_app; lia].
  - cbn [rest caps]. rewrite consumed_app.
    destruct Hend; cbn [m rest caps]; [reflexivity|].
    change (is_chr (cu "]") (cu "]")) with true. reflexivity.
  - intros u c v ->. cbn [m rest caps].
    assert (Hc : is_chr (cu "]") c = false).
    { unfold is_chr. apply N.eqb_neq. intros ->. apply Hb.
      apply in_or_app. right. now left. }
    now rewrite Hc.
Qed.

(** The first array field of a key: its window is the text from the
    opening bracket to the first closing bracket, or to the end. *)
Lemma array_search (key pre ws1 ws2 body closing post : jsstring) :
  first_at (quoted key) pre ->
  spaces ws1 -> spaces ws2 -> ~ In (cu "]") body -> window_end closing post ->
  exists fd,
    search (re_array key) (array_head key pre ws1 ws2 ++ body ++ closing) = Some fd /\
    group_value fd 1 = VStr body.
Proof.
  intros Hfirst H1 H2 Hb Hend.
  set (field := quoted key ++ ws1 ++ cu ":" :: ws2 ++ cu "[" :: body ++ closing).
  assert (Htext : array_head key pre ws1 ws2 ++ body ++ closing = pre ++ field).
  { unfold array_head, field. rewrite <- !app_assoc. simpl.
    rewrite <- !app_assoc. reflexivity. }
  assert (Hm : match_here (re_array key) field
               = Some (Found [] (consumed field post) [(1, body)] post)).
  { unfold match_here, field. now rewrite (@array_here key ws1 ws2 body closing post). }
  assert (Hskip : forall i, i < length pre ->
            match_here (re_array key) (skipn i (pre ++ field)) = None).
  { intros i Hi. apply (@match_here_literal (quoted key)).
    unfold field. now apply first_at_skip. }
  rewrite Htext, (@search_skip (re_array key) pre field _ Hskip Hm).
  eexists. split; reflexivity.
Qed.

Lemma extract_events_window (pre ws1 ws2 body closing post : jsstring) :
  first_at (quoted (js "events")) pre ->
  spaces ws1 -> spaces ws2 -> ~ In (cu "]") body -> window_end closing post ->
  extract_events (array_head (js "events") pre ws1 ws2 ++ body ++ closing) =
  (mapped <- mapM event_of_span
               match str_match_all re_event_object body with
               | Some l => l
               | None => []
               end ;;
   filterM has_real_headline mapped).
Proof.
  intros Hfirst H1 H2 Hb Hend.
  destruct (@array_search (js "events") pre ws1 ws2 body closing post)
    as (fd & Hs & Hg); try assumption.
  unfold extract_events, str_match. fold re_events in Hs. rewrite Hs.
  unfold group_string. rewrite Hg. reflexivity.
Qed.

Lemma extract_barTalk_window (pre ws1 ws2 body closing post : jsstring) :
  first_at (quoted (js "barTalk")) pre ->
  spaces ws1 -> spaces ws2 -> ~ In (cu "]") body -> window_end closing post ->
  extract_barTalk (array_head (js "barTalk") pre ws1 ws2 ++ body ++ closing) =
  Ok (map (fun mt => unescape_quotes (slice mt 1 (-1)))
        match str_match_all re_quoted_string body with
        | Some l => l
        | None => []
        end).
Proof.
  intros Hfirst H1 H2 Hb Hend.
  destruct (@array_search (js "barTalk") pre ws1 ws2 body closing post)
    as (fd & Hs & Hg); try assumption.
  unfold extract_barTalk, str_match. fold re_barTalk in Hs. rewrite Hs.
  unfold group_string. rewrite Hg. reflexivity.
Qed.

(** X6. An array field is read from its opening bracket to the first
    closing bracket: whatever follows that bracket changes neither the
    events nor the bar talk, which are those of the buffer cut there. *)
Theorem array_window_ends_at_first_bracket (pre ws1 ws2 body post : jsstring) :
  spaces ws1 -> spaces ws2 -> ~ In (cu "]") body ->
  (first_at (quoted (js "events")) pre ->
   extract_events (array_head (js "events") pre ws1 ws2 ++ body ++ cu "]" :: post)
   = extract_events (array_head (js "events") pre ws1 ws2 ++ body)) /\
  (first_at (quoted (js "barTalk")) pre ->
   extract_barTalk (array_head (js "barTalk") pre ws1 ws2 ++ body ++ cu "]" :: post)
   = extract_barTalk (array_head (js "barTalk") pre ws1 ws2 ++ body)).
Proof.
  intros H1 H2 Hb. split; intros Hfirst.
  - rewrite (@extract_events_window pre ws1 ws2 body (cu "]" :: post) post);
      try assumption; [|constructor].
    rewrite <- (app_nil_r body) at 2.
    rewrite (@extract_events_window pre ws1 ws2 body [] []);
      try assumption; [reflexivity|constructor].
  - rewrite (@extract_barTalk_window pre ws1 ws2 body (cu "]" :: post) post);
      try assumption; [|constructor].
    rewrite <- (app_nil_r body) at 2.
    rewrite (@extract_barTalk_window pre ws1 ws2 body [] []);
      try assumption; [reflexivity|constructor].
Qed.

Lemma array_window_ends_at_first_bracket_witness :
  extract_events (jsq "{'events': [{'headline':'A','teams':['x','y']}, {'headline':'B'}]")
  = extract_events (jsq "{'events': [{'headline':'A','teams':['x','y'") /\
  extract_barTalk (jsq "{'barTalk': ['one', 'two'] 'three'")
  = extract_barTalk (jsq "{'barTalk': ['one', 'two'").
Proof.
  assert (Hfirst : forall key, starts_with (quoted key) (js "{" ++ quoted key) = false ->
            first_at (quoted key) (js "{")).
  { intros key H i Hi. simpl in Hi. assert (i = 0) as -> by lia. exact H. }
  split.
  - apply (proj1 (@array_window_ends_at_first_bracket (js "{") [] (js " ")
                    (jsq "{'headline':'A','teams':['x','y'")
                    (jsq "}, {'headline':'B'}]")
                    ltac:(constructor) ltac:(repeat constructor)
                    ltac:(vm_compute; intuition discriminate))).
    apply Hfirst. reflexivity.
  - apply (proj2 (@array_window_ends_at_first_bracket (js "{") [] (js " ")
                    (jsq "'one', 'two'") (jsq " 'three'")
                    ltac:(constructor) ltac:(repeat constructor)
                    ltac:(vm_compute; intuition discriminate))).
    apply Hfirst. reflexivity.
Defined.

(** X7. When the first closing bracket after the events key comes before
    any closing brace (an event that begins with an array of its own, such
    as its teams), the salvaged events are empty, whatever complete events
    the buffer goes on with. *)
Theorem inner_bracket_hides_events
    (text pre ws1 ws2 body post : jsstring) (e : exn) :
  JSON_parse text = Throw e ->
  text = array_head (js "events") pre ws1 ws2 ++ body ++ cu "]" :: post ->
  first_at (quoted (js "events")) pre -> spaces ws1 -> spaces ws2 ->
  ~ In (cu "]") body -> ~ In (cu "}") body ->
  exists R, tryParsePartialJSON text = Ok R /\
            get_prop R (js "events") = Ok (VArr []).
Proof.
  intros Hfail -> Hfirst H1 H2 Hb Hbrace.
  rewrite (tryParsePartialJSON_failed _ Hfail).
  destruct (salvage_ok (array_head (js "events") pre ws1 ws2 ++ body ++ cu "]" :: post))
    as (s & evs & bt & Hsal & _ & Hev & _).
  rewrite (@extract_events_window pre ws1 ws2 body (cu "]" :: post) post) in Hev;
    try assumption; [|constructor].
  rewrite str_match_all_none in Hev.
  - injection Hev as <-. exists (response s [] bt). split; [exact Hsal|reflexivity].
  - intros fd Hin. apply matches_from_sound in Hin. destruct Hin as [[p Hp] Hpath].
    apply event_object_shape in Hpath. destruct Hpath as (x & y & E & _).
    cbn [rest] in E. apply Hbrace. rewrite Hp, E.
    apply in_or_app. right. right. apply in_or_app. right.
    apply in_or_app. right. apply in_or_app. right. now left.
Qed.

Lemma inner_bracket_hides_events_witness :
  exists R,
    tryParsePartialJSON
      (jsq "{'events': [{'headline':'A','teams':['x','y']}, {'headline':'B'}") = Ok R /\
    get_prop R (js "events") = Ok (VArr []).
Proof.
  apply (@inner_bracket_hides_events _ (js "{") [] (js " ")
           (jsq "{'headline':'A','teams':['x','y'") (jsq "}, {'headline':'B'}")
           SyntaxError).
  - vm_compute. reflexivity.
  - reflexivity.
  - intros i Hi. simpl in Hi. assert (i = 0) as -> by lia. reflexivity.
  - constructor.
  - repeat constructor.
  - vm_compute. intuition discriminate.
  - vm_compute. intuition discriminate.
Defined.

End ArrayWindow.
(* ------------------------------------------------------------------ *)
(** ** What the field patterns capture *)

Section FieldCaptures.

(** A match of the pattern with escapes captures the text up to the next
    double quote, like the plain pattern. *)
Lemma escaped_field_match (key s : jsstring) (fd : found) :
  match_here (re_escaped_field key) s = Some fd ->
  exists ws1 ws2 v post,
    s = quoted key ++ ws1 ++ cu ":" :: ws2 ++ quoted v ++ post /\
    spaces ws1 /\ spaces ws2 /\ ~ In dquote v /\
    groups fd = [(1, v)] /\ after fd = post.
Proof.
  intros Hm. pose proof (match_here_sound _ _ Hm) as (_ & Hs & Hp).
  change (re_escaped_field key)
    with (field_re key (Seq (Star true (Chr (not_chr dquote)))
                            (Star true (seq [Chr (is_chr backslash); Chr dot;
                                             Star true (Chr (not_chr dquote))])))) in Hp.
  apply field_re_shape in Hp. destruct Hp as (ws1 & ws2 & G & E & H1 & H2).
  cbn [rest] in E.
  destruct (@split_at_quote (G ++ dquote :: after fd)) as (v & post & Ev & Hv).
  { apply in_or_app. right. now left. }
  exists ws1, ws2, v, post.
  assert (Hshape : s = quoted key ++ ws1 ++ cu ":" :: ws2 ++ quoted v ++ post).
  { rewrite E, Ev, (quoted_app v post). reflexivity. }
  split; [exact Hshape|]. repeat (split; [assumption|]).
  unfold match_here in Hm. rewrite Hshape in Hm.
  rewrite (@escaped_field_here key ws1 ws2 v post H1 H2 Hv) in Hm.
  injection Hm as <-. split; reflexivity.
Qed.

Lemma search_prefix (r : regex) (s : jsstring) (fd : found) :
  search r s = Some fd -> s = before fd ++ matched fd ++ after fd.
Proof. intros H. now apply search_sound in H. Qed.

(** X8. The salvaged summary, when there is one, is the text that stands
    in the buffer between the double quote that opens the value of the
    summary key and the very next double quote, escaped or not; it has no
    double quote in it. *)
Theorem salvaged_summary_stops_at_quote (text : jsstring) :
  extract_summary text = Ok VUndef \/
  exists pre ws1 ws2 s post,
    text = pre ++ quoted (js "summary") ++ ws1 ++ cu ":" :: ws2 ++ quoted s ++ post /\
    spaces ws1 /\ spaces ws2 /\ ~ In dquote s /\
    extract_summary text = Ok (VStr s).
Proof.
  unfold extract_summary, str_match.
  destruct (search re_summary text) as [fd|] eqn:E; [right|left; reflexivity].
  pose proof (search_prefix _ _ E) as Ht.
  apply search_here in E. destruct E as (fd' & Hm & _ & Hg & Ha).
  apply escaped_field_match in Hm.
  destruct Hm as (ws1 & ws2 & v & post & Hs & H1 & H2 & Hv & Hg' & _).
  exists (before fd), ws1, ws2, v, post.
  split; [now rewrite Ht, Hs|]. repeat (split; [assumption|]).
  unfold group_value. rewrite <- Hg, Hg'. cbn [group Nat.eqb replace_quotes].
  now rewrite unescape_quotes_plain.
Qed.

(** The group of the plain pattern has no double quote in it. *)
Lemma plain_field_group (key : jsstring) (a b : mstate) :
  path (re_plain_field key) a b ->
  exists v, group 1 (caps b) = Some v /\ ~ In dquote v.
Proof.
  unfold re_plain_field. cbn [seq]. intros H.
  inversion H as [| |? ? ? m1 ? H1 H2| | | | | |]; subst; clear H.
  inversion H2 as [| |? ? ? m2 ? H3 H4| | | | | |]; subst; clear H2.
  inversion H4 as [| |? ? ? m3 ? H5 H6| | | | | |]; subst; clear H4.
  inversion H6 as [| |? ? ? m4 ? H7 H8| | | | | |]; subst; clear H6.
  inversion H8 as [| |? ? ? m5 ? H9 H10| | | | | |]; subst; clear H8.
  inversion H10 as [| |? ? ? m6 ? H11 H12| | | | | |]; subst; clear H10.
  inversion H11 as [| | | | | | |? ? ? m7 H13|]; subst; clear H11.
  apply path_star_chr_inv in H13. destruct H13 as (v & Hv & E13 & _).
  apply path_chr_inv in H12. destruct H12 as (c & _ & _ & Hc). cbn [caps rest] in Hc.
  exists v. rewrite Hc. cbn [group Nat.eqb]. rewrite E13, consumed_app.
  split; [reflexivity|]. intros Hin. rewrite Forall_forall in Hv.
  specialize (Hv _ Hin). unfold not_chr in Hv. now rewrite N.eqb_refl in Hv.
Qed.

Lemma or_else_default (v : value) (w d : jsstring) :
  v = VUndef \/ (v = VStr w /\ ~ In dquote w) -> d <> [] -> ~ In dquote d ->
  exists x, or_else v (VStr d) = VStr x /\ x <> [] /\ ~ In dquote x.
Proof.
  intros [->|[-> Hw]] Hd Hq; [exists d; auto|].
  destruct w as [|c w]; [exists d; auto|].
  exists (c :: w). split; [reflexivity|]. split; [discriminate|exact Hw].
Qed.

Lemma plain_capture (key s : jsstring) :
  exists w,
    match str_match (re_plain_field key) s with
    | Some fd => group_value fd 1
    | None => VUndef
    end = VUndef \/
    (match str_match (re_plain_field key) s with
     | Some fd => group_value fd 1
     | None => VUndef
     end = VStr w /\ ~ In dquote w).
Proof.
  unfold str_match. destruct (search (re_plain_field key) s) as [fd|] eqn:E.
  - apply search_sound in E. destruct E as [_ Hp].
    apply plain_field_group in Hp. destruct Hp as (v & Hg & Hv). cbn [caps] in Hg.
    exists v. right. unfold group_value. now rewrite Hg.
  - exists []. now left.
Qed.

Lemma escaped_capture (key s : jsstring) :
  exists v w,
    match str_match (re_escaped_field key) s with
    | Some fd => replace_quotes (group_value fd 1)
    | None => Ok VUndef
    end = Ok v /\
    (v = VUndef \/ (v = VStr w /\ ~ In dquote w)).
Proof.
  unfold str_match. destruct (search (re_escaped_field key) s) as [fd|] eqn:E.
  - apply search_here in E. destruct E as (fd' & Hm & _ & Hg & _).
    apply escaped_field_match in Hm.
    destruct Hm as (ws1 & ws2 & v & post & _ & _ & _ & Hv & Hg' & _).
    exists (VStr v), v. unfold group_value. rewrite <- Hg, Hg'.
    cbn [group Nat.eqb replace_quotes]. rewrite unescape_quotes_plain by exact Hv.
    split; [reflexivity|]. right. split; [reflexivity|exact Hv].
  - exists VUndef, []. split; [reflexivity|]. now left.
Qed.

(** X9. A record built field by field has four non-empty strings without
    double quote for its category, headline, description and significance:
    a field found with an empty value gets the default like a field not
    found. *)
Theorem fallback_record_fields (eventStr : jsstring) :
  exists c h d g,
    extract_fields eventStr = Ok (event_record c h d g) /\
    (c <> [] /\ h <> [] /\ d <> [] /\ g <> []) /\
    (~ In dquote c /\ ~ In dquote h /\ ~ In dquote d /\ ~ In dquote g).
Proof.
  unfold extract_fields.
  destruct (plain_capture (js "category") eventStr) as (cw & Hc).
  destruct (plain_capture (js "significance") eventStr) as (gw & Hg).
  destruct (escaped_capture (js "headline") eventStr) as (hv & hw & Hh & Hhs).
  destruct (escaped_capture (js "description") eventStr) as (dv & dw & Hd & Hds).
  fold re_category in Hc. fold re_significance in Hg.
  fold re_headline in Hh. fold re_description in Hd.
  rewrite Hh, Hd. cbv zeta. cbn [bind].
  assert (Hq : forall t : string, ~ In dquote (js t) -> ~ In dquote (js t)) by auto.
  destruct (or_else_default (d := js "Other") Hc) as (c & -> & Hc1 & Hc2);
    [discriminate|vm_compute; intuition discriminate|].
  destruct (or_else_default (d := js "Medium") Hg) as (g & -> & Hg1 & Hg2);
    [discriminate|vm_compute; intuition discriminate|].
  destruct (or_else_default (d := Loading) Hhs) as (h & -> & Hh1 & Hh2);
    [discriminate|vm_compute; intuition discriminate|].
  destruct (or_else_default (d := Loading) Hds) as (d & -> & Hd1 & Hd2);
    [discriminate|vm_compute; intuition discriminate|].
  exists c, h, d, g. split; [reflexivity|]. auto 10.
Qed.

Lemma filterM_keeps {A} (p : A -> completion bool) (P : A -> Prop) :
  forall l l', filterM p l = Ok l' -> Forall P l -> Forall P l'.
Proof.
  induction l as [|a l IH]; intros l'; simpl.
  - intros [= <-] _. constructor.
  - destruct (p a) as [b|]; [|discriminate]. cbn [bind].
    destruct (filterM p l) as [r|]; [|discriminate]. cbn [bind].
    intros [= <-] H. inversion H as [|? ? Ha Hl]; subst.
    destruct b; [constructor; [exact Ha|]|]; now apply IH.
Qed.

(** X10. Every event the salvage returns is an object (never [null], a
    number, a string or an array), with a headline other than the
    placeholder: reading its fields cannot throw. *)
Theorem salvaged_events_are_objects (text : jsstring) :
  exists evs,
    extract_events text = Ok evs /\
    Forall (fun ev => is_object ev /\ has_real_headline ev = Ok true) evs.
Proof.
  destruct (extract_events_ok text) as (evs & Hev & Hreal & _).
  exists evs. split; [exact Hev|].
  apply Forall_forall. intros ev Hin. split; [|now apply (proj1 (Forall_forall _ _) Hreal)].
  revert ev Hin. apply Forall_forall.
  revert Hev. unfold extract_events, str_match.
  destruct (search re_events text) as [fd|] eqn:E; [|intros [= <-]; constructor].
  unfold group_string. destruct (@search_group re_events _ _ eq_refl E) as [eventsStr ->].
  cbn [bind].
  set (spans := match str_match_all re_event_object eventsStr with
                | Some l => l | None => [] end).
  assert (Hspans : Forall (fun w => exists x, w = cu "{" :: x) spans).
  { apply Forall_forall. intros w Hw. apply str_match_all_spans in Hw.
    destruct Hw as (fd' & Hin & <-). now apply event_span_brace in Hin. }
  assert (Hmap : forall w, (exists x, w = cu "{" :: x) ->
                    exists v, event_of_span w = Ok v /\ is_object v).
  { intros w [x ->]. apply event_of_span_object. }
  destruct (@mapM_ok _ _ event_of_span _ is_object Hmap spans Hspans)
    as (mapped & -> & Hobj).
  cbn [bind]. intros Hf. exact (@filterM_keeps _ _ is_object _ _ Hf Hobj).
Qed.

End FieldCaptures.
(* ------------------------------------------------------------------ *)
(** ** The first event of the window *)

Section FirstEvent.

Lemma includes_split (l : jsstring) :
  forall s, includes s l = true -> exists s1 s2, s = s1 ++ l ++ s2.
Proof.
  induction s as [|c s IH]; intros H.
  - exists [], []. simpl in H. rewrite orb_false_r in H.
    destruct l; [reflexivity|discriminate H].
  - cbn [includes] in H. apply orb_true_iff in H. destruct H as [H|H].
    + apply starts_with_split in H. exists [], (skipn (length l) (c :: s)). exact H.
    + destruct (IH H) as (s1 & s2 & ->). now exists (c :: s1), s2.
Qed.

Lemma path_lit (l t : jsstring) (cs : list (nat * jsstring)) :
  path (lit l) (MState (l ++ t) cs) (MState t cs).
Proof.
  induction l as [|c l IH]; simpl.
  - constructor.
  - eapply path_seq; [|exact IH]. constructor. unfold is_chr. apply N.eqb_refl.
Qed.

Lemma path_star_class (g : bool) (p : code_unit -> bool) (t : jsstring)
    (cs : list (nat * jsstring)) :
  forall w, Forall (fun c => p c = true) w ->
    path (Star g (Chr p)) (MState (w ++ t) cs) (MState t cs).
Proof.
  induction w as [|c w IH]; intros H; simpl.
  - constructor.
  - inversion H as [|? ? Hc Hw]; subst.
    eapply path_star_more; [constructor; exact Hc|simpl; lia|now apply IH].
Qed.

Lemma not_brace_run (s : jsstring) :
  ~ In (cu "}") s -> Forall (fun c => not_chr (cu "}") c = true) s.
Proof.
  intros H. apply Forall_forall. intros c Hc. unfold not_chr.
  apply negb_true_iff, N.eqb_neq. intros ->. now apply H.
Qed.

(** Two ways of cutting a text at its first closing brace agree. *)
Lemma first_brace_unique (a a' r r' : jsstring) :
  ~ In (cu "}") a -> ~ In (cu "}") a' ->
  a ++ cu "}" :: r = a' ++ cu "}" :: r' -> a = a' /\ r = r'.
Proof.
  revert a'. induction a as [|c a IH]; intros [|c' a'] Ha Ha' E; simpl in E.
  - injection E as <-. auto.
  - injection E as <- _. exfalso. apply Ha'. now left.
  - injection E as -> _. exfalso. apply Ha. now left.
  - injection E as <- E.
    destruct (IH a') as [<- <-]; auto; intros H; [apply Ha|apply Ha']; now right.
Qed.

(** An object without inner closing brace that names a headline is one
    match of the object pattern, from its opening to its closing brace. *)
Lemma event_object_here (x t : jsstring) :
  ~ In (cu "}") x -> includes x (quoted (js "headline")) = true ->
  exists fd,
    match_here re_event_object (cu "{" :: x ++ cu "}" :: t) = Some fd /\
    matched fd = cu "{" :: x ++ [cu "}"] /\ after fd = t.
Proof.
  intros Hx Hinc. destruct (includes_split _ _ Hinc) as (x1 & x2 & Ex).
  assert (Hx1 : ~ In (cu "}") x1).
  { intros H. apply Hx. rewrite Ex. apply in_or_app. now left. }
  assert (Hx2 : ~ In (cu "}") x2).
  { intros H. apply Hx. rewrite Ex. apply in_or_app. right. apply in_or_app. now right. }
  assert (Hp : path re_event_object (MState (cu "{" :: x ++ cu "}" :: t) [])
                 (MState t [])).
  { unfold re_event_object. cbn [seq]. rewrite Ex, <- !app_assoc.
    eapply path_seq; [constructor; reflexivity|].
    eapply path_seq; [apply path_star_class, not_brace_run, Hx1|].
    eapply path_seq; [apply path_lit|].
    eapply path_seq; [apply path_star_class, not_brace_run, Hx2|].
    constructor. reflexivity. }
  apply match_here_complete in Hp.
  destruct (match_here re_event_object (cu "{" :: x ++ cu "}" :: t)) as [fd|] eqn:E;
    [|now elim Hp].
  exists fd. split; [reflexivity|].
  apply match_here_sound in E. destruct E as (_ & Hs & Hpath).
  apply event_object_shape in Hpath. destruct Hpath as (x' & y' & E' & Fx & Fy).
  cbn [rest] in E'. apply (f_equal (@tl _)) in E'. cbn [tl] in E'.
  destruct (@first_brace_unique x (x' ++ quoted (js "headline") ++ y') t (after fd))
    as [_ Ht].
  - exact Hx.
  - intros H. apply in_app_or in H. destruct H as [H|H].
    + rewrite Forall_forall in Fx. now apply (Fx _ H).
    + apply in_app_or in H. destruct H as [H|H].
      * revert H. vm_compute. intuition discriminate.
      * rewrite Forall_forall in Fy. now apply (Fy _ H).
  - rewrite <- !app_assoc. exact E'.
  - split; [|now symmetry].
    rewrite <- Ht in Hs.
    change (cu "{" :: x ++ cu "}" :: t) with ((cu "{" :: x) ++ [cu "}"] ++ t) in Hs.
    rewrite app_assoc in Hs. apply app_inv_tail in Hs. now symmetry.
Qed.

Lemma event_object_needs_brace (c : code_unit) (s : jsstring) :
  c <> cu "{" -> match_here re_event_object (c :: s) = None.
Proof.
  intros Hc. unfold match_here, re_event_object. cbn [seq m rest].
  assert (E : is_chr (cu "{") c = false) by now apply N.eqb_neq.
  now rewrite E.
Qed.

Lemma event_object_search (gap x t : jsstring) :
  ~ In (cu "{") gap -> ~ In (cu "}") x ->
  includes x (quoted (js "headline")) = true ->
  exists fd,
    search re_event_object (gap ++ cu "{" :: x ++ cu "}" :: t) = Some fd /\
    matched fd = cu "{" :: x ++ [cu "}"] /\ after fd = t.
Proof.
  intros Hgap Hx Hinc. destruct (@event_object_here x t Hx Hinc) as (fd & Hm & Hmd & Ha).
  eexists. split; [|split].
  - apply search_skip; [|exact Hm]. intros i Hi.
    destruct (skipn i (gap ++ cu "{" :: x ++ cu "}" :: t)) as [|c s] eqn:E.
    + apply (f_equal (@length _)) in E. rewrite length_skipn, length_app in E.
      simpl in E. lia.
    + apply event_object_needs_brace. intros ->. apply Hgap.
      assert (Hnth : nth_error gap i = Some (cu "{")).
      { rewrite <- (nth_error_app1 gap (cu "{" :: x ++ cu "}" :: t) Hi).
        rewrite <- (Nat.add_0_r i), <- nth_error_skipn, E. reflexivity. }
      now apply nth_error_In in Hnth.
  - exact Hmd.
  - exact Ha.
Qed.

(** X11. The first complete event of the window is shown as it decodes:
    when the events window holds no bracket, and its first opening brace
    begins an object that names a headline, has no closing brace inside
    and decodes strictly to a value with a headline other than the
    placeholder, that value is the first salvaged event. *)
Theorem first_flat_event_shown
    (text pre ws1 ws2 gap x more closing post : jsstring) (v : value) (e : exn) :
  JSON_parse text = Throw e ->
  text = array_head (js "events") pre ws1 ws2
         ++ (gap ++ cu "{" :: x ++ cu "}" :: more) ++ closing ->
  first_at (quoted (js "events")) pre -> spaces ws1 -> spaces ws2 ->
  window_end closing post ->
  ~ In (cu "]") (gap ++ cu "{" :: x ++ cu "}" :: more) ->
  ~ In (cu "{") gap -> ~ In (cu "}") x ->
  includes x (quoted (js "headline")) = true ->
  JSON_parse (cu "{" :: x ++ [cu "}"]) = Ok v ->
  has_real_headline v = Ok true ->
  exists R others,
    tryParsePartialJSON text = Ok R /\
    get_prop R (js "events") = Ok (VArr (v :: others)).
Proof.
  intros Hfail -> Hfirst H1 H2 Hend Hb Hgap Hx Hinc Hv Hreal.
  rewrite (tryParsePartialJSON_failed _ Hfail).
  match goal with |- context [salvage ?t] =>
    destruct (salvage_ok t) as (s & evs & bt & Hsal & _ & Hev & _) end.
  rewrite (@extract_events_window pre ws1 ws2 _ closing post) in Hev by assumption.
  destruct (@event_object_search gap x more Hgap Hx Hinc) as (fd & Hs & Hmd & Ha).
  unfold str_match_all in Hev. cbn [matches_from] in Hev. rewrite Hs in Hev.
  rewrite Hmd, Ha in Hev. cbn [matched map] in Hev. rewrite Hmd in Hev.
  set (n := length (gap ++ cu "{" :: x ++ cu "}" :: more)) in Hev.
  cbn [mapM] in Hev. unfold event_of_span at 1 in Hev. rewrite Hv in Hev.
  cbn [try_catch bind] in Hev.
  assert (Hspans : Forall (fun w => exists y, w = cu "{" :: y)
                     (map matched (matches_from n re_event_object more))).
  { apply Forall_forall. intros w Hw. apply in_map_iff in Hw.
    destruct Hw as (fd' & <- & Hin). now apply event_span_brace in Hin. }
  assert (Hmap : forall w, (exists y, w = cu "{" :: y) ->
                    exists u, event_of_span w = Ok u /\ is_object u).
  { intros w [y ->]. apply event_of_span_object. }
  destruct (@mapM_ok _ _ event_of_span _ is_object Hmap _ Hspans)
    as (mapped & Hmapped & Hobj).
  rewrite Hmapped in Hev. cbn [bind filterM] in Hev. rewrite Hreal in Hev.
  cbn [bind] in Hev.
  destruct (@filterM_ok _ has_real_headline is_object has_real_headline_object
              mapped Hobj) as (kept & Hkept & _).
  rewrite Hkept in Hev. cbn [bind] in Hev. injection Hev as <-.
  exists (response s (v :: kept) bt), kept. split; [exact Hsal|reflexivity].
Qed.

Lemma first_flat_event_shown_witness :
  exists R others,
    tryParsePartialJSON (jsq "{'events': [ {'headline':'A'}, {'headline':'B'") = Ok R /\
    get_prop R (js "events")
    = Ok (VArr (VObj [(js "headline", VStr (js "A"))] :: others)).
Proof.
  apply (@first_flat_event_shown _ (js "{") [] (js " ") (js " ")
           (jsq "'headline':'A'") (jsq ", {'headline':'B'") [] []
           (VObj [(js "headline", VStr (js "A"))]) SyntaxError).
  - vm_compute. reflexivity.
  - reflexivity.
  - intros i Hi. simpl in Hi. assert (i = 0) as -> by lia. reflexivity.
  - constructor.
  - repeat constructor.
  - constructor.
  - vm_compute. intuition discriminate.
  - vm_compute. intuition discriminate.
  - vm_compute. intuition discriminate.
  - vm_compute. reflexivity.
  - vm_compute. reflexivity.
  - vm_compute. reflexivity.
Defined.

End FirstEvent.

(* ------------------------------------------------------------------ *)
(** ** The component before streaming *)

Section BatchHandler.

Variable syntax_message : jsstring -> jsstring.

(** The greedy star over any character, followed by a closing brace,
    fails on a text without closing brace. *)
Lemma greedy_any_fail (cs : list (nat * jsstring)) :
  forall t, ~ In (cu "}") t ->
    forall n,
      star_loop (m (Chr any_chr)) true
        (fun st => m (Chr (is_chr (cu "}"))) st Some) n (MState t cs) = None.
Proof.
  induction t as [|c t IH]; intros Ht n.
  - destruct n; reflexivity.
  - assert (Hc : is_chr (cu "}") c = false).
    { apply N.eqb_neq. intros ->. apply Ht. now left. }
    destruct n as [|n]; cbn [star_loop m rest caps]; rewrite ?Hc; [reflexivity|].
    unfold any_chr at 1.
    replace (length t <? length (c :: t)) with true
      by (symmetry; apply Nat.ltb_lt; cbn [length]; lia).
    rewrite IH; [reflexivity|]. intros H. apply Ht. now right.
Qed.

(** It stops before the last closing brace. *)
Lemma greedy_any_last (cs : list (nat * jsstring)) (post : jsstring) :
  ~ In (cu "}") post ->
  forall x n, length (x ++ cu "}" :: post) <= n ->
    star_loop (m (Chr any_chr)) true
      (fun st => m (Chr (is_chr (cu "}"))) st Some) n
      (MState (x ++ cu "}" :: post) cs) = Some (MState post cs).
Proof.
  intros Hpost. induction x as [|c x IH]; intros n Hn.
  - cbn [app length] in Hn. destruct n as [|n]; [lia|]. cbn [app star_loop m rest caps].
    unfold any_chr at 1.
    replace (length post <? length (cu "}" :: post)) with true
      by (symmetry; apply Nat.ltb_lt; cbn [length]; lia).
    rewrite (@greedy_any_fail cs post Hpost).
    change (is_chr (cu "}") (cu "}")) with true. reflexivity.
  - change ((c :: x) ++ cu "}" :: post) with (c :: (x ++ cu "}" :: post)) in *.
    cbn [length] in Hn. destruct n as [|n]; [lia|].
    cbn [star_loop m rest caps]. unfold any_chr at 1.
    replace (length (x ++ cu "}" :: post) <? length (c :: x ++ cu "}" :: post))
      with true by (symmetry; apply Nat.ltb_lt; cbn [length]; lia).
    rewrite IH by lia. reflexivity.
Qed.

Lemma braces_here (x post : jsstring) :
  ~ In (cu "}") post ->
  match_here Batch.re_braces (cu "{" :: x ++ cu "}" :: post)
  = Some (Found [] (cu "{" :: x ++ [cu "}"]) [] post).
Proof.
  intros Hpost. unfold match_here, Batch.re_braces. cbn [seq m rest caps].
  change (is_chr (cu "{") (cu "{")) with true. cbv iota.
  pose proof (@greedy_any_last [] post Hpost x _ (le_n _)) as G.
  cbn [m] in G. rewrite G. cbn [rest caps].
  f_equal. f_equal.
  change (cu "{" :: x ++ cu "}" :: post) with ((cu "{" :: x) ++ [cu "}"] ++ post).
  rewrite app_assoc. apply consumed_app.
Qed.

Lemma braces_need_brace (c : code_unit) (s : jsstring) :
  c <> cu "{" -> match_here Batch.re_braces (c :: s) = None.
Proof.
  intros Hc. unfold match_here, Batch.re_braces. cbn [seq m rest].
  assert (E : is_chr (cu "{") c = false) by now apply N.eqb_neq.
  now rewrite E.
Qed.

(** The leftmost match of the brace pattern: from the first opening brace
    to the last closing brace. *)
Lemma braces_search (pre x post : jsstring) :
  ~ In (cu "{") pre -> ~ In (cu "}") post ->
  search Batch.re_braces (pre ++ cu "{" :: x ++ cu "}" :: post)
  = Some (Found pre (cu "{" :: x ++ [cu "}"]) [] post).
Proof.
  intros Hpre Hpost.
  assert (Hskip : forall i, i < length pre ->
            match_here Batch.re_braces (skipn i (pre ++ cu "{" :: x ++ cu "}" :: post))
            = None).
  { intros i Hi.
    destruct (skipn i (pre ++ cu "{" :: x ++ cu "}" :: post)) as [|c s] eqn:E.
    - apply (f_equal (@length _)) in E. rewrite length_skipn, length_app in E.
      simpl in E. lia.
    - apply braces_need_brace. intros ->. apply Hpre.
      assert (Hnth : nth_error pre i = Some (cu "{")).
      { rewrite <- (nth_error_app1 pre (cu "{" :: x ++ cu "}" :: post) Hi).
        rewrite <- (Nat.add_0_r i), <- nth_error_skipn, E. reflexivity. }
      now apply nth_error_In in Hnth. }
  rewrite (@search_skip Batch.re_braces pre _ _ Hskip (@braces_here x post Hpost)).
  cbn [before matched groups after]. rewrite app_nil_r. reflexivity.
Qed.

Lemma braces_shape (a b : mstate) :
  path Batch.re_braces a b ->
  exists x, rest a = cu "{" :: x ++ cu "}" :: rest b.
Proof.
  unfold Batch.re_braces. cbn [seq]. intros H.
  inversion H as [| |? ? ? m1 ? H1 H2| | | | | |]; subst; clear H.
  inversion H2 as [| |? ? ? m2 ? H3 H4| | | | | |]; subst; clear H2.
  apply path_chr_inv in H1. destruct H1 as (c1 & Hc1 & E1 & _).
  apply path_star_chr_inv in H3. destruct H3 as (x & _ & E3 & _).
  apply path_chr_inv in H4. destruct H4 as (c4 & Hc4 & E4 & _).
  apply N.eqb_eq in Hc1, Hc4. subst c1 c4.
  exists x. now rewrite E1, E3, E4.
Qed.

Lemma parse_ok (text : jsstring) (v : value) :
  JSON_parse text = Ok v -> Batch.parse syntax_message text = Ok v.
Proof. unfold Batch.parse. now intros ->. Qed.

Lemma parse_throw (text : jsstring) (e : exn) :
  JSON_parse text = Throw e ->
  Batch.parse syntax_message text = Throw (Error (syntax_message text)).
Proof. unfold Batch.parse. now intros ->. Qed.

(** X12. The answer is kept as it decodes, whatever it decodes to: no
    field is looked at, and [null] leaves the screen without report and
    without error. *)
Theorem batch_keeps_any_decoded_value
    (text : jsstring) (v : value) (st : Batch.ui_state) :
  JSON_parse text = Ok v ->
  Batch.handleSportsSearch syntax_message (Batch.Text text) st
  = Batch.UI v false VNull.
Proof.
  intros H. unfold Batch.handleSportsSearch, Batch.try_body, Batch.parse_response.
  rewrite (@parse_ok text v H). reflexivity.
Qed.

(** X13. An answer that does not decode as a whole is cut from its first
    opening brace to its last closing brace, and that part alone is
    decoded: its value is the report; when it does not decode either, the
    error shown carries the message of that second failure. *)
Theorem batch_decodes_between_braces
    (pre x post : jsstring) (e : exn) (st : Batch.ui_state) :
  ~ In (cu "{") pre -> ~ In (cu "}") post ->
  JSON_parse (pre ++ cu "{" :: x ++ cu "}" :: post) = Throw e ->
  Batch.handleSportsSearch syntax_message
    (Batch.Text (pre ++ cu "{" :: x ++ cu "}" :: post)) st
  = match JSON_parse (cu "{" :: x ++ [cu "}"]) with
    | Ok v => Batch.UI v false VNull
    | Throw _ =>
        Batch.UI VNull false
          (VStr ((if includes (syntax_message (cu "{" :: x ++ [cu "}"]))
                       (js "Web search failed")
                  then js "Web search error: "
                  else js "Error fetching sports news: ")
                 ++ syntax_message (cu "{" :: x ++ [cu "}"])))
    end.
Proof.
  intros Hpre Hpost Hfail.
  unfold Batch.handleSportsSearch, Batch.try_body, Batch.parse_response, str_match.
  rewrite (@parse_throw _ e Hfail), (@braces_search pre x post Hpre Hpost). cbn [matched].
  destruct (JSON_parse (cu "{" :: x ++ [cu "}"])) as [v|e'] eqn:E.
  - rewrite (@parse_ok _ v E). reflexivity.
  - rewrite (@parse_throw _ e' E). unfold Batch.on_error. cbn [message_of].
    destruct (includes _ _); reflexivity.
Qed.

(** X14. An answer that does not decode and has no closing brace after an
    opening brace ends in the error 'Failed to parse structured
    response', with no report. *)
Theorem batch_no_braces_fails (text : jsstring) (e : exn) (st : Batch.ui_state) :
  JSON_parse text = Throw e ->
  (forall pre post, text = pre ++ cu "{" :: post -> ~ In (cu "}") post) ->
  Batch.handleSportsSearch syntax_message (Batch.Text text) st
  = Batch.UI VNull false
      (VStr (js "Error fetching sports news: Failed to parse structured response")).
Proof.
  intros Hfail Hno.
  unfold Batch.handleSportsSearch, Batch.try_body, Batch.parse_response, str_match.
  rewrite (@parse_throw _ e Hfail).
  destruct (search Batch.re_braces text) as [fd|] eqn:E; [|reflexivity].
  exfalso. apply search_sound in E. destruct E as [Ht Hp].
  apply braces_shape in Hp. destruct Hp as [x Hx]. cbn [rest] in Hx.
  rewrite Hx in Ht. apply (Hno _ _ Ht). apply in_or_app. right. now left.
Qed.

(** X15. However the request ends, the spinner is off, and an error is
    shown only with no report; when [generateText] fails, the error is its
    message after 'Web search error: ' if it names a failed web search and
    after 'Error fetching sports news: ' otherwise. *)
Theorem batch_end_state
    (g : Batch.generated) (msg : jsstring) (st : Batch.ui_state) :
  Batch.loading (Batch.handleSportsSearch syntax_message g st) = false /\
  (Batch.error (Batch.handleSportsSearch syntax_message g st) <> VNull ->
   Batch.sportsNews (Batch.handleSportsSearch syntax_message g st) = VNull) /\
  Batch.handleSportsSearch syntax_message (Batch.Rejected msg) st
  = Batch.UI VNull false
      (VStr ((if includes msg (js "Web search failed")
              then js "Web search error: "
              else js "Error fetching sports news: ") ++ msg)).
Proof.
  split; [reflexivity|]. split.
  - unfold Batch.handleSportsSearch, Batch.try_body.
    destruct g as [text|msg'].
    + unfold Batch.parse_response.
      destruct (Batch.parse syntax_message text) as [v|e]; [intros H; now elim H|].
      destruct (str_match Batch.re_braces text) as [fd|].
      * destruct (Batch.parse syntax_message (matched fd)) as [v|e'];
          [intros H; now elim H|].
        intros _. unfold Batch.on_error. now destruct (includes _ _).
      * intros _. reflexivity.
    + intros _. unfold Batch.on_error. now destruct (includes _ _).
  - unfold Batch.handleSportsSearch, Batch.try_body, Batch.on_error.
    cbn [message_of]. now destruct (includes _ _).
Qed.

End BatchHandler.

Lemma batch_keeps_any_decoded_value_witness :
  Batch.handleSportsSearch (fun _ => js "Unexpected end of JSON input")
    (Batch.Text (js "null")) (Batch.UI VUndef false VUndef)
  = Batch.UI VNull false VNull.
Proof.
  apply (@batch_keeps_any_decoded_value (fun _ => js "Unexpected end of JSON input")
           (js "null") VNull).
  vm_compute. reflexivity.
Defined.

Lemma batch_decodes_between_braces_witness :
  Batch.handleSportsSearch (fun _ => js "Unexpected end of JSON input")
    (Batch.Text (jsq "Here you go: {'summary':'S'} Enjoy!"))
    (Batch.UI VNull false VNull)
  = Batch.UI (VObj [(js "summary", VStr (js "S"))]) false VNull.
Proof.
  apply (@batch_decodes_between_braces (fun _ => js "Unexpected end of JSON input")
           (js "Here you go: ") (jsq "'summary':'S'") (js " Enjoy!") SyntaxError).
  - vm_compute. intuition discriminate.
  - vm_compute. intuition discriminate.
  - vm_compute. reflexivity.
Defined.

Lemma batch_no_braces_fails_witness :
  Batch.handleSportsSearch (fun _ => js "Unexpected end of JSON input")
    (Batch.Text (js "No report today {sorry")) (Batch.UI VNull false VNull)
  = Batch.UI VNull false
      (VStr (js "Error fetching sports news: Failed to parse structured response")).
Proof.
  apply (@batch_no_braces_fails (fun _ => js "Unexpected end of JSON input")
           (js "No report today {sorry") SyntaxError).
  - vm_compute. reflexivity.
  - intros pre post E H.
    assert (Hin : In (cu "}") (js "No report today {sorry")).
    { rewrite E. apply in_or_app. right. right. exact H. }
    revert Hin. vm_compute. intuition discriminate.
Defined.
(* ------------------------------------------------------------------ *)
(** ** What stays on the screen when the request fails *)

Section FailedRequest.

Lemma consume_last (cs : list jsstring) (chunk : jsstring) (st : ui_state) (R : value) :
  tryParsePartialJSON (concat (cs ++ [chunk])) = Ok R -> truthy R = true ->
  exists st1,
    consume (cs ++ [chunk]) [] st = (Ok (concat (cs ++ [chunk])), st1) /\
    partialData st1 = R /\ sportsNews st1 = sportsNews st /\ error st1 = error st.
Proof.
  intros HR Ht. rewrite consume_snoc.
  destruct (consume_ok cs [] st) as (st0 & Hc & Hn & He & _). rewrite Hc.
  cbn [app] in *. rewrite concat_app in *. cbn [concat] in *.
  rewrite app_nil_r in *. rewrite HR, Ht.
  eexists. split; [reflexivity|]. cbn. auto.
Qed.

(** X16. A request that fails after the stream has delivered something
    keeps the last partial report on the screen beside the error: when
    the transport fails, or when the stream ends with a text that fails
    the final check, the partial result is the one recovered from the
    whole text received, and there is no final report. *)
Theorem failed_request_keeps_partial
    (cs : list jsstring) (chunk : jsstring) (end_ : option jsstring)
    (R : value) (st : ui_state) :
  tryParsePartialJSON (concat (cs ++ [chunk])) = Ok R -> truthy R = true ->
  end_ <> None \/ is_complete R = Ok false ->
  partialData (handleSportsSearch (Stream (cs ++ [chunk]) end_) st) = R /\
  sportsNews (handleSportsSearch (Stream (cs ++ [chunk]) end_) st) = VNull /\
  error (handleSportsSearch (Stream (cs ++ [chunk]) end_) st) <> VNull.
Proof.
  intros HR Ht Hend. unfold handleSportsSearch, try_body. cbn [chunks failure].
  destruct (@consume_last cs chunk
              (setPartialData VNull
                 (setSportsNews VNull (setError VNull (setLoading true st)))) R HR Ht)
    as (st1 & -> & Hp & Hn & _).
  cbn [sportsNews setPartialData setSportsNews] in Hn.
  assert (Herr : forall e,
            partialData (setLoading false (on_error e st1)) = R /\
            sportsNews (setLoading false (on_error e st1)) = VNull /\
            error (setLoading false (on_error e st1)) <> VNull).
  { intros e. destruct (on_error_fields e st1) as (Hs & Hpd & msg & Hm). simpl.
    rewrite Hs, Hpd, Hm. repeat split; [exact Hp|exact Hn|discriminate]. }
  destruct end_ as [msg|]; [apply Herr|].
  destruct Hend as [H|Hc]; [now elim H|].
  unfold finish. rewrite HR, Hc. apply Herr.
Qed.

Lemma failed_request_keeps_partial_witness :
  partialData (handleSportsSearch
                 (Stream [jsq "{'events': [{'headl"; jsq "ine':'A'}, "] None)
                 (UI VNull VNull false VNull))
  = response VUndef [VObj [(js "headline", VStr (js "A"))]] [] /\
  sportsNews (handleSportsSearch
                (Stream [jsq "{'events': [{'headl"; jsq "ine':'A'}, "] None)
                (UI VNull VNull false VNull)) = VNull /\
  error (handleSportsSearch
           (Stream [jsq "{'events': [{'headl"; jsq "ine':'A'}, "] None)
           (UI VNull VNull false VNull)) <> VNull.
Proof.
  apply (@failed_request_keeps_partial [jsq "{'events': [{'headl"]
           (jsq "ine':'A'}, ") None).
  - vm_compute. reflexivity.
  - reflexivity.
  - right. vm_compute. reflexivity.
Defined.

End FailedRequest.

(* ------------------------------------------------------------------ *)
(** ** The order of the event cards *)

Section DisplayOrder.

Lemma has_significance_inv (k : jsstring) (event : value) :
  has_significance k event = true ->
  get_prop event (js "significance") = Ok (VStr k).
Proof.
  unfold has_significance.
  destruct (get_prop event (js "significance")) as [[| | | |s| |]|]; try discriminate.
  intros H. apply str_eqb_spec in H. now subst.
Qed.

Lemma graded_rank (event : value) :
  graded event ->
  exists s, get_prop event (js "significance") = Ok s /\
            Display.significanceOrder_at s = Ok (Some (grade event)).
Proof.
  unfold grade.
  intros [H|[H|H]]; pose proof (has_significance_inv _ _ H) as E;
    eexists; (split; [exact E|]); unfold has_significance; rewrite E; reflexivity.
Qed.

Lemma compare_graded (a b : value) :
  graded a -> graded b ->
  Display.sort_compare Display.by_significance a b = Ok (grade b - grade a)%Z.
Proof.
  intros Ha Hb. destruct (graded_rank Ha) as (sa & Ea & Ra).
  destruct (graded_rank Hb) as (sb & Eb & Rb).
  unfold Display.sort_compare, Display.by_significance.
  rewrite Eb. cbn [bind]. rewrite Rb. cbn [bind]. rewrite Ea. cbn [bind].
  rewrite Ra. reflexivity.
Qed.

Lemma insert_front (x : value) (l : list value) :
  graded x ->
  match l with [] => True | y :: _ => graded y /\ (grade y <= grade x)%Z end ->
  Display.insert Display.by_significance x l = Ok (x :: l).
Proof.
  intros Hx. destruct l as [|y l]; [reflexivity|]. intros [Hy Hle].
  cbn [Display.insert]. rewrite (compare_graded Hx Hy). cbn [bind].
  replace (grade y - grade x <=? 0)%Z with true by (symmetry; apply Z.leb_le; lia).
  reflexivity.
Qed.

Lemma insert_skip (x : value) (l : list value) :
  graded x ->
  forall skipped, Forall (fun y => graded y /\ (grade x < grade y)%Z) skipped ->
    Display.insert Display.by_significance x (skipped ++ l)
    = (r <- Display.insert Display.by_significance x l ;; Ok (skipped ++ r)).
Proof.
  intros Hx. induction skipped as [|y skipped IH]; intros H.
  - cbn [app]. destruct (Display.insert Display.by_significance x l); reflexivity.
  - inversion H as [|? ? [Hy Hlt] Hrest]; subst.
    cbn [app Display.insert]. rewrite (compare_graded Hx Hy). cbn [bind].
    replace (grade y - grade x <=? 0)%Z with false by (symmetry; apply Z.leb_gt; lia).
    rewrite (IH Hrest).
    destruct (Display.insert Display.by_significance x l); reflexivity.
Qed.

Lemma has_significance_unique (k k' : jsstring) (event : value) :
  has_significance k event = true -> k <> k' -> has_significance k' event = false.
Proof.
  intros H Hne. apply has_significance_inv in H. unfold has_significance. rewrite H.
  destruct (Str.eqb k k') eqn:E; [|reflexivity].
  apply str_eqb_spec in E. contradiction.
Qed.

Lemma filter_graded (k : jsstring) (l : list value) :
  Forall graded l -> Forall graded (filter (has_significance k) l).
Proof.
  intros H. apply Forall_forall. intros y Hy. apply filter_In in Hy.
  rewrite Forall_forall in H. now apply H.
Qed.

Lemma filter_grade (k : jsstring) (g : Z) (l : list value) :
  (forall y, has_significance k y = true -> grade y = g) ->
  Forall (fun y => grade y = g) (filter (has_significance k) l).
Proof.
  intros H. apply Forall_forall. intros y Hy. apply filter_In in Hy. now apply H.
Qed.

Lemma grade_high (y : value) : has_significance (js "High") y = true -> grade y = 3%Z.
Proof. unfold grade. now intros ->. Qed.

Lemma grade_medium (y : value) :
  has_significance (js "Medium") y = true -> grade y = 2%Z.
Proof.
  intros H. unfold grade. rewrite H.
  rewrite (@has_significance_unique (js "Medium") (js "High") y H); [reflexivity|].
  discriminate.
Qed.

Lemma grade_low (y : value) : has_significance (js "Low") y = true -> grade y = 1%Z.
Proof.
  intros H. unfold grade.
  rewrite (@has_significance_unique (js "Low") (js "High") y H) by discriminate.
  rewrite (@has_significance_unique (js "Low") (js "Medium") y H) by discriminate.
  reflexivity.
Qed.

(** The head of the sorted list, if any, is graded and no higher than
    the bound of its first non-empty group. *)
Lemma head_bound (g : Z) (l : list value) (x : value) :
  Forall (fun y => graded y /\ (grade y <= g)%Z) l -> (g <= grade x)%Z ->
  match l with [] => True | y :: _ => graded y /\ (grade y <= grade x)%Z end.
Proof.
  intros H Hg. destruct l as [|y l]; [exact I|].
  inversion H as [|? ? [Hy Hle] _]; subst. split; [exact Hy|lia].
Qed.

Lemma groups_bound (k : jsstring) (g b : Z) (l : list value) :
  Forall graded l -> (forall y, has_significance k y = true -> grade y = g) ->
  (g <= b)%Z ->
  Forall (fun y => graded y /\ (grade y <= b)%Z) (filter (has_significance k) l).
Proof.
  intros Hl Hk Hb. apply Forall_forall. intros y Hy. apply filter_In in Hy.
  destruct Hy as [Hin Hy]. rewrite Forall_forall in Hl. split; [now apply Hl|].
  rewrite (Hk _ Hy). exact Hb.
Qed.

Lemma groups_above (k : jsstring) (g : Z) (x : value) (l : list value) :
  Forall graded l -> (forall y, has_significance k y = true -> grade y = g) ->
  (grade x < g)%Z ->
  Forall (fun y => graded y /\ (grade x < grade y)%Z) (filter (has_significance k) l).
Proof.
  intros Hl Hk Hb. apply Forall_forall. intros y Hy. apply filter_In in Hy.
  destruct Hy as [Hin Hy]. rewrite Forall_forall in Hl. split; [now apply Hl|].
  rewrite (Hk _ Hy). exact Hb.
Qed.

Lemma sort_events_graded (events : list value) :
  Forall graded events ->
  Display.sort_events events
  = Ok (filter (has_significance (js "High")) events
        ++ filter (has_significance (js "Medium")) events
        ++ filter (has_significance (js "Low")) events).
Proof.
  unfold Display.sort_events.
  induction events as [|x events IH]; intros H; [reflexivity|].
  inversion H as [|? ? Hx Hrest]; subst.
  cbn [Display.sort]. rewrite (IH Hrest). cbn [bind filter].
  set (hi := filter (has_significance (js "High")) events).
  set (me := filter (has_significance (js "Medium")) events).
  set (lo := filter (has_significance (js "Low")) events).
  assert (Bhi : Forall (fun y => graded y /\ (grade y <= 3)%Z) hi)
    by (apply groups_bound with (g := 3%Z); [assumption|apply grade_high|lia]).
  assert (Bme : Forall (fun y => graded y /\ (grade y <= 2)%Z) me)
    by (apply groups_bound with (g := 2%Z); [assumption|apply grade_medium|lia]).
  assert (Blo : Forall (fun y => graded y /\ (grade y <= 1)%Z) lo)
    by (apply groups_bound with (g := 1%Z); [assumption|apply grade_low|lia]).
  destruct Hx as [Hh|[Hm|Hl]].
  - rewrite Hh.
    rewrite (@has_significance_unique (js "High") (js "Medium") x Hh) by discriminate.
    rewrite (@has_significance_unique (js "High") (js "Low") x Hh) by discriminate.
    apply insert_front; [now left|].
    apply head_bound with (g := 3%Z); [|rewrite (grade_high _ Hh); lia].
    apply Forall_app. split; [exact Bhi|]. apply Forall_app. split.
    + eapply Forall_impl; [|exact Bme]. intros y [Hy Hle]. split; [exact Hy|lia].
    + eapply Forall_impl; [|exact Blo]. intros y [Hy Hle]. split; [exact Hy|lia].
  - rewrite Hm.
    rewrite (@has_significance_unique (js "Medium") (js "High") x Hm) by discriminate.
    rewrite (@has_significance_unique (js "Medium") (js "Low") x Hm) by discriminate.
    rewrite insert_skip; [|right; now left|].
    + rewrite insert_front; [reflexivity|right; now left|].
      apply head_bound with (g := 2%Z); [|rewrite (grade_medium _ Hm); lia].
      apply Forall_app. split; [exact Bme|].
      eapply Forall_impl; [|exact Blo]. intros y [Hy Hle]. split; [exact Hy|lia].
    + apply groups_above with (g := 3%Z); [assumption|apply grade_high|].
      rewrite (grade_medium _ Hm). lia.
  - rewrite Hl.
    rewrite (@has_significance_unique (js "Low") (js "High") x Hl) by discriminate.
    rewrite (@has_significance_unique (js "Low") (js "Medium") x Hl) by discriminate.
    rewrite app_assoc. rewrite insert_skip; [|right; now right|].
    + rewrite insert_front; [cbn [bind]; now rewrite <- app_assoc|right; now right|].
      apply head_bound with (g := 1%Z); [exact Blo|rewrite (grade_low _ Hl); lia].
    + apply Forall_app. split.
      * apply groups_above with (g := 3%Z); [assumption|apply grade_high|].
        rewrite (grade_low _ Hl). lia.
      * apply groups_above with (g := 2%Z); [assumption|apply grade_medium|].
        rewrite (grade_low _ Hl). lia.
Qed.

(** X17. The cards of events graded High, Medium or Low come in three
    groups, High first, then Medium, then Low, each group in the order of
    the report; sorting the sorted cards again, as every later render
    does, leaves them in place. *)
Theorem cards_grouped_by_significance (events : list value) :
  Forall graded events ->
  exists cards,
    Display.sort_events events = Ok cards /\
    cards = filter (has_significance (js "High")) events
            ++ filter (has_significance (js "Medium")) events
            ++ filter (has_significance (js "Low")) events /\
    Display.sort_events cards = Ok cards.
Proof.
  intros H. eexists. split; [now apply sort_events_graded|]. split; [reflexivity|].
  rewrite sort_events_graded.
  - f_equal. rewrite !filter_app.
    assert (Hnone : forall k k' l, k <> k' ->
              filter (has_significance k') (filter (has_significance k) l) = []).
    { intros k k' l Hne. induction l as [|y l IHl]; [reflexivity|]. cbn [filter].
      destruct (has_significance k y) eqn:E; [|exact IHl]. cbn [filter].
      now rewrite (@has_significance_unique k k' y E Hne). }
    assert (Hsame : forall k l,
              filter (has_significance k) (filter (has_significance k) l)
              = filter (has_significance k) l).
    { intros k l. induction l as [|y l IHl]; [reflexivity|]. cbn [filter].
      destruct (has_significance k y) eqn:E; [|exact IHl]. cbn [filter].
      now rewrite E, IHl. }
    rewrite !Hsame.
    rewrite (Hnone (js "Medium") (js "High")), (Hnone (js "Low") (js "High")),
      (Hnone (js "High") (js "Medium")), (Hnone (js "Low") (js "Medium")),
      (Hnone (js "High") (js "Low")), (Hnone (js "Medium") (js "Low"))
      by discriminate.
    now rewrite !app_nil_r.
  - apply Forall_app. split; [now apply filter_graded|].
    apply Forall_app. split; now apply filter_graded.
Qed.

End DisplayOrder.

Lemma cards_grouped_by_significance_witness :
  exists cards,
    Display.sort_events
      [VObj [(js "headline", VStr (js "a")); (js "significance", VStr (js "Low"))];
       VObj [(js "headline", VStr (js "b")); (js "significance", VStr (js "High"))];
       VObj [(js "headline", VStr (js "c")); (js "significance", VStr (js "Low"))];
       VObj [(js "headline", VStr (js "d")); (js "significance", VStr (js "High"))]]
    = Ok cards /\
    cards =
      [VObj [(js "headline", VStr (js "b")); (js "significance", VStr (js "High"))];
       VObj [(js "headline", VStr (js "d")); (js "significance", VStr (js "High"))];
       VObj [(js "headline", VStr (js "a")); (js "significance", VStr (js "Low"))];
       VObj [(js "headline", VStr (js "c")); (js "significance", VStr (js "Low"))]] /\
    Display.sort_events cards = Ok cards.
Proof.
  apply (@cards_grouped_by_significance
    [VObj [(js "headline", VStr (js "a")); (js "significance", VStr (js "Low"))];
     VObj [(js "headline", VStr (js "b")); (js "significance", VStr (js "High"))];
     VObj [(js "headline", VStr (js "c")); (js "significance", VStr (js "Low"))];
     VObj [(js "headline", VStr (js "d")); (js "significance", VStr (js "High"))]]).
  repeat apply Forall_cons; try apply Forall_nil.
  - right. right. reflexivity.
  - left. reflexivity.
  - right. right. reflexivity.
  - left. reflexivity.
Defined.

(* ------------------------------------------------------------------ *)
(** ** A whole window of flat events, a whole window of plain lines *)

Section WholeWindow.

(** One step of the global match: the leftmost match, then the matches
    of what follows it. *)
Lemma matches_from_step (r : regex) (gap s : jsstring) (fd : found) (f : nat) :
  (forall i, i < length gap -> match_here r (skipn i (gap ++ s)) = None) ->
  match_here r s = Some fd -> matched fd <> [] ->
  length (gap ++ s) < f ->
  matches_from f r (gap ++ s)
  = Found (gap ++ before fd) (matched fd) (groups fd) (after fd)
    :: matches_from (S (length (after fd))) r (after fd).
Proof.
  intros Hskip Hm Hne Hf. destruct f as [|f]; [lia|].
  remember (matches_from (S (length (after fd))) r (after fd)) as tail eqn:Et.
  cbn [matches_from].
  rewrite (@search_skip r gap s fd Hskip Hm). cbn [matched after].
  destruct (matched fd) as [|c w] eqn:E; [now elim Hne|]. f_equal. subst tail.
  apply matches_from_budget; [|lia].
  apply match_here_sound in Hm. destruct Hm as (_ & Hs & _).
  rewrite length_app, Hs, E in Hf. rewrite !length_app in Hf. simpl in Hf. lia.
Qed.

Lemma skip_gap (r : regex) (c0 : code_unit) (gap s : jsstring) :
  (forall c t, c <> c0 -> match_here r (c :: t) = None) ->
  ~ In c0 gap ->
  forall i, i < length gap -> match_here r (skipn i (gap ++ c0 :: s)) = None.
Proof.
  intros Hr Hgap i Hi.
  destruct (skipn i (gap ++ c0 :: s)) as [|c t] eqn:E.
  - apply (f_equal (@length _)) in E. rewrite length_skipn, length_app in E.
    simpl in E. lia.
  - apply Hr. intros ->. apply Hgap.
    assert (Hnth : nth_error gap i = Some c0).
    { rewrite <- (nth_error_app1 gap (c0 :: s) Hi).
      rewrite <- (Nat.add_0_r i), <- nth_error_skipn, E. reflexivity. }
    now apply nth_error_In in Hnth.
Qed.

Lemma event_spans_flat (body : jsstring) (vs : list value) :
  flat_events body vs ->
  mapM event_of_span (map matched (matches_from (S (length body)) re_event_object body))
  = Ok vs.
Proof.
  induction 1 as [tail Htail|gap x rest v vs Hgap Hx Hinc Hv Hrest IH].
  - replace (matches_from (S (length tail)) re_event_object tail) with (@nil found);
      [reflexivity|].
    destruct (matches_from (S (length tail)) re_event_object tail) as [|fd l] eqn:E;
      [reflexivity|exfalso].
    assert (Hin : In fd (matches_from (S (length tail)) re_event_object tail))
      by (rewrite E; now left).
    apply matches_from_sound in Hin. destruct Hin as [[p Hp] Hpath].
    apply event_object_shape in Hpath. destruct Hpath as (a & b & E' & _).
    cbn [rest] in E'. apply Htail. rewrite Hp, E'.
    apply in_or_app. right. right. apply in_or_app. right.
    apply in_or_app. right. apply in_or_app. right. now left.
  - destruct (@event_object_here x rest Hx Hinc) as (fd & Hm & Hmd & Ha).
    rewrite (@matches_from_step re_event_object gap _ fd _
               (@skip_gap re_event_object (cu "{") gap _ event_object_needs_brace Hgap)
               Hm); [|rewrite Hmd; discriminate|lia].
    rewrite Ha. cbn [map matched mapM]. rewrite Hmd, IH.
    unfold event_of_span. rewrite Hv. reflexivity.
Qed.

(** X18. A window of flat events is shown whole and in order: when the
    events window holds no bracket and is a run of objects without inner
    closing brace that name a headline and decode strictly, followed by a
    rest without closing brace, the salvaged events are the decoded values
    of those objects, in their order, less the ones that fail the headline
    filter. *)
Theorem flat_events_shown_in_order
    (text pre ws1 ws2 body closing post : jsstring) (vs : list value) (e : exn) :
  JSON_parse text = Throw e ->
  text = array_head (js "events") pre ws1 ws2 ++ body ++ closing ->
  first_at (quoted (js "events")) pre -> spaces ws1 -> spaces ws2 ->
  window_end closing post -> ~ In (cu "]") body ->
  flat_events body vs ->
  exists R evs,
    tryParsePartialJSON text = Ok R /\
    get_prop R (js "events") = Ok (VArr evs) /\
    filterM has_real_headline vs = Ok evs.
Proof.
  intros Hfail -> Hfirst H1 H2 Hend Hb Hflat.
  rewrite (tryParsePartialJSON_failed _ Hfail).
  match goal with |- context [salvage ?t] =>
    destruct (salvage_ok t) as (s & evs & bt & Hsal & _ & Hev & _) end.
  rewrite (@extract_events_window pre ws1 ws2 body closing post) in Hev by assumption.
  pose proof (event_spans_flat Hflat) as Hspans.
  unfold str_match_all in Hev.
  destruct (matches_from (S (length body)) re_event_object body) as [|fd l] eqn:E.
  - cbn [map mapM] in Hspans. injection Hspans as <-.
    cbn [mapM bind filterM] in Hev. injection Hev as <-.
    exists (response s [] bt), []. auto.
  - rewrite Hspans in Hev. cbn [bind] in Hev.
    exists (response s evs bt), evs. auto.
Qed.

Lemma quoted_needs_quote (c : code_unit) (t : jsstring) :
  c <> dquote -> match_here re_quoted_string (c :: t) = None.
Proof.
  intros Hc. unfold match_here, re_quoted_string. cbn [seq m rest].
  assert (E : is_chr dquote c = false) by now apply N.eqb_neq.
  now rewrite E.
Qed.

(** Two ways of cutting a text at its first double quote agree. *)
Lemma first_quote_unique (a a' r r' : jsstring) :
  ~ In dquote a -> ~ In dquote a' ->
  a ++ dquote :: r = a' ++ dquote :: r' -> a = a' /\ r = r'.
Proof.
  revert a'. induction a as [|c a IH]; intros [|c' a'] Ha Ha' E; simpl in E.
  - injection E as <-. auto.
  - injection E as <- _. exfalso. apply Ha'. now left.
  - injection E as -> _. exfalso. apply Ha. now left.
  - injection E as <- E.
    destruct (IH a') as [<- <-]; auto; intros H; [apply Ha|apply Ha']; now right.
Qed.

Lemma no_line_without_two_quotes (f : nat) (s : jsstring) :
  (forall p v t, s <> p ++ dquote :: v ++ dquote :: t) ->
  matches_from f re_quoted_string s = [].
Proof.
  intros Hs. destruct (matches_from f re_quoted_string s) as [|fd l] eqn:E;
    [reflexivity|exfalso].
  assert (Hin : In fd (matches_from f re_quoted_string s)) by (rewrite E; now left).
  pose proof (matches_from_sound _ _ _ _ Hin) as [[p Hp] _].
  apply matches_from_matched in Hin. destruct Hin as (s' & fd' & Hm & Hmd).
  apply quoted_match_plain in Hm. destruct Hm as (v & Hv & _).
  apply (Hs p v (after fd)). rewrite Hp, Hmd, Hv. now rewrite quoted_app.
Qed.

Lemma line_spans_plain (body : jsstring) (ls : list jsstring) :
  plain_lines body ls ->
  map matched (matches_from (S (length body)) re_quoted_string body) = map quoted ls.
Proof.
  induction 1 as [tail Htail|gap tail Hgap Htail|gap v more ls Hgap Hv Hmore IH].
  - rewrite no_line_without_two_quotes; [reflexivity|].
    intros p v t ->. apply Htail. apply in_or_app. right. now left.
  - rewrite no_line_without_two_quotes; [reflexivity|].
    intros p v t E.
    destruct (in_dec N.eq_dec dquote p) as [Hp|Hp].
    + apply split_at_quote in Hp. destruct Hp as (p1 & p2 & -> & Hp1).
      rewrite <- app_assoc in E. cbn [app] in E.
      apply first_quote_unique in E; [|assumption|assumption].
      destruct E as [_ ->]. apply Htail. apply in_or_app. right. right.
      apply in_or_app. right. now left.
    + apply first_quote_unique in E; [|assumption|assumption].
      destruct E as [_ ->]. apply Htail. apply in_or_app. right. now left.
  - assert (Hm : match_here re_quoted_string (quoted v ++ more)
                 = Some (Found [] (quoted v) [(1, v)] more)).
    { unfold match_here. rewrite quoted_app, (@quoted_string_here v more Hv).
      cbn [rest caps]. rewrite <- quoted_app, consumed_app. reflexivity. }
    assert (Hskip : forall i, i < length gap ->
              match_here re_quoted_string (skipn i (gap ++ quoted v ++ more)) = None).
    { rewrite quoted_app.
      exact (@skip_gap re_quoted_string dquote gap _ quoted_needs_quote Hgap). }
    rewrite (@matches_from_step re_quoted_string gap _ _ _ Hskip Hm);
      [|discriminate|lia].
    cbn [map matched after]. now rewrite IH.
Qed.

(** X19. A window of plain lines is shown whole and in order: when the bar
    talk window holds no bracket and is a run of quoted texts with no
    double quote inside or between them, followed by a rest with at most
    one double quote, the salvaged bar talk is those texts, in their
    order, as they stand between their quotes. *)
Theorem plain_lines_shown_in_order
    (text pre ws1 ws2 body closing post : jsstring) (ls : list jsstring) (e : exn) :
  JSON_parse text = Throw e ->
  text = array_head (js "barTalk") pre ws1 ws2 ++ body ++ closing ->
  first_at (quoted (js "barTalk")) pre -> spaces ws1 -> spaces ws2 ->
  window_end closing post -> ~ In (cu "]") body ->
  plain_lines body ls ->
  exists R,
    tryParsePartialJSON text = Ok R /\
    get_prop R (js "barTalk") = Ok (VArr (map VStr ls)).
Proof.
  intros Hfail -> Hfirst H1 H2 Hend Hb Hlines.
  rewrite (tryParsePartialJSON_failed _ Hfail).
  match goal with |- context [salvage ?t] =>
    destruct (salvage_ok t) as (s & evs & bt & Hsal & _ & _ & Hbt) end.
  rewrite (@extract_barTalk_window pre ws1 ws2 body closing post) in Hbt by assumption.
  pose proof (line_spans_plain Hlines) as Hspans.
  assert (Hls : forall l : list jsstring,
            Forall (fun w => ~ In dquote w) l ->
            map (fun mt => unescape_quotes (slice mt 1 (-1))) (map quoted l) = l).
  { induction l as [|w l IHl]; intros Hl; [reflexivity|].
    inversion Hl as [|? ? Hw Hl']; subst. cbn [map].
    rewrite slice_quoted, (@unescape_quotes_plain w Hw), (IHl Hl'). reflexivity. }
  assert (Hplain : Forall (fun w => ~ In dquote w) ls).
  { clear -Hlines. induction Hlines; constructor; assumption. }
  unfold str_match_all in Hbt.
  destruct (matches_from (S (length body)) re_quoted_string body) as [|fd l] eqn:E.
  - destruct ls as [|w ls]; [|discriminate Hspans].
    cbn [map] in Hbt. injection Hbt as <-.
    exists (response s evs []). split; [exact Hsal|]. apply get_barTalk.
  - rewrite Hspans, (Hls ls Hplain) in Hbt. injection Hbt as <-.
    exists (response s evs ls). split; [exact Hsal|]. apply get_barTalk.
Qed.

Lemma flat_events_shown_in_order_witness :
  exists R evs,
    tryParsePartialJSON
      (jsq "{'events': [{'headline':'A'}, {'headline':'Loading...'}, {'headline':'B'}, {'head")
    = Ok R /\
    get_prop R (js "events") = Ok (VArr evs) /\
    filterM has_real_headline
      [VObj [(js "headline", VStr (js "A"))];
       VObj [(js "headline", VStr (js "Loading..."))];
       VObj [(js "headline", VStr (js "B"))]] = Ok evs.
Proof.
  apply (@flat_events_shown_in_order _ (js "{") [] (js " ")
           (jsq "{'headline':'A'}, {'headline':'Loading...'}, {'headline':'B'}, {'head")
           [] [] _ SyntaxError).
  - vm_compute. reflexivity.
  - reflexivity.
  - intros i Hi. simpl in Hi. assert (i = 0) as -> by lia. reflexivity.
  - constructor.
  - repeat constructor.
  - constructor.
  - vm_compute. intuition discriminate.
  - apply (@flat_event [] (jsq "'headline':'A'")
             (jsq ", {'headline':'Loading...'}, {'headline':'B'}, {'head"));
      [vm_compute; intuition discriminate|vm_compute; intuition discriminate
      |vm_compute; reflexivity|vm_compute; reflexivity|].
    apply (@flat_event (js ", ") (jsq "'headline':'Loading...'")
             (jsq ", {'headline':'B'}, {'head"));
      [vm_compute; intuition discriminate|vm_compute; intuition discriminate
      |vm_compute; reflexivity|vm_compute; reflexivity|].
    apply (@flat_event (js ", ") (jsq "'headline':'B'") (jsq ", {'head"));
      [vm_compute; intuition discriminate|vm_compute; intuition discriminate
      |vm_compute; reflexivity|vm_compute; reflexivity|].
    apply flat_rest. vm_compute. intuition discriminate.
Defined.

Lemma plain_lines_shown_in_order_witness :
  exists R,
    tryParsePartialJSON (jsq "{'barTalk': ['one', 'two', 'thr") = Ok R /\
    get_prop R (js "barTalk") = Ok (VArr [VStr (js "one"); VStr (js "two")]).
Proof.
  apply (@plain_lines_shown_in_order _ (js "{") [] (js " ")
           (jsq "'one', 'two', 'thr") [] [] [js "one"; js "two"] SyntaxError).
  - vm_compute. reflexivity.
  - reflexivity.
  - intros i Hi. simpl in Hi. assert (i = 0) as -> by lia. reflexivity.
  - constructor.
  - repeat constructor.
  - constructor.
  - vm_compute. intuition discriminate.
  - apply (@lines_line [] (js "one") (jsq ", 'two', 'thr"));
      [vm_compute; intuition discriminate|vm_compute; intuition discriminate|].
    apply (@lines_line (js ", ") (js "two") (jsq ", 'thr"));
      [vm_compute; intuition discriminate|vm_compute; intuition discriminate|].
    apply (@lines_open (js ", ") (js "thr"));
      vm_compute; intuition discriminate.
Defined.

End WholeWindow.
